(** * KAT spectra analysis ([scripts/kat/spectra.py]): a shallow embedding

    Numbers.  Python integers are [Z].  A numpy float is the rational [Q] it
    denotes.  [B64.round] is round-to-nearest-even to binary64 (53-bit
    significand, gradual underflow; the exponent is not bounded above, so
    overflow to infinity is outside the model).  [smooth], [_residuals],
    the closest-peak search of [getHomozygousPeakIndex] and
    [calcKmerCoverage] round every float operation with it.  Two
    reductions over doubles are parameters, because the source does not fix
    how they round: the dot product inside [np.convolve] (the order of the
    additions and the fusing of multiply and add belong to the build of
    numpy and to the BLAS in use) and builtin [sum] (compensated or not,
    depending on the interpreter and on the type of the items).  Elsewhere
    the arithmetic is either exact in binary64 for the values at hand
    (integers, halves, doubling) or taken without rounding (the sum of the
    curves in [_updateModel], the difference [mean - fmax] in the
    primary-peak search of [getHomozygousPeakIndex], the genome size and
    the heterozygous rate): statements about the latter hold up to
    rounding.  Functions of numpy, scipy and [kat.peak] that are not
    rational arithmetic ([np.sqrt], the Gaussian [createModel], the solver
    [optimize.least_squares], the local optimiser of a peak) are parameters
    as well. *)

From Stdlib Require Import String.
From Stdlib Require Import List ZArith QArith Qround Qabs Qpower Qreduction Lia Lqa Bool Arith Sorted.
From Stdlib Require DecimalString DecimalPos DecimalZ.
Import ListNotations.

Local Open Scope Q_scope.

(** ** Exceptions and results *)

Inductive exn : Type :=
| ValueError (msg : string)
| IndexError (msg : string)
| TypeError (msg : string)
| AttributeError (msg : string).

(** [str(inst)] for the exceptions above. *)
Definition exn_str (e : exn) : string :=
  match e with
  | ValueError m | IndexError m | TypeError m | AttributeError m => m
  end.

Inductive outcome (A : Type) : Type :=
| Ok (a : A)
| Raise (e : exn).
Arguments Ok {A} a.
Arguments Raise {A} e.

(** ** Binary64 arithmetic

    [rne] rounds to the nearest integer, ties to even; [ilog2 q] is the
    binary exponent of a positive [q]; [ulp q] is the spacing of the doubles
    around [q].  An arithmetic operation on doubles returns the rounded
    exact result. *)

Module B64.

(** round to the nearest integer, ties to even *)
Definition rne (t : Q) : Z :=
  let f := Qfloor t in
  match Qcompare (t - inject_Z f) (1 # 2) with
  | Lt => f
  | Gt => (f + 1)%Z
  | Eq => if Z.even f then f else (f + 1)%Z
  end.

(** [2^e] *)
Definition pow2 (e : Z) : Q := Qpower 2 e.

(** [floor(log2 q)] for [q > 0] *)
Definition ilog2 (q : Q) : Z :=
  let a := (Z.log2 (Qnum q) - Z.log2 (Zpos (Qden q)))%Z in
  if Qle_bool (pow2 a) q then a else (a - 1)%Z.

(** the spacing of the doubles at [q]: [2^(e - 52)], and [2^-1074] in the
    subnormal range *)
Definition ulp (q : Q) : Q := pow2 (Z.max (ilog2 (Qabs q) - 52) (-1074)).

(** the double nearest to [q] *)
Definition round (q : Q) : Q :=
  if Qeq_bool q 0 then 0
  else Qred (inject_Z (rne (q / ulp q)) * ulp q).

(** [x + y], [x - y], [x * y], [x / y] on doubles *)
Definition add (x y : Q) : Q := round (x + y).
Definition sub (x y : Q) : Q := round (x - y).
Definition mul (x y : Q) : Q := round (x * y).
Definition div (x y : Q) : Q := round (x / y).

(** the unit roundoff [2^-53] *)
Definition eps : Q := 1 # (2 ^ 53).

End B64.

(** A value that binary64 holds: [m * 2^E] with [|m| <= 2^53] and
    [E >= -1074] (the largest exponent is not bounded). *)
Definition representable (q : Q) : Prop :=
  exists m E : Z,
    (Z.abs m <= 2 ^ 53)%Z /\ (-1074 <= E)%Z /\ q == inject_Z m * B64.pow2 E.

(** ** Python and numpy primitives *)

Module Py.

Definition Qltb (x y : Q) : bool := negb (Qle_bool y x).

(** [int(x)] on a float: truncation towards zero. *)
Definition int (q : Q) : Z := Z.quot (Qnum q) (Zpos (Qden q)).

(** [l[i]] for an integer [i]: a negative index counts from the end, an
    index out of range raises [IndexError] (here: [None]). *)
Definition getitem {A : Type} (l : list A) (i : Z) : option A :=
  let n := Z.of_nat (length l) in
  let j := (if i <? 0 then i + n else i)%Z in
  if ((0 <=? j) && (j <? n))%Z%bool then nth_error l (Z.to_nat j) else None.

(** [range(a, b)] *)
Definition range (a b : Z) : list Z :=
  map (fun k => (a + Z.of_nat k)%Z) (seq 0 (Z.to_nat (b - a))).

(** [l[start:]] *)
Definition slice_from {A : Type} (l : list A) (start : Z) : list A :=
  let n := Z.of_nat (length l) in
  let s := (if start <? 0 then Z.max 0 (start + n) else Z.min start n)%Z in
  skipn (Z.to_nat s) l.

(** [l[start:stop:-1]]: the indices are adjusted as CPython does for a
    negative step, then [l[start], l[start-1], ..., l[stop+1]] is read. *)
Definition adjust_rev (n i : Z) : Z :=
  (if i <? 0 then (if i + n <? 0 then -1 else i + n)
   else if n <=? i then n - 1 else i)%Z.

Definition slice_rev (l : list Q) (start stop : Z) : list Q :=
  let n := Z.of_nat (length l) in
  let a := adjust_rev n start in
  let b := adjust_rev n stop in
  map (fun k => nth (Z.to_nat (a - Z.of_nat k)) l 0)
      (seq 0 (Z.to_nat (a - b))).

(** A sum of numbers that binary64 adds without rounding (integers below
    [2^53]): a left fold from [0]. *)
Definition sum (l : list Q) : Q := fold_left Qplus l 0.

(** A sum of doubles added one after the other from [0.0], every addition
    rounded. *)
Definition fsum (l : list Q) : Q := fold_left B64.add l 0.

(** [np.ones(n)], [np.zeros_like(a)], [np.linspace(0, n - 1, n)] *)
Definition ones (n : Z) : list Q := repeat 1 (Z.to_nat n).
Definition zeros_like (a : list Q) : list Q := map (fun _ => 0) a.
Definition linspace0 (n : nat) : list Q :=
  map (fun k => inject_Z (Z.of_nat k)) (seq 0 n).

(** [np.argmax(a)]: the index of the first occurrence of the maximum;
    raises [ValueError] on an empty array. *)
Fixpoint argmax_from (best : Q) (besti i : Z) (a : list Q) : Z :=
  match a with
  | [] => besti
  | x :: rest =>
      if Qltb best x then argmax_from x i (i + 1)%Z rest
      else argmax_from best besti (i + 1)%Z rest
  end.

Definition argmax (a : list Q) : outcome Z :=
  match a with
  | [] => Raise (ValueError "attempt to get argmax of an empty sequence"%string)
  | x :: rest => Ok (argmax_from x 0%Z 1%Z rest)
  end.

(** Elementwise binary operations on 1-d arrays, with numpy's
    broadcasting of a length-1 operand; other shape mismatches raise. *)
Fixpoint zip_with (f : Q -> Q -> Q) (a b : list Q) : list Q :=
  match a, b with
  | x :: a', y :: b' => f x y :: zip_with f a' b'
  | _, _ => []
  end.

Definition shape_error : exn :=
  ValueError "operands could not be broadcast together"%string.

(** [a op b] *)
Definition binop (f : Q -> Q -> Q) (a b : list Q) : outcome (list Q) :=
  if (length a =? length b)%nat then Ok (zip_with f a b)
  else match a, b with
       | [x], _ => Ok (map (fun y => f x y) b)
       | _, [y] => Ok (map (fun x => f x y) a)
       | _, _ => Raise shape_error
       end.

(** [a op= b]: in place, so only [b] may be broadcast. *)
Definition inplace (f : Q -> Q -> Q) (a b : list Q) : outcome (list Q) :=
  if (length a =? length b)%nat then Ok (zip_with f a b)
  else match b with
       | [y] => Ok (map (fun x => f x y) a)
       | _ => Raise shape_error
       end.

(** [a[i] = v] for [0 <= i < len(a)] (the only use in the source). *)
Fixpoint setitem (a : list Q) (i : nat) (v : Q) : list Q :=
  match a, i with
  | [], _ => []
  | _ :: a', O => v :: a'
  | x :: a', S i' => x :: setitem a' i' v
  end.

(** [np.convolve(a, v, mode='valid')]: numpy swaps the operands so that
    the longer one comes first; the output at [j] is
    [sum_t long[j + t] * short[K - 1 - t]] for the [K] entries of the
    shorter operand, computed by the dot product [dot] of the window with
    the reversed shorter operand.  An empty operand raises. *)
Fixpoint windows (k : nat) (l : list Q) : list (list Q) :=
  match l with
  | [] => []
  | x :: rest =>
      if (k <=? length l)%nat then firstn k l :: windows k rest else []
  end.

(** A dot product of doubles: every product rounded, and the products
    added one after the other from [0.0]. *)
Definition dot (a b : list Q) : Q := fsum (zip_with B64.mul a b).

Definition convolve_valid (dot : list Q -> list Q -> Q) (a v : list Q)
    : outcome (list Q) :=
  match a, v with
  | [], _ => Raise (ValueError "a cannot be empty"%string)
  | _, [] => Raise (ValueError "v cannot be empty"%string)
  | _, _ =>
      let long := if (length a <? length v)%nat then v else a in
      let short := if (length a <? length v)%nat then a else v in
      Ok (map (fun w => dot w (rev short)) (windows (length short) long))
  end.

End Py.

(** ** The peak model *)

(** Modelled from the spec: the class [Peak] of [kat/peak.py], which is not
    part of the analysed sources.  The spec gives its interface: a mutable
    record with a mean, a standard deviation, a peak height, a primary flag,
    a description label and a curve sample array keyed to the same domain as
    the histogram; accessors [mean()], [stddev()], [peak()];
    [updateModel(mean, height, stddev)], which stores the three values and
    resamples the curve; [optimise(histogram)], which mutates the peak; and
    [elements()], the volume of the fitted curve. *)
Module Peak.

Record t : Type := make {
  mean : Q;
  stddev : Q;
  peak : Q;
  primary : bool;
  Tx : list Q;
  Ty : list Q;
  description : string
}.

(** [Peak(mean, stddev, peak, primary)] *)
Definition new (mean stddev peak : Q) (primary : bool) : t :=
  make mean stddev peak primary [] [] EmptyString.

End Peak.

(** The result object of [optimize.least_squares]. *)
Record OptimizeResult : Type := {
  res_success : bool;
  res_x : list Q;
  res_nfev : Z
}.

(** The functions of numpy, scipy and [kat.peak] that the module calls and
    that are not rational arithmetic.  [least_squares fun x0 lower upper]
    stands for
    [optimize.least_squares(fun, x0, bounds=(lower, upper), loss="soft_l1")].
    The last two are the reductions over doubles whose rounding the source
    does not fix: [np_dot a b] is the dot product of two equally long
    arrays as [np.convolve] computes it, [float_sum l] is builtin [sum] on
    a non-empty list of doubles. *)
Class External : Type := {
  np_sqrt : Q -> Q;
  createModel : list Q -> Q -> Q -> Q -> list Q;
  least_squares :
    (list Q -> outcome (list Q)) -> list Q -> list Q -> list Q ->
    outcome OptimizeResult;
  Peak_optimise : list Q -> Peak.t -> Peak.t;
  Peak_elements : Peak.t -> Q;
  np_dot : list Q -> list Q -> Q;
  float_sum : list Q -> Q
}.

(** Modelled from the spec: [Peak.updateModel(new_mean, new_peak, new_stddev)]
    of [kat/peak.py] stores the three values and resamples the curve on the
    peak's own domain. *)
Definition Peak_updateModel `{External}
    (p : Peak.t) (new_mean new_peak new_stddev : Q) : Peak.t :=
  Peak.make new_mean new_stddev new_peak (Peak.primary p) (Peak.Tx p)
            (createModel (Peak.Tx p) new_mean new_stddev new_peak)
            (Peak.description p).

(** ** [smooth] *)

(** The argument is a 1-d array by its type, so the [x.ndim != 1] guard
    never fires.  [w.sum()] adds [window_len] ones, which is exact; the
    kernel entries are the doubles [1.0 / w.sum()]. *)
Definition smooth `{External} (x : list Q) (window_len : Z)
    : outcome (list Q) :=
  if ((Z.of_nat (length x) <? window_len) || (window_len <? 3))%Z%bool then Ok x
  else
    let s := Py.slice_rev x (window_len - 1) 0 ++ x
             ++ Py.slice_rev x (-2) (- window_len - 1) in
    let w := Py.ones window_len in
    let wsum := Py.sum w in
    Py.convolve_valid np_dot (map (fun wi => B64.div wi wsum) w) s.

(** Builtin [sum] of a list of doubles; for the empty list it is the
    integer [0]. *)
Definition sum_doubles `{External} (l : list Q) : Q :=
  match l with
  | [] => 0
  | _ :: _ => float_sum l
  end.

(** ** The spectra object and its state monad *)

(** What [print] wrote: the printed values in order (separators and line
    ends are not modelled, so a bare [print()] leaves no entry). *)
Inductive out : Type :=
| OutStr (s : string)
| OutInt (n : Z)
| OutPeaks (ps : list Peak.t).

(** One record for [Spectra] and its subclass [KmerSpectra]; [peaks = None]
    is Python's [None], [realTy = None] an attribute not yet assigned. *)
Record Spectra : Type := mkSpectra {
  histogram : list Q;
  k : Z;
  peaks : option (list Peak.t);
  Tx : list Q;
  Ty : list Q;
  realTy : option (list Q);
  haploid : bool;
  fmax : Z;
  fmin : Z;
  stdout : list out;
  stderr : list string
}.

(** [KmerSpectra(histogram, haploid, k)] *)
Definition KmerSpectra_init (histogram : list Q) (haploid : bool) (k : Z) : Spectra :=
  let tx := Py.linspace0 (length histogram) in
  mkSpectra histogram k None tx (Py.zeros_like tx) None haploid 0 0 [] [].

Definition set_peaks (v : option (list Peak.t)) (s : Spectra) : Spectra :=
  mkSpectra (histogram s) (k s) v (Tx s) (Ty s) (realTy s) (haploid s)
            (fmax s) (fmin s) (stdout s) (stderr s).
Definition set_Tx (v : list Q) (s : Spectra) : Spectra :=
  mkSpectra (histogram s) (k s) (peaks s) v (Ty s) (realTy s) (haploid s)
            (fmax s) (fmin s) (stdout s) (stderr s).
Definition set_Ty (v : list Q) (s : Spectra) : Spectra :=
  mkSpectra (histogram s) (k s) (peaks s) (Tx s) v (realTy s) (haploid s)
            (fmax s) (fmin s) (stdout s) (stderr s).
Definition set_realTy (v : option (list Q)) (s : Spectra) : Spectra :=
  mkSpectra (histogram s) (k s) (peaks s) (Tx s) (Ty s) v (haploid s)
            (fmax s) (fmin s) (stdout s) (stderr s).
Definition set_fmax (v : Z) (s : Spectra) : Spectra :=
  mkSpectra (histogram s) (k s) (peaks s) (Tx s) (Ty s) (realTy s) (haploid s)
            v (fmin s) (stdout s) (stderr s).
Definition set_fmin (v : Z) (s : Spectra) : Spectra :=
  mkSpectra (histogram s) (k s) (peaks s) (Tx s) (Ty s) (realTy s) (haploid s)
            (fmax s) v (stdout s) (stderr s).
Definition add_stdout (v : list out) (s : Spectra) : Spectra :=
  mkSpectra (histogram s) (k s) (peaks s) (Tx s) (Ty s) (realTy s) (haploid s)
            (fmax s) (fmin s) (stdout s ++ v) (stderr s).
Definition add_stderr (v : string) (s : Spectra) : Spectra :=
  mkSpectra (histogram s) (k s) (peaks s) (Tx s) (Ty s) (realTy s) (haploid s)
            (fmax s) (fmin s) (stdout s) (stderr s ++ [v]).

(** A method of the object: it reads and mutates [self] and either returns
    or raises; the state reached when an exception is raised is kept. *)
Definition M (A : Type) : Type := Spectra -> outcome A * Spectra.

Definition ret {A : Type} (a : A) : M A := fun s => (Ok a, s).
Definition raise {A : Type} (e : exn) : M A := fun s => (Raise e, s).
Definition bind {A B : Type} (m : M A) (f : A -> M B) : M B :=
  fun s => match m s with
           | (Ok a, s') => f a s'
           | (Raise e, s') => (Raise e, s')
           end.
Definition gets {A : Type} (f : Spectra -> A) : M A := fun s => (Ok (f s), s).
Definition modify (f : Spectra -> Spectra) : M unit := fun s => (Ok tt, f s).
Definition lift {A : Type} (r : outcome A) : M A := fun s => (r, s).
Definition when (b : bool) (m : M unit) : M unit := if b then m else ret tt.

(** [try: body / except Exception as inst: handler(inst)] *)
Definition try_except {A : Type} (body : M A) (handler : exn -> M A) : M A :=
  fun s => match body s with
           | (Ok a, s') => (Ok a, s')
           | (Raise e, s') => handler e s'
           end.

Declare Scope py_scope.
Delimit Scope py_scope with py.
Notation "x <- m ;; f" := (bind m (fun x => f))
  (at level 61, m at next level, right associativity) : py_scope.
Notation "m ;; f" := (bind m (fun _ => f))
  (at level 61, right associativity) : py_scope.
Local Open Scope py_scope.

(** [print(...)] and [print(..., file=sys.stderr)] *)
Definition print (v : list out) : M unit := modify (add_stdout v).
Definition eprint (v : string) : M unit := modify (add_stderr v).

(** [seq[i]] *)
Definition index (l : list Q) (i : Z) : M Q :=
  match Py.getitem l i with
  | Some v => ret v
  | None => raise (IndexError "index out of bounds"%string)
  end.

(** [self.peaks] where the source iterates over it. *)
Definition peaks_list : M (list Peak.t) :=
  ps <- gets peaks ;;
  match ps with
  | Some l => ret l
  | None => raise (TypeError "'NoneType' object is not iterable"%string)
  end.

(** [self.peaks] where the source first takes [len(self.peaks)]. *)
Definition peaks_sized : M (list Peak.t) :=
  ps <- gets peaks ;;
  match ps with
  | Some l => ret l
  | None => raise (TypeError "object of type 'NoneType' has no len()"%string)
  end.

(** Truth value of [self.peaks]: [None] and the empty list are false. *)
Definition truthy (ps : option (list Peak.t)) : bool :=
  match ps with
  | Some (_ :: _) => true
  | _ => false
  end.

(** [enumerate(l, start)] *)
Fixpoint enumerate {A : Type} (start : Z) (l : list A) : list (Z * A) :=
  match l with
  | [] => []
  | a :: rest => (start, a) :: enumerate (start + 1)%Z rest
  end.

(** ** [class Spectra] *)

Section SpectraMethods.
Context `{External}.

(** The first loop of [_updateModel]: peak [i] keeps its mean and
    standard deviation and takes [params[i]] as its height (the lengths
    agree when the loop is reached). *)
Fixpoint update_heights (ps : list Peak.t) (params : list Q) : list Peak.t :=
  match ps, params with
  | p :: ps', new_peak :: params' =>
      Peak_updateModel p (Peak.mean p) new_peak (Peak.stddev p)
      :: update_heights ps' params'
  | _, _ => ps
  end.

(** The second loop of [_updateModel]: [self.Ty += p.Ty] for each peak. *)
Fixpoint accumulate_Ty (ps : list Peak.t) : M unit :=
  match ps with
  | [] => ret tt
  | p :: rest =>
      ty <- gets Ty ;;
      ty' <- lift (Py.inplace Qplus ty (Peak.Ty p)) ;;
      modify (set_Ty ty') ;;
      accumulate_Ty rest
  end.

Definition _updateModel (params : list Q) : M (list Q) :=
  ps <- peaks_sized ;;
  if negb (length params =? length ps)%nat
  then raise (ValueError "Unexpected number of parameters"%string)
  else
    modify (set_peaks (Some (update_heights ps params))) ;;
    tx <- gets Tx ;;
    modify (set_Ty (Py.zeros_like tx)) ;;
    ps' <- peaks_list ;;
    accumulate_Ty ps' ;;
    gets Ty.

(** The loop of [_residuals] that rebuilds the fitted histogram; the test,
    the inflation and [model += pdist] are double arithmetic. *)
Fixpoint residuals_model (tx params : list Q) (ips : list (Z * Peak.t))
    (model : list Q) : M (list Q) :=
  match ips with
  | [] => ret model
  | (i, p) :: rest =>
      let new_stddev := Peak.stddev p in
      new_peak <- index params i ;;
      let pdist := createModel tx (Peak.mean p) new_stddev new_peak in
      let pdist :=
        if Py.Qltb (B64.sub (Peak.mean p) (B64.mul 2 new_stddev)) 1
        then map (fun v => B64.mul v 1000) pdist else pdist in
      model' <- lift (Py.inplace B64.add model pdist) ;;
      residuals_model tx params rest model'
  end.

(** One round of the penalty loop of [_residuals]. *)
Definition penalise (npeaks : nat) (residuals : list Q) (i : nat) : list Q :=
  let d := nth i residuals 0 in
  let residuals :=
    if Py.Qltb d 0
    then Py.setitem residuals i (B64.mul d (inject_Z (Z.of_nat npeaks)))
    else residuals in
  if (i <? 5)%nat then Py.setitem residuals i 0 else residuals.

Definition _residuals (params : list Q) : M (list Q) :=
  ps <- peaks_sized ;;
  if negb (length params =? length ps)%nat
  then raise (ValueError "Unexpected number of parameters"%string)
  else
    tx <- gets Tx ;;
    model <- residuals_model tx params (enumerate 0 ps) (Py.zeros_like tx) ;;
    real <- gets realTy ;;
    match real with
    | None =>
        raise (AttributeError "object has no attribute 'realTy'"%string)
    | Some realTy =>
        residuals <- lift (Py.binop B64.sub realTy model) ;;
        ret (fold_left (penalise (length ps)) (seq 0 (length residuals))
                       residuals)
    end.

(** The loop of [optimise] that collects the start vector and the bounds. *)
Definition optimise_bounds (ps : list Peak.t) : list Q * list Q * list Q :=
  fold_left
    (fun '(params, lower_bounds, upper_bounds) p =>
       (params ++ [Peak.peak p], lower_bounds ++ [0],
        upper_bounds ++ [Peak.peak p]))
    ps ([], [], []).

Definition optimise : M unit :=
  ps <- gets peaks ;;
  if negb (truthy ps)
  then raise (ValueError
                "Can't optimise peaks because none are defined."%string)
  else
    ps <- peaks_list ;;
    let '(params, lower_bounds, upper_bounds) := optimise_bounds ps in
    h <- gets histogram ;;
    modify (set_Tx (Py.linspace0 (length h))) ;;
    modify (set_realTy (Some h)) ;;
    self <- gets (fun s => s) ;;
    res <- lift (least_squares (fun p => fst (_residuals p self))
                               params lower_bounds upper_bounds) ;;
    if res_success res
    then _updateModel (res_x res) ;; print [OutInt (res_nfev res)]
    else ret tt.

Definition printPeaks : M unit :=
  ps <- peaks_sized ;;
  if (0 <? length ps)%nat then print [OutPeaks ps]
  else print [OutStr "No peaks detected"%string].

Definition warning : string :=
  "WARNING: problem optimising peaks. It is likely that the spectra is too complex to analyse properly.  Output for this spectra may not be valid."%string.

(** [analyse]; the abstract method [_createInitialPeaks] is an argument. *)
Section Analyse.
Variable _createInitialPeaks : M unit.

(** the statements of the [if self.peaks:] branch before the [try] *)
Definition analyse_refine (min_elements : Q) (verbose : bool) : M unit :=
  when verbose
    (ps <- peaks_list ;;
     print [OutStr "done."%string; OutInt (Z.of_nat (length ps));
            OutStr "peaks initially created"%string] ;;
     printPeaks ;;
     print [OutStr "Locally optimising each peak ... "%string]) ;;
  ps <- peaks_list ;;
  h <- gets histogram ;;
  modify (set_peaks (Some (map (Peak_optimise h) ps))) ;;
  ps <- peaks_list ;;
  modify (set_peaks
            (Some (filter (fun p => Qle_bool min_elements (Peak_elements p))
                          ps))) ;;
  when verbose
    (print [OutStr "done."%string] ;;
     printPeaks ;;
     print [OutStr "Fitting cumulative distribution to histogram by adjusting peaks ... "%string]).

(** the [try ... except Exception as inst] statement *)
Definition analyse_fit (verbose : bool) : M unit :=
  try_except
    (optimise ;;
     when verbose (print [OutStr "done."%string] ;; printPeaks))
    (fun inst => eprint warning ;; eprint (exn_str inst)).

Definition analyse (min_elements : Q) (verbose : bool) : M unit :=
  when verbose (print [OutStr "Creating initial peaks ... "%string]) ;;
  _createInitialPeaks ;;
  ps <- gets peaks ;;
  if truthy ps
  then analyse_refine min_elements verbose ;; analyse_fit verbose
  else when verbose (print [OutStr "done. No peaks created"%string]).

End Analyse.

End SpectraMethods.

(** ** [class KmerSpectra] *)

Section KmerSpectraMethods.
Context `{External}.

(** The walk to the first local minimum: [i] runs over
    [range(1, len(histogram) - 2)]; the loop is left at the first [i] with
    [h[i] < h[i + 1] and h[i] < h[i + 2]]; without one [fmin] stays [0]. *)
Fixpoint find_fmin (h : list Q) (idx : list Z) : M Z :=
  match idx with
  | [] => ret 0%Z
  | i :: rest =>
      a <- index h i ;;
      b <- index h (i + 1) ;;
      if Py.Qltb a b
      then
        c <- index h (i + 2) ;;
        if Py.Qltb a c then ret i else find_fmin h rest
      else find_fmin h rest
  end.

(** The list [frequencies] of candidate means. *)
Definition frequencies (haploid : bool) (fmax : Z) : list Q :=
  (if negb haploid then [inject_Z fmax / 2] else [])
  ++ map (fun i => inject_Z (fmax * i)) (Py.range 1 5).

(** The acceptance test of one candidate. *)
Definition accepts (h : list Q) (fmin : Z) (mu : Q) : bool :=
  let sigma := np_sqrt mu in
  let radius := Py.int (sigma * 2) in
  let mean := Py.int mu in
  (2 <=? radius)%Z && (fmin <? mean)%Z
  && Py.Qltb 0 (mu - inject_Z radius)
  && Py.Qltb (mu + inject_Z radius) (inject_Z (Z.of_nat (length h))).

(** The loop over [frequencies], appending to the local list [peaks]. *)
Fixpoint candidate_loop (h : list Q) (fmin fmax : Z) (freqs : list Q)
    (peaks : list Peak.t) : M (list Peak.t) :=
  match freqs with
  | [] => ret peaks
  | mu :: rest =>
      let sigma := np_sqrt mu in
      let mean := Py.int mu in
      if accepts h fmin mu
      then
        height <- index h mean ;;
        candidate_loop h fmin fmax rest
          (peaks ++ [Peak.new (inject_Z mean) sigma height (mean =? fmax)%Z])
      else candidate_loop h fmin fmax rest peaks
  end.

Definition KmerSpectra_createInitialPeaks : M unit :=
  h <- gets histogram ;;
  fmin <- find_fmin h (Py.range 1 (Z.of_nat (length h) - 2)) ;;
  fmax <- (if (fmin =? 0)%Z then ret 0%Z
           else
             a <- lift (Py.argmax (Py.slice_from h fmin)) ;;
             ret (a + fmin)%Z) ;;
  modify (set_fmin fmin) ;;
  modify (set_fmax fmax) ;;
  if (fmax <? 10)%Z
  then modify (set_peaks None)
  else
    hap <- gets haploid ;;
    peaks <- candidate_loop h fmin fmax (frequencies hap fmax) [] ;;
    modify (set_peaks (Some peaks)).

(** The search of [getHomozygousPeakIndex] for the peak closest to
    [approx_freq]: the pair is [(min_peak_index, delta_peak_freq)], and
    [delta] is the absolute value of the rounded difference. *)
Definition closest_step (approx_freq : Q) (acc : Z * Q) (ip : Z * Peak.t)
    : Z * Q :=
  let '(min_peak_index, delta_peak_freq) := acc in
  let '(p_i, p) := ip in
  let delta := Qabs (B64.sub (Peak.mean p) approx_freq) in
  if Py.Qltb delta delta_peak_freq then (p_i, delta)
  else (min_peak_index, delta_peak_freq).

(** The search for the primary peak: the loop returns at the first peak
    within 1.0 of [fmax]; after the loop the method returns [0]. *)
Fixpoint primary_loop (fmax : Z) (ips : list (Z * Peak.t)) : Z :=
  match ips with
  | [] => 0%Z
  | (i, p) :: rest =>
      if Py.Qltb (Qabs (Peak.mean p - inject_Z fmax)) 1 then i
      else primary_loop fmax rest
  end.

Definition getHomozygousPeakIndex (approx_freq : Q) : M Z :=
  if Py.Qltb 0 approx_freq
  then
    ps <- peaks_list ;;
    ret (fst (fold_left (closest_step approx_freq) (enumerate 1 ps)
                        (0%Z, 1000000)))
  else
    ps <- peaks_list ;;
    fm <- gets fmax ;;
    ret (primary_loop fm (enumerate 1 ps)).

(** Builtin [sum] over the doubles of the two list comprehensions, then a
    double division. *)
Definition calcKmerCoverage : M Z :=
  ps <- peaks_list ;;
  let tot_vol := sum_doubles (map Peak_elements ps) in
  let weighted :=
    sum_doubles (map (fun x => B64.mul (Peak.mean x) (Peak_elements x)) ps) in
  ret (if Py.Qltb 0 tot_vol then Py.int (B64.div weighted tot_vol)
       else 0%Z).

End KmerSpectraMethods.

(** ** A concrete instance of the external functions

    Used to run the methods on concrete inputs.  The square root is a
    fixed-point one (20 fractional bits, rounded down), the curve a rational
    bell, the solver returns the midpoint of the bounds and, as scipy does,
    refuses bounds that are not strictly ordered.  The two reductions add
    in order, without fusing and without compensation. *)
Module Demo.

Definition sqrt_fix (q : Q) : Q :=
  Z.sqrt (Qfloor (q * inject_Z (2 ^ 40))) # (2 ^ 20).

Definition bell (X : list Q) (mean stddev peak : Q) : list Q :=
  map (fun x => peak / (1 + (x - mean) * (x - mean))) X.

Definition midpoint_solver (f : list Q -> outcome (list Q))
    (x0 lower upper : list Q) : outcome OptimizeResult :=
  if (length lower =? length upper)%nat
     && forallb (fun lu => Py.Qltb (fst lu) (snd lu)) (combine lower upper)
  then Ok {| res_success := true;
             res_x := Py.zip_with (fun l u => (l + u) / 2) lower upper;
             res_nfev := 1 |}
  else Raise (ValueError
    "Each lower bound must be strictly less than each upper bound."%string).

Definition resample (h : list Q) (p : Peak.t) : Peak.t :=
  let tx := Py.linspace0 (length h) in
  Peak.make (Peak.mean p) (Peak.stddev p) (Peak.peak p) (Peak.primary p) tx
            (bell tx (Peak.mean p) (Peak.stddev p) (Peak.peak p))
            (Peak.description p).

Definition volume (p : Peak.t) : Q := Py.sum (Peak.Ty p).

#[export] Instance external : External := {|
  np_sqrt := sqrt_fix;
  createModel := bell;
  least_squares := midpoint_solver;
  Peak_optimise := resample;
  Peak_elements := volume;
  np_dot := Py.dot;
  float_sum := Py.fsum
|}.

(** A spectrum with a trough at bin 5 and its mode at bin 10. *)
Definition bimodal : list Q :=
  map inject_Z
    [900; 700; 500; 300; 200; 100; 300; 500; 700; 900; 1000; 900; 700; 500;
     400; 300; 250; 200; 300; 380; 400; 380; 300; 200; 100; 50; 20; 10; 5;
     2; 1; 1; 1; 1; 1; 1; 1; 1; 1; 1; 1; 1; 1; 1; 1; 1; 1; 1; 1; 1]%Z.

(** The same spectrum with an empty bin 30. *)
Definition gappy : list Q :=
  firstn 30 bimodal ++ [0] ++ skipn 31 bimodal.

(** A spectrum without a local minimum. *)
Definition declining : list Q := [5; 4; 3; 2; 1].

(** A constant sequence. *)
Definition flat : list Q := [2; 2; 2; 2].

(** A peak with the given mean, height and stored curve. *)
Definition peak_at (mean height : Q) (curve : list Q) : Peak.t :=
  Peak.make mean 1 height false [] curve EmptyString.

(** An object whose peak list is [ps]. *)
Definition with_peaks (ps : list Peak.t) : Spectra :=
  set_peaks (Some ps) (KmerSpectra_init bimodal false 27).

(** An object as [optimise] prepares it for the solver. *)
Definition fitting : Spectra :=
  set_realTy (Some bimodal)
    (with_peaks [peak_at 10 1000 []; peak_at 20 400 []]).

End Demo.

(** ** Reference definitions, written from the wording of the specification *)

Module Spec.

(** [sum(v_i)] *)
Fixpoint total (l : list Q) : Q :=
  match l with
  | [] => 0
  | v :: rest => v + total rest
  end.

(** the distance of a peak's mean to a frequency *)
Definition dist (a : Q) (p : Peak.t) : Q := Qabs (Peak.mean p - a).

(** [r] is the 1-based index of the peak whose mean is closest to [a],
    the lowest such index when several peaks are equally close. *)
Definition closest_index (ps : list Peak.t) (a : Q) (r : Z) : Prop :=
  (1 <= r)%Z /\
  exists p, nth_error ps (Z.to_nat (r - 1)) = Some p /\
    (forall j q, nth_error ps j = Some q -> dist a p <= dist a q) /\
    (forall j q, nth_error ps j = Some q -> (Z.of_nat j + 1 < r)%Z ->
                 dist a p < dist a q).

(** [r] is the 1-based index of the first peak whose mean is within 1.0
    of [fmax], or [0] when no peak qualifies. *)
Definition first_within (ps : list Peak.t) (fmax : Z) (r : Z) : Prop :=
  (r = 0%Z /\ Forall (fun p => ~ dist (inject_Z fmax) p < 1) ps)
  \/
  ((1 <= r)%Z /\
   exists p, nth_error ps (Z.to_nat (r - 1)) = Some p /\
     dist (inject_Z fmax) p < 1 /\
     forall j q, nth_error ps j = Some q -> (Z.of_nat j + 1 < r)%Z ->
                 ~ dist (inject_Z fmax) q < 1).

(** the histogram value at a bin *)
Definition at_bin (h : list Q) (i : Z) : Q := nth (Z.to_nat i) h 0.

(** [h[i] < h[i+1] AND h[i] < h[i+2]] *)
Definition is_minimum (h : list Q) (i : Z) : Prop :=
  at_bin h i < at_bin h (i + 1) /\ at_bin h i < at_bin h (i + 2).

(** The candidate means: [fmax/2] (omitted when haploid) and [fmax * i]
    for [i] in [1..4]. *)
Definition candidates (haploid : bool) (fmax : Z) : list Q :=
  (if haploid then [] else [inject_Z fmax / 2])
  ++ [inject_Z (fmax * 1); inject_Z (fmax * 2); inject_Z (fmax * 3);
      inject_Z (fmax * 4)].

(** [sigma = sqrt(mu)], [radius = floor(2*sigma)], [mean = floor(mu)] *)
Definition sigma `{External} (mu : Q) : Q := np_sqrt mu.
Definition radius `{External} (mu : Q) : Z := Qfloor (2 * sigma mu).
Definition mean_bin (mu : Q) : Z := Qfloor mu.

(** [radius >= 2], [mean > fmin], [mu - radius > 0],
    [mu + radius < histogram length] *)
Definition accepted `{External} (h : list Q) (fmin : Z) (mu : Q) : Prop :=
  (2 <= radius mu)%Z /\ (fmin < mean_bin mu)%Z
  /\ 0 < mu - inject_Z (radius mu)
  /\ mu + inject_Z (radius mu) < inject_Z (Z.of_nat (length h)).

(** [p] is the peak emitted for the candidate [mu]: its mean is
    [floor(mu)], its height the histogram value at that bin, and it is
    primary iff that bin is [fmax]. *)
Definition peak_of `{External} (h : list Q) (fmax : Z) (mu : Q)
    (p : Peak.t) : Prop :=
  Peak.mean p = inject_Z (mean_bin mu)
  /\ Peak.stddev p = sigma mu
  /\ Py.getitem h (mean_bin mu) = Some (Peak.peak p)
  /\ (0 <= mean_bin mu)%Z
  /\ (Peak.primary p = true <-> mean_bin mu = fmax).

(** The sum of doubles [v1 + v2 + ...] taken from [0.0] in list order. *)
Definition fl_total (l : list Q) : Q := fold_left B64.add l 0.

(** The curve of one peak at bin [i], rebuilt at its fixed mean and
    standard deviation with a candidate height, and inflated by 1000 when
    [mean - 2*stddev < 1.0]; the test and the inflation are double
    arithmetic. *)
Definition contribution `{External} (tx : list Q) (p : Peak.t) (height : Q)
    (i : nat) : Q :=
  let v := nth i (createModel tx (Peak.mean p) (Peak.stddev p) height) 0 in
  if Qlt_le_dec (B64.sub (Peak.mean p) (B64.mul 2 (Peak.stddev p))) 1
  then B64.mul v 1000 else v.

(** The model curve at bin [i]: the sum of all peak curves, in the order
    of the peaks. *)
Definition model_at `{External} (tx : list Q) (ps : list Peak.t)
    (heights : list Q) (i : nat) : Q :=
  fl_total (map (fun ph => contribution tx (fst ph) (snd ph) i)
                (combine ps heights)).

(** The residual at bin [i]: actual minus model, a negative residual
    multiplied by the number of peaks, and 0 at the first 5 bins. *)
Definition residual_at `{External} (actual tx : list Q) (ps : list Peak.t)
    (heights : list Q) (i : nat) : Q :=
  if (i <? 5)%nat then 0
  else
    let d := B64.sub (nth i actual 0) (model_at tx ps heights i) in
    if Qlt_le_dec d 0 then B64.mul d (inject_Z (Z.of_nat (length ps)))
    else d.

(** The contract of the bounded solver: a successful solve returns a
    point inside the bounds. *)
Definition solver_respects_bounds `{External} : Prop :=
  forall f x0 lower upper res,
    least_squares f x0 lower upper = Ok res ->
    res_success res = true ->
    Forall2 Qle lower (res_x res) /\ Forall2 Qle (res_x res) upper.

(** The contract of the curve function: one sample per point of the
    domain. *)
Definition curves_keep_shape `{External} : Prop :=
  forall X mean stddev peak,
    length (createModel X mean stddev peak) = length X.

(** The contract of [Peak.optimise], from the interface of the peak model
    (a curve sample array keyed to the same domain as the histogram): the
    refined peak's curve has one sample per bin of the histogram. *)
Definition refined_on_domain `{External} : Prop :=
  forall (h : list Q) (p : Peak.t),
    length (Peak.Tx (Peak_optimise h p)) = length h.

(** [sum(mean_i * elements_i) / sum(elements_i)] *)
Definition weighted_mean `{External} (ps : list Peak.t) : Q :=
  total (map (fun p => Peak.mean p * Peak_elements p) ps)
  / total (map Peak_elements ps).

(** The same quotient in double arithmetic: the products and the quotient
    are rounded, the two sums are builtin [sum]. *)
Definition computed_volume `{External} (ps : list Peak.t) : Q :=
  sum_doubles (map Peak_elements ps).

Definition computed_mean `{External} (ps : list Peak.t) : Q :=
  B64.div
    (sum_doubles
       (map (fun p => B64.mul (Peak.mean p) (Peak_elements p)) ps))
    (computed_volume ps).

(** The distance of a peak's mean to a frequency as the code computes it:
    the difference is rounded. *)
Definition computed_dist (a : Q) (p : Peak.t) : Q :=
  Qabs (B64.sub (Peak.mean p) a).

(** A non-negative double that is zero or in the normal range. *)
Definition normal (v : Q) : Prop := v == 0 \/ B64.pow2 (-1022) <= v.

(** A non-negative double that is zero or not tiny: products of two such
    values do not underflow. *)
Definition sizable (v : Q) : Prop := v == 0 \/ B64.pow2 (-500) <= v.

(** The factors [(1 - 2^-53)^k] and [(1 + 2^-53)^k] by which a result of
    [k] rounded operations on non-negative doubles can fall short of or
    exceed the exact result. *)
Definition slack_down (k : nat) : Q := Qpower (1 - B64.eps) (Z.of_nat k).
Definition slack_up (k : nat) : Q := Qpower (1 + B64.eps) (Z.of_nat k).

(** [sum(a_i * b_i)] *)
Definition exact_dot (a b : list Q) : Q := total (Py.zip_with Qmult a b).

(** The accuracy asked of a dot product of [n] non-negative pairs: the
    result is the exact dot product up to [n + 1] roundings.  One rounding
    per product and one per addition, in whatever order the additions are
    made, stay within it; fusing a multiply with an add only removes a
    rounding. *)
Definition accurate_dot `{External} : Prop :=
  forall a b : list Q,
    length a = length b -> Forall sizable a -> Forall sizable b ->
    exact_dot a b * slack_down (S (length a)) <= np_dot a b
    /\ np_dot a b <= exact_dot a b * slack_up (S (length a)).

(** The accuracy asked of builtin [sum] on [n] non-negative doubles: the
    result is the exact sum up to [n] roundings.  Summation from left to
    right meets it, whatever the interpreter does beyond that to be more
    accurate. *)
Definition accurate_sum `{External} : Prop :=
  forall l : list Q,
    l <> [] -> Forall normal l ->
    total l * slack_down (length l) <= float_sum l
    /\ float_sum l <= total l * slack_up (length l).

End Spec.

(** ** Auxiliary definitions for the proofs *)

(** The peak that the loop over [frequencies] appends for an accepted
    candidate [mu]. *)
Definition emit `{External} (h : list Q) (fmax : Z) (mu : Q) : Peak.t :=
  Peak.new (inject_Z (Py.int mu)) (np_sqrt mu) (Spec.at_bin h (Py.int mu))
           (Py.int mu =? fmax)%Z.

(** The state in which [optimise] calls the solver: the domain and the
    actual histogram have been reset. *)
Definition solver_state (s : Spectra) : Spectra :=
  set_realTy (Some (histogram s))
    (set_Tx (Py.linspace0 (length (histogram s))) s).


(** ** Further methods *)

(** [KmerSpectra.maxValue] *)
Definition maxValue : M Q :=
  h <- gets histogram ;;
  fm <- gets fmax ;;
  index h fm.

(** [str(n)] for an integer. *)
Definition str (n : Z) : string :=
  DecimalString.NilZero.string_of_int (Z.to_int n).

(** [p.description = d] *)
Definition set_description (d : string) (p : Peak.t) : Peak.t :=
  Peak.make (Peak.mean p) (Peak.stddev p) (Peak.peak p) (Peak.primary p)
            (Peak.Tx p) (Peak.Ty p) d.

(** One round of the loop of [calcGenomeSize]: the pair is the local [sum]
    and the peaks relabelled so far (the loop body cannot raise, so the
    labels written in place are stored back after the loop).  In the second
    branch [delta >= 2], so the division is defined. *)
Definition genome_step `{External} (hom_peak_index : Z)
    (acc : Q * list Peak.t) (ip : Z * Peak.t) : Q * list Peak.t :=
  let '(sum, relabelled) := acc in
  let '(p_i, p) := ip in
  if (hom_peak_index <? p_i)%Z then
    let delta := (p_i - hom_peak_index + 1)%Z in
    (sum + inject_Z delta * Peak_elements p,
     relabelled ++ [set_description (str delta ++ "X") p])
  else if (p_i <? hom_peak_index)%Z then
    let delta := (hom_peak_index - p_i + 1)%Z in
    let d := ("1/" ++ str delta ++ "X")%string in
    (sum + Peak_elements p / inject_Z delta,
     relabelled
     ++ [set_description
           (if String.eqb d "1/2X" then "1/2X (Heterozygous)"%string else d)
           p])
  else
    (sum + Peak_elements p,
     relabelled ++ [set_description "1X (Homozygous)" p]).

(** [KmerSpectra.calcGenomeSize(hom_peak)]: here [hom_peak] is a peak
    index, [0] meaning that the primary peak is looked up. *)
Definition calcGenomeSize `{External} (hom_peak : Z) : M Q :=
  hom_peak_index <- (if (hom_peak =? 0)%Z
                     then getHomozygousPeakIndex (inject_Z hom_peak)
                     else ret hom_peak) ;;
  if (hom_peak_index =? 0)%Z then ret 0
  else
    ps <- peaks_list ;;
    let '(sum, relabelled) :=
      fold_left (genome_step hom_peak_index) (enumerate 1 ps) (0, []) in
    modify (set_peaks (Some relabelled)) ;;
    ret sum.

(** [KmerSpectra.calcHetRate(genome_size, hom_peak)].  What a division by
    zero does depends on the number type that [elements()] returns (Python
    raises, numpy returns inf or nan), so the division is the argument
    [truediv]; the properties below assume of it only that it is the
    quotient on a non-zero divisor. *)
Section HetRate.
Context `{External}.
Variable truediv : Q -> Q -> outcome Q.

(** The loop of [calcHetRate], left at the homozygous peak. *)
Fixpoint het_loop (hom_peak_index : Z) (kk : Z) (ips : list (Z * Peak.t))
    (sum : Q) : M Q :=
  match ips with
  | [] => ret sum
  | (p_i, p) :: rest =>
      if (hom_peak_index <=? p_i)%Z then ret sum
      else
        q <- lift (truediv (Peak_elements p) (inject_Z kk)) ;;
        het_loop hom_peak_index kk rest (sum + q)
  end.

Definition calcHetRate (genome_size : Q) (hom_peak : Q) : M Q :=
  genomesize <- (if Py.Qltb 0 genome_size then ret genome_size
                 else calcGenomeSize 0) ;;
  hom_peak_index <- getHomozygousPeakIndex hom_peak ;;
  if (hom_peak_index <? 2)%Z then ret 0
  else
    ps <- peaks_list ;;
    kk <- gets k ;;
    sum <- het_loop hom_peak_index kk (enumerate 1 ps) 0 ;;
    q <- lift (truediv sum genomesize) ;;
    ret (q * 100).

End HetRate.

(** ** [class GCSpectra]

    The object is the same record; [haploid], [fmax] and [fmin] are not
    used. *)

(** [argrelextrema(a, np.greater)] of [scipy.signal] on a 1-d array, with
    its defaults (order 1, mode ['clip']): the indices [i] with
    [a[i] > a[i + 1]] and [a[i] > a[i - 1]], where an index beyond an end is
    clipped to that end.  The result [peak_means] is a tuple holding this
    one index array. *)
Definition clip (n i : Z) : Z := Z.max 0 (Z.min i (n - 1)).

Definition argrelextrema_greater (a : list Q) : list (list Z) :=
  let n := Z.of_nat (length a) in
  let take i := nth (Z.to_nat (clip n i)) a 0 in
  [filter (fun i => Py.Qltb (take (i + 1)%Z) (take i)
                    && Py.Qltb (take (i - 1)%Z) (take i))
          (Py.range 0 n)].

(** The loop over [peak_means[0]], appending to the local list [peaks]. *)
Fixpoint gc_loop (h : list Q) (kk wlen : Z) (mus : list Z)
    (peaks : list Peak.t) : M (list Peak.t) :=
  match mus with
  | [] => ret peaks
  | mu :: rest =>
      let mean := (mu - wlen + 2)%Z in
      let sigma := 2 in
      let radius := Py.int (sigma * 2) in
      if ((0 <? mean - radius) && (mean + radius <? kk))%Z
      then
        height <- index h mean ;;
        top <- lift (Py.argmax h) ;;
        gc_loop h kk wlen rest
          (peaks ++ [Peak.new (inject_Z mean) sigma height (mean =? top)%Z])
      else gc_loop h kk wlen rest peaks
  end.

Definition GCSpectra_createInitialPeaks `{External} : M unit :=
  let wlen := 3%Z in
  h <- gets histogram ;;
  smooth_histo <- lift (smooth h wlen) ;;
  let peak_means := argrelextrema_greater smooth_histo in
  if (length peak_means =? 0)%nat
  then modify (set_peaks None)
  else
    kk <- gets k ;;
    peaks <- gc_loop h kk wlen (nth 0 peak_means []) [] ;;
    modify (set_peaks (Some peaks)).

(** ** Further auxiliary definitions for the proofs *)

(** The positions that [KmerSpectra._createInitialPeaks] stores: without a
    local minimum in the scanned range both are 0; otherwise [fmin] is the
    first local minimum and [fmax] the first position of the largest value
    from [fmin] on. *)
Definition located (h : list Q) (fmin fmax : Z) : Prop :=
  (fmin = 0%Z /\ fmax = 0%Z
   /\ forall i, (1 <= i < Z.of_nat (length h) - 2)%Z ->
                ~ Spec.is_minimum h i)
  \/
  ((1 <= fmin < Z.of_nat (length h) - 2)%Z
   /\ Spec.is_minimum h fmin
   /\ (forall i, (1 <= i < fmin)%Z -> ~ Spec.is_minimum h i)
   /\ (fmin < fmax < Z.of_nat (length h))%Z
   /\ (forall j, (fmin <= j < Z.of_nat (length h))%Z ->
                 Spec.at_bin h j <= Spec.at_bin h fmax)
   /\ (forall j, (fmin <= j < fmax)%Z ->
                 Spec.at_bin h j < Spec.at_bin h fmax)).

(** The test and the peak of one round of the loop of
    [GCSpectra._createInitialPeaks], for the index [mu] of a maximum of the
    smoothed histogram and the position [top] of the histogram's largest
    value. *)
Definition gc_accepts (kk mu : Z) : bool :=
  ((0 <? mu - 3 + 2 - 4) && (mu - 3 + 2 + 4 <? kk))%Z.

Definition gc_emit (h : list Q) (top mu : Z) : Peak.t :=
  Peak.new (inject_Z (mu - 3 + 2)) 2 (Spec.at_bin h (mu - 3 + 2))
           (mu - 3 + 2 =? top)%Z.

(** The weight and the label that [calcGenomeSize] gives to the peak
    with 1-based index [i] when the homozygous peak has index [hom]. *)
Definition genome_weight (hom i : Z) : Q :=
  if (hom <? i)%Z then inject_Z (i - hom + 1)
  else if (i <? hom)%Z then 1 / inject_Z (hom - i + 1)
  else 1.

Definition genome_label (hom i : Z) : string :=
  if (hom <? i)%Z then (str (i - hom + 1) ++ "X")%string
  else if (i <? hom)%Z then
    (if (hom - i + 1 =? 2)%Z then "1/2X (Heterozygous)"
     else "1/" ++ str (hom - i + 1) ++ "X")%string
  else "1X (Homozygous)"%string.

(** The peaks as [calcGenomeSize] leaves them. *)
Definition relabel (hom : Z) (ps : list Peak.t) : list Peak.t :=
  map (fun ip => set_description (genome_label hom (fst ip)) (snd ip))
      (enumerate 1 ps).

(** The volume that [calcHetRate] sums: the volume of every peak before
    the one with 1-based index [r], each divided by [k]. *)
Definition het_volume `{External} (r kk : Z) (ps : list Peak.t) : Q :=
  Spec.total (map (fun p => Peak_elements p / inject_Z kk)
                  (firstn (Z.to_nat (r - 1)) ps)).

(** A division that is exact whenever the divisor is not zero. *)
Definition exact_division (truediv : Q -> Q -> outcome Q) : Prop :=
  forall a b : Q, ~ b == 0 -> truediv a b = Ok (a / b).

(** The genome size as a weighted sum of the peak volumes. *)
Definition genome_size `{External} (hom : Z) (ps : list Peak.t) : Q :=
  Spec.total (map (fun ip => genome_weight hom (fst ip)
                             * Peak_elements (snd ip))
                  (enumerate 1 ps)).

(** ** Further concrete inputs *)

Module Cases.

(** A solver that gives up: it reports the start vector without success. *)
Definition stalled_solver (f : list Q -> outcome (list Q))
    (x0 lower upper : list Q) : outcome OptimizeResult :=
  Ok {| res_success := false; res_x := x0; res_nfev := 100 |}.

Definition stalled : External := {|
  np_sqrt := Demo.sqrt_fix;
  createModel := Demo.bell;
  least_squares := stalled_solver;
  Peak_optimise := Demo.resample;
  Peak_elements := Demo.volume;
  np_dot := Py.dot;
  float_sum := Py.fsum
|}.

(** A division for the examples: exact on a non-zero divisor.  Python's
    [ZeroDivisionError] is not among the constructors of [exn]; a zero
    divisor, which the examples below meet only where a theorem says so,
    is reported through [ValueError] carrying Python's message. *)
Definition truediv (a b : Q) : outcome Q :=
  if Qeq_bool b 0
  then Raise (ValueError "ZeroDivisionError: float division by zero"%string)
  else Ok (a / b).

(** Three peaks with curves of volume 6, 3 and 2. *)
Definition three_peaks : list Peak.t :=
  [Demo.peak_at 10 100 [1; 2; 3]; Demo.peak_at 20 1000 [3];
   Demo.peak_at 40 50 [2]].

(** An object whose two peaks carry curves sampled on its domain. *)
Definition sampled : Spectra :=
  set_peaks
    (Some (map (Demo.resample Demo.bimodal)
               [Demo.peak_at 10 1000 []; Demo.peak_at 20 400 []]))
    (KmerSpectra_init Demo.bimodal false 27).

(** A content histogram with maxima at bins 6 and 13. *)
Definition content : list Q :=
  map inject_Z
    [0; 1; 2; 3; 4; 5; 9; 5; 4; 3; 2; 1; 7; 8; 3; 1; 0; 0; 0; 0; 0; 0; 1; 5;
     1; 0; 0; 0]%Z.

End Cases.
(** * Properties *)

(** ** Binary64 rounding *)

Section Rne.

Lemma inject_Z_succ (z : Z) : inject_Z (z + 1) == inject_Z z + 1.
Proof. rewrite inject_Z_plus. reflexivity. Qed.

Lemma inject_Z_pred (z : Z) : inject_Z (z - 1) == inject_Z z - 1.
Proof. unfold Z.sub. rewrite inject_Z_plus. reflexivity. Qed.


Lemma rne_cases (t : Q) :
  (t - inject_Z (Qfloor t) < 1 # 2 /\ B64.rne t = Qfloor t)
  \/ (1 # 2 < t - inject_Z (Qfloor t) /\ B64.rne t = (Qfloor t + 1)%Z)
  \/ (t - inject_Z (Qfloor t) == 1 # 2
      /\ B64.rne t = if Z.even (Qfloor t) then Qfloor t
                     else (Qfloor t + 1)%Z).
Proof.
  unfold B64.rne. cbn zeta.
  destruct (Qcompare_spec (t - inject_Z (Qfloor t)) (1 # 2)) as [E | E | E].
  - right. right. now split.
  - left. now split.
  - right. left. now split.
Qed.

Lemma floor_bounds (t : Q) :
  inject_Z (Qfloor t) <= t /\ t < inject_Z (Qfloor t) + 1.
Proof.
  split; [apply Qfloor_le|].
  pose proof (Qlt_floor t) as H. rewrite inject_Z_plus in H. exact H.
Qed.

Lemma rne_near (t : Q) :
  inject_Z (B64.rne t) - (1 # 2) <= t /\ t <= inject_Z (B64.rne t) + (1 # 2).
Proof.
  destruct (floor_bounds t) as [Hlo Hhi].
  destruct (rne_cases t) as [[H ->] | [[H ->] | [H ->]]].
  - split; lra.
  - rewrite inject_Z_succ. split; lra.
  - destruct (Z.even (Qfloor t)).
    + split; lra.
    + rewrite inject_Z_succ. split; lra.
Qed.

Lemma rne_between (t : Q) :
  (Qfloor t <= B64.rne t <= Qfloor t + 1)%Z.
Proof.
  destruct (rne_cases t) as [[_ ->] | [[_ ->] | [_ ->]]];
    [| |destruct (Z.even (Qfloor t))]; lia.
Qed.

Lemma rne_comp (t t' : Q) : t == t' -> B64.rne t = B64.rne t'.
Proof.
  intros E. unfold B64.rne. cbn zeta. rewrite (Qfloor_comp t t' E).
  assert (Ec : Qcompare (t - inject_Z (Qfloor t')) (1 # 2)
               = Qcompare (t' - inject_Z (Qfloor t')) (1 # 2)).
  { apply Qcompare_comp; [|reflexivity]. now rewrite E. }
  now rewrite Ec.
Qed.

Lemma rne_Z (z : Z) : B64.rne (inject_Z z) = z.
Proof.
  destruct (rne_cases (inject_Z z)) as [[_ E] | [[H _] | [H _]]];
    rewrite Qfloor_Z in *; [exact E| |]; exfalso.
  - assert (E0 : inject_Z z - inject_Z z == 0) by ring.
    rewrite E0 in H. discriminate H.
  - assert (E0 : inject_Z z - inject_Z z == 0) by ring.
    rewrite E0 in H. discriminate H.
Qed.

Lemma rne_monotone (t t' : Q) : t <= t' -> (B64.rne t <= B64.rne t')%Z.
Proof.
  intros Hle. pose proof (Qfloor_resp_le _ _ Hle) as Hf.
  destruct (Z.eq_dec (Qfloor t) (Qfloor t')) as [E | Hne].
  - destruct (rne_cases t) as [[H ->] | [[H ->] | [H ->]]];
      destruct (rne_cases t') as [[H' ->] | [[H' ->] | [H' ->]]];
      rewrite <- E in *; try lia; try (exfalso; lra);
      destruct (Z.even (Qfloor t)); try lia; exfalso; lra.
  - pose proof (rne_between t). pose proof (rne_between t'). lia.
Qed.

Lemma floor_unique (t : Q) (z : Z) :
  inject_Z z <= t -> t < inject_Z z + 1 -> Qfloor t = z.
Proof.
  intros Hlo Hhi. destruct (floor_bounds t) as [Flo Fhi].
  assert (H1 : inject_Z z < inject_Z (Qfloor t + 1))
    by (rewrite inject_Z_succ; lra).
  assert (H2 : inject_Z (Qfloor t) < inject_Z (z + 1))
    by (rewrite inject_Z_succ; lra).
  rewrite <- Zlt_Qlt in H1, H2. lia.
Qed.

Lemma rne_opp (t : Q) : B64.rne (- t) = (- B64.rne t)%Z.
Proof.
  destruct (floor_bounds t) as [Flo Fhi].
  destruct (Qeq_dec t (inject_Z (Qfloor t))) as [Eint | Hfrac].
  - rewrite (rne_comp t _ Eint).
    assert (E' : - t == inject_Z (- Qfloor t))
      by (rewrite inject_Z_opp; now rewrite <- Eint).
    rewrite (rne_comp _ _ E'), !rne_Z. reflexivity.
  - assert (Hgt : inject_Z (Qfloor t) < t).
    { apply Qle_lteq in Flo. destruct Flo as [Hlt | E]; [exact Hlt|].
      exfalso. apply Hfrac. now symmetry. }
    assert (Fopp : Qfloor (- t) = (- Qfloor t - 1)%Z).
    { apply floor_unique; rewrite inject_Z_pred, inject_Z_opp; lra. }
    assert (Fval : inject_Z (Qfloor (- t)) == - inject_Z (Qfloor t) - 1).
    { rewrite Fopp, inject_Z_pred, inject_Z_opp. reflexivity. }
    destruct (rne_cases t) as [[H ->] | [[H ->] | [H ->]]];
      destruct (rne_cases (- t)) as [[H' ->] | [[H' ->] | [H' ->]]];
      rewrite ?Fval in H'; try (exfalso; lra); rewrite Fopp; try lia.
    replace (- Qfloor t - 1)%Z with (- (Qfloor t + 1))%Z by lia.
    rewrite Z.even_opp, Z.even_add.
    destruct (Z.even (Qfloor t)); cbn; lia.
Qed.

End Rne.

Section Exponent.

Lemma pow2_pos (e : Z) : 0 < B64.pow2 e.
Proof. apply Qpower_0_lt. reflexivity. Qed.

Lemma pow2_add (a b : Z) : B64.pow2 (a + b) == B64.pow2 a * B64.pow2 b.
Proof. apply Qpower_plus. discriminate. Qed.

Lemma pow2_succ (a : Z) : B64.pow2 (a + 1) == 2 * B64.pow2 a.
Proof. rewrite pow2_add. change (B64.pow2 1) with 2. ring. Qed.

Lemma pow2_lt (a b : Z) : (a < b)%Z -> B64.pow2 a < B64.pow2 b.
Proof. intros H. apply Qpower_lt_compat_l; [exact H | reflexivity]. Qed.

Lemma pow2_le (a b : Z) : (a <= b)%Z -> B64.pow2 a <= B64.pow2 b.
Proof. intros H. apply Qpower_le_compat_l; [exact H | discriminate]. Qed.

Lemma pow2_lt_inv (a b : Z) : B64.pow2 a < B64.pow2 b -> (a < b)%Z.
Proof. intros H. apply (Qpower_lt_compat_l_inv 2); [exact H | reflexivity]. Qed.

Lemma pow2_Z (n : Z) : (0 <= n)%Z -> B64.pow2 n == inject_Z (2 ^ n).
Proof. intros H. unfold B64.pow2. now rewrite Zpower_Qpower. Qed.

Lemma log2_bounds (n : Z) :
  (0 < n)%Z ->
  B64.pow2 (Z.log2 n) <= inject_Z n /\ inject_Z n < B64.pow2 (Z.log2 n + 1).
Proof.
  intros Hn. destruct (Z.log2_spec n Hn) as [Hlo Hhi].
  pose proof (Z.log2_nonneg n) as Hnn.
  rewrite !pow2_Z by lia. rewrite <- Zle_Qle, <- Zlt_Qlt.
  split; [exact Hlo|]. now rewrite <- Z.add_1_r in Hhi.
Qed.

Lemma ilog2_spec (q : Q) :
  0 < q -> B64.pow2 (B64.ilog2 q) <= q /\ q < B64.pow2 (B64.ilog2 q + 1).
Proof.
  intros Hq. destruct q as [n d].
  assert (Hn : (0 < n)%Z).
  { unfold Qlt in Hq. cbn in Hq. lia. }
  destruct (log2_bounds n Hn) as [Nlo Nhi].
  destruct (log2_bounds (Zpos d) eq_refl) as [Dlo Dhi].
  unfold B64.ilog2. cbn [Qnum Qden].
  set (N := Z.log2 n) in *. set (D := Z.log2 (Zpos d)) in *.
  assert (Eq : (n # d) * inject_Z (Zpos d) == inject_Z n).
  { rewrite (Qmake_Qdiv n d). field. intros E. discriminate E. }
  remember (n # d) as q eqn:Eqq. clear Eqq.
  remember (inject_Z n) as A eqn:EA. clear EA.
  remember (inject_Z (Zpos d)) as B eqn:EB. clear EB.
  pose proof (pow2_pos D) as PD.
  pose proof (pow2_pos (N - D)) as PX.
  assert (E1 : B64.pow2 (N + 1) == 2 * B64.pow2 (N - D) * B64.pow2 D).
  { rewrite pow2_succ, <- Qmult_assoc, <- pow2_add.
    now replace (N - D + D)%Z with N by lia. }
  assert (E2 : B64.pow2 N == B64.pow2 (N - D) * B64.pow2 D).
  { rewrite <- pow2_add. now replace (N - D + D)%Z with N by lia. }
  assert (E3 : B64.pow2 (D + 1) == 2 * B64.pow2 D) by apply pow2_succ.
  assert (E4 : B64.pow2 (N - D - 1 + 1) == B64.pow2 (N - D))
    by (now replace (N - D - 1 + 1)%Z with (N - D)%Z by lia).
  assert (E5 : B64.pow2 (N - D) == 2 * B64.pow2 (N - D - 1)).
  { rewrite <- E4. apply pow2_succ. }
  assert (E6 : B64.pow2 (N - D + 1) == 2 * B64.pow2 (N - D))
    by apply pow2_succ.
  remember (B64.pow2 (N - D)) as X eqn:EX.
  remember (B64.pow2 D) as Y eqn:EY.
  rewrite E1 in Nhi. rewrite E2 in Nlo. rewrite E3 in Dhi.
  assert (Hup : q < 2 * X) by nra.
  assert (Hdown : X < 2 * q) by nra.
  destruct (Qle_bool X q) eqn:Ec.
  - apply Qle_bool_iff in Ec. rewrite E6. split; [|exact Hup].
    now rewrite <- EX.
  - assert (Hlt : q < X).
    { apply Qnot_le_lt. intros Hle. apply Qle_bool_iff in Hle. congruence. }
    rewrite E4. split; [|exact Hlt].
    remember (B64.pow2 (N - D - 1)) as Z0. lra.
Qed.

Lemma ilog2_unique (q : Q) (e : Z) :
  B64.pow2 e <= q -> q < B64.pow2 (e + 1) -> B64.ilog2 q = e.
Proof.
  intros Hlo Hhi.
  assert (Hq : 0 < q) by (pose proof (pow2_pos e); lra).
  destruct (ilog2_spec q Hq) as [Slo Shi].
  assert (H1 : (e < B64.ilog2 q + 1)%Z) by (apply pow2_lt_inv; lra).
  assert (H2 : (B64.ilog2 q < e + 1)%Z) by (apply pow2_lt_inv; lra).
  lia.
Qed.

Lemma ilog2_comp (q q' : Q) :
  0 < q -> q == q' -> B64.ilog2 q = B64.ilog2 q'.
Proof.
  intros Hq E. destruct (ilog2_spec q Hq) as [Slo Shi].
  symmetry. apply ilog2_unique; now rewrite <- E.
Qed.

Lemma ilog2_monotone (q q' : Q) :
  0 < q -> q <= q' -> (B64.ilog2 q <= B64.ilog2 q')%Z.
Proof.
  intros Hq Hle. destruct (ilog2_spec q Hq) as [Slo _].
  destruct (ilog2_spec q' ltac:(lra)) as [_ Shi].
  assert (H : (B64.ilog2 q < B64.ilog2 q' + 1)%Z)
    by (apply pow2_lt_inv; lra).
  lia.
Qed.

End Exponent.

Section Round.

Lemma ulp_pos (q : Q) : 0 < B64.ulp q.
Proof. apply pow2_pos. Qed.

Lemma ulp_comp (q q' : Q) : ~ q == 0 -> q == q' -> B64.ulp q = B64.ulp q'.
Proof.
  intros Hq E. unfold B64.ulp. f_equal. f_equal. f_equal.
  apply ilog2_comp; [|now rewrite E].
  pose proof (Qabs_nonneg q) as Hn. apply Qle_lteq in Hn.
  destruct Hn as [Hlt | E0]; [exact Hlt|].
  exfalso. apply Hq. symmetry in E0.
  destruct (Qlt_le_dec q 0) as [Hneg | Hpos].
  - rewrite Qabs_neg in E0 by lra. lra.
  - rewrite Qabs_pos in E0 by lra. exact E0.
Qed.

Lemma round_comp (q q' : Q) : q == q' -> B64.round q = B64.round q'.
Proof.
  intros E. unfold B64.round.
  destruct (Qeq_bool q 0) eqn:E0.
  - apply Qeq_bool_iff in E0.
    assert (E0' : Qeq_bool q' 0 = true)
      by (apply Qeq_bool_iff; now rewrite <- E).
    now rewrite E0'.
  - assert (Hq : ~ q == 0) by (now apply Qeq_bool_neq).
    assert (E0' : Qeq_bool q' 0 = false).
    { apply not_true_is_false. intros H. apply Qeq_bool_iff in H.
      apply Hq. now rewrite E. }
    rewrite E0', <- (ulp_comp q q' Hq E).
    apply Qred_complete.
    rewrite (rne_comp (q / B64.ulp q) (q' / B64.ulp q));
      [reflexivity | unfold Qdiv; apply Qmult_comp; [exact E | reflexivity]].
Qed.

Lemma round_0 : B64.round 0 = 0.
Proof. reflexivity. Qed.

Lemma round_eq (q : Q) :
  ~ q == 0 -> B64.round q == inject_Z (B64.rne (q / B64.ulp q)) * B64.ulp q.
Proof.
  intros Hq. unfold B64.round.
  destruct (Qeq_bool q 0) eqn:E0;
    [apply Qeq_bool_iff in E0; contradiction | apply Qred_correct].
Qed.

Lemma ulp_opp (q : Q) : B64.ulp (- q) = B64.ulp q.
Proof.
  destruct (Qeq_dec q 0) as [E | Hq].
  - assert (E1 : - q == q) by (rewrite E; reflexivity).
    destruct q as [[|n|n] d]; try discriminate E. reflexivity.
  - unfold B64.ulp. f_equal. f_equal. f_equal.
    apply ilog2_comp; [|apply Qabs_opp].
    assert (Hq' : ~ - q == 0) by (intros E; apply Hq; lra).
    pose proof (Qabs_nonneg (- q)) as Hn. apply Qle_lteq in Hn.
    destruct Hn as [Hlt | E0]; [exact Hlt|].
    exfalso. apply Hq'. symmetry in E0.
    destruct (Qlt_le_dec (- q) 0) as [Hneg | Hpos].
    + rewrite Qabs_neg in E0 by lra. lra.
    + rewrite Qabs_pos in E0 by lra. exact E0.
Qed.

Lemma round_opp (q : Q) : B64.round (- q) == - B64.round q.
Proof.
  destruct (Qeq_dec q 0) as [E | Hq].
  - rewrite (round_comp q 0 E).
    assert (E' : - q == 0) by (rewrite E; reflexivity).
    rewrite (round_comp (- q) 0 E'). reflexivity.
  - assert (Hq' : ~ - q == 0) by (intros E; apply Hq; lra).
    rewrite (round_eq q Hq), (round_eq (- q) Hq'), ulp_opp.
    assert (E : - q / B64.ulp q == - (q / B64.ulp q)).
    { field. pose proof (ulp_pos q). lra. }
    rewrite (rne_comp _ _ E), rne_opp, inject_Z_opp. ring.
Qed.

Lemma scaled (q : Q) :
  0 < q ->
  q / B64.ulp q < B64.pow2 53
  /\ ((-1074 < B64.ilog2 q - 52)%Z -> B64.pow2 52 <= q / B64.ulp q).
Proof.
  intros Hq. destruct (ilog2_spec q Hq) as [Slo Shi].
  pose proof (ulp_pos q) as Hu.
  assert (Eabs : B64.ulp q
                 = B64.pow2 (Z.max (B64.ilog2 q - 52) (-1074))).
  { unfold B64.ulp. do 3 f_equal. symmetry.
    apply ilog2_comp; [exact Hq|]. symmetry. apply Qabs_pos. lra. }
  rewrite Eabs in *. set (e := B64.ilog2 q) in *.
  split.
  - apply Qlt_shift_div_r; [exact Hu|].
    assert (Hle : B64.pow2 (e + 1)
                  <= B64.pow2 53 * B64.pow2 (Z.max (e - 52) (-1074))).
    { rewrite <- pow2_add. apply pow2_le. lia. }
    lra.
  - intros Hnormal. apply Qle_shift_div_l; [exact Hu|].
    replace (Z.max (e - 52) (-1074)) with (e - 52)%Z by lia.
    rewrite <- pow2_add. now replace (52 + (e - 52))%Z with e by lia.
Qed.

Lemma rne_pow2 (n : Z) : (0 <= n)%Z -> B64.rne (B64.pow2 n) = (2 ^ n)%Z.
Proof. intros H. rewrite (rne_comp _ _ (pow2_Z n H)). apply rne_Z. Qed.

Lemma round_pos_bounds (q : Q) :
  0 < q ->
  0 <= B64.round q
  /\ B64.round q <= B64.pow2 53 * B64.ulp q
  /\ ((-1074 < B64.ilog2 q - 52)%Z -> B64.pow2 52 * B64.ulp q <= B64.round q).
Proof.
  intros Hq. destruct (scaled q Hq) as [Hhi Hlo].
  pose proof (ulp_pos q) as Hu.
  assert (Hne : ~ q == 0) by lra.
  rewrite (round_eq q Hne).
  assert (H0 : 0 <= q / B64.ulp q).
  { apply Qle_shift_div_l; [exact Hu | lra]. }
  assert (M0 : (0 <= B64.rne (q / B64.ulp q))%Z).
  { rewrite <- (rne_Z 0). now apply rne_monotone. }
  assert (M1 : (B64.rne (q / B64.ulp q) <= 2 ^ 53)%Z).
  { rewrite <- (rne_pow2 53) by lia. apply rne_monotone. lra. }
  rewrite Zle_Qle in M0, M1. rewrite <- (pow2_Z 53) in M1 by lia.
  change (inject_Z 0) with 0 in M0.
  split; [|split].
  - apply Qmult_le_0_compat; lra.
  - apply Qmult_le_compat_r; lra.
  - intros Hn. specialize (Hlo Hn).
    assert (M2 : (2 ^ 52 <= B64.rne (q / B64.ulp q))%Z).
    { rewrite <- (rne_pow2 52) by lia. now apply rne_monotone. }
    rewrite Zle_Qle, <- (pow2_Z 52) in M2 by lia.
    apply Qmult_le_compat_r; lra.
Qed.

Lemma round_nonneg (q : Q) : 0 <= q -> 0 <= B64.round q.
Proof.
  intros Hq. apply Qle_lteq in Hq. destruct Hq as [Hlt | E].
  - now apply round_pos_bounds.
  - rewrite <- (round_comp 0 q E). discriminate.
Qed.

Lemma round_nonpos (q : Q) : q <= 0 -> B64.round q <= 0.
Proof.
  intros Hq. pose proof (round_nonneg (- q) ltac:(lra)) as H.
  rewrite round_opp in H. lra.
Qed.

Lemma ulp_of_pos (q : Q) :
  0 < q -> B64.ulp q = B64.pow2 (Z.max (B64.ilog2 q - 52) (-1074)).
Proof.
  intros Hq. unfold B64.ulp. do 3 f_equal. symmetry.
  apply ilog2_comp; [exact Hq|]. symmetry. apply Qabs_pos. lra.
Qed.

Lemma round_monotone_pos (q q' : Q) :
  0 < q -> q <= q' -> B64.round q <= B64.round q'.
Proof.
  intros Hq Hle. assert (Hq' : 0 < q') by lra.
  pose proof (ilog2_monotone q q' Hq Hle) as He.
  destruct (round_pos_bounds q Hq) as (_ & Hup & _).
  destruct (round_pos_bounds q' Hq') as (_ & _ & Hdown).
  pose proof (ulp_of_pos q Hq) as Eu. pose proof (ulp_of_pos q' Hq') as Eu'.
  destruct (Z.eq_dec (Z.max (B64.ilog2 q - 52) (-1074))
                     (Z.max (B64.ilog2 q' - 52) (-1074))) as [E | Hne].
  - assert (Euu : B64.ulp q' = B64.ulp q) by congruence.
    rewrite (round_eq q), (round_eq q') by lra. rewrite Euu.
    pose proof (ulp_pos q) as Hu.
    apply Qmult_le_compat_r; [|lra].
    rewrite <- Zle_Qle. apply rne_monotone.
    apply Qmult_le_compat_r; [exact Hle|].
    apply Qlt_le_weak, Qinv_lt_0_compat, Hu.
  - assert (Hn : (-1074 < B64.ilog2 q' - 52)%Z) by lia.
    specialize (Hdown Hn).
    assert (Hstep : B64.pow2 53 * B64.ulp q <= B64.pow2 52 * B64.ulp q').
    { rewrite Eu, Eu', <- !pow2_add. apply pow2_le. lia. }
    lra.
Qed.

Lemma round_monotone (q q' : Q) : q <= q' -> B64.round q <= B64.round q'.
Proof.
  intros Hle.
  destruct (Qlt_le_dec 0 q) as [Hq | Hq].
  - now apply round_monotone_pos.
  - destruct (Qlt_le_dec q' 0) as [Hq' | Hq'].
    + pose proof (round_monotone_pos (- q') (- q) ltac:(lra) ltac:(lra)) as H.
      rewrite !round_opp in H. lra.
    + pose proof (round_nonpos q Hq). pose proof (round_nonneg q' Hq'). lra.
Qed.

End Round.

Section Exactness.

Lemma round_representable (q : Q) : representable (B64.round q).
Proof.
  destruct (Qeq_dec q 0) as [E | Hq].
  - rewrite (round_comp q 0 E). exists 0%Z, 0%Z. repeat split; try lia.
  - assert (Hm : forall p, 0 < p ->
               (Z.abs (B64.rne (p / B64.ulp p)) <= 2 ^ 53)%Z).
    { intros p Hp. destruct (scaled p Hp) as [Hhi _].
      pose proof (ulp_pos p) as Hu.
      assert (H0 : 0 <= p / B64.ulp p)
        by (apply Qle_shift_div_l; [exact Hu | lra]).
      assert (M0 : (0 <= B64.rne (p / B64.ulp p))%Z)
        by (rewrite <- (rne_Z 0); now apply rne_monotone).
      assert (M1 : (B64.rne (p / B64.ulp p) <= 2 ^ 53)%Z)
        by (rewrite <- (rne_pow2 53) by lia; apply rne_monotone; lra).
      lia. }
    exists (B64.rne (q / B64.ulp q)),
           (Z.max (B64.ilog2 (Qabs q) - 52) (-1074)).
    split; [|split; [lia | apply (round_eq q Hq)]].
    destruct (Qlt_le_dec 0 q) as [Hpos | Hneg].
    + now apply Hm.
    + specialize (Hm (- q) ltac:(lra)). rewrite ulp_opp in Hm.
      assert (E : - q / B64.ulp q == - (q / B64.ulp q)).
      { field. pose proof (ulp_pos q). lra. }
      rewrite (rne_comp _ _ E), rne_opp in Hm. lia.
Qed.

Lemma round_exact_pos (q : Q) (m E : Z) :
  0 < q -> (m <= 2 ^ 53)%Z -> (-1074 <= E)%Z ->
  q == inject_Z m * B64.pow2 E -> B64.round q == q.
Proof.
  intros Hq Hm HE Eq.
  rewrite (round_eq q) by lra. rewrite (ulp_of_pos q Hq).
  destruct (ilog2_spec q Hq) as [Slo _].
  set (e := B64.ilog2 q) in *.
  pose proof (pow2_pos E) as PE.
  assert (Hmq : inject_Z m <= B64.pow2 53).
  { rewrite pow2_Z by lia. now rewrite <- Zle_Qle. }
  assert (He : (e < E + 54)%Z).
  { apply pow2_lt_inv.
    assert (Hlt : q < B64.pow2 (E + 54)).
    { rewrite Eq.
      replace (E + 54)%Z with (54 + E)%Z by lia.
      rewrite pow2_add.
      apply Qmult_lt_compat_r; [exact PE|].
      pose proof (pow2_lt 53 54 ltac:(lia)). lra. }
    lra. }
  destruct (Z.eq_dec e (E + 53)) as [Etop | Hlow].
  - (* q = 2^53 * 2^E *)
    assert (Em : q == B64.pow2 e).
    { apply Qle_antisym; [|exact Slo].
      rewrite Eq, Etop.
      replace (E + 53)%Z with (53 + E)%Z by lia. rewrite pow2_add.
      apply Qmult_le_compat_r; lra. }
    replace (Z.max (e - 52) (-1074)) with (e - 52)%Z by lia.
    assert (Es : q / B64.pow2 (e - 52) == B64.pow2 52).
    { rewrite Em. apply Qmult_inj_r with (z := B64.pow2 (e - 52)).
      - pose proof (pow2_pos (e - 52)). lra.
      - rewrite <- pow2_add. replace (52 + (e - 52))%Z with e by lia.
        field. pose proof (pow2_pos (e - 52)). lra. }
    rewrite (rne_comp _ _ Es), rne_pow2 by lia.
    rewrite <- pow2_Z by lia. rewrite <- pow2_add, Em.
    now replace (52 + (e - 52))%Z with e by lia.
  - set (U := Z.max (e - 52) (-1074)).
    assert (HU : (U <= E)%Z) by (unfold U; lia).
    assert (Es : q / B64.pow2 U == inject_Z (m * 2 ^ (E - U))).
    { rewrite inject_Z_mult, <- pow2_Z by lia. rewrite Eq.
      apply Qmult_inj_r with (z := B64.pow2 U).
      - pose proof (pow2_pos U). lra.
      - rewrite <- Qmult_assoc, <- pow2_add.
        replace (E - U + U)%Z with E by lia.
        field. pose proof (pow2_pos U). lra. }
    rewrite (rne_comp _ _ Es), rne_Z.
    rewrite inject_Z_mult, <- pow2_Z by lia.
    rewrite <- Qmult_assoc, <- pow2_add.
    replace (E - U + U)%Z with E by lia. now rewrite Eq.
Qed.

Lemma round_exact (q : Q) : representable q -> B64.round q == q.
Proof.
  intros (m & E & Hm & HE & Eq).
  destruct (Qlt_le_dec 0 q) as [Hpos | Hle].
  - apply (round_exact_pos q m E); try assumption. lia.
  - apply Qle_lteq in Hle. destruct Hle as [Hneg | E0].
    + assert (H : B64.round (- q) == - q).
      { apply (round_exact_pos (- q) (- m) E); try lia; [lra|].
        rewrite inject_Z_opp, Eq. ring. }
      rewrite round_opp in H. lra.
    + rewrite (round_comp q 0 E0). now rewrite E0.
Qed.

Lemma round_canonical (q : Q) : Qred (B64.round q) = B64.round q.
Proof.
  unfold B64.round. destruct (Qeq_bool q 0); [reflexivity|].
  apply Qred_complete, Qred_correct.
Qed.

Lemma round_idempotent (q : Q) : B64.round (B64.round q) = B64.round q.
Proof.
  transitivity (Qred (B64.round (B64.round q)));
    [symmetry; apply round_canonical|].
  transitivity (Qred (B64.round q)); [|apply round_canonical].
  apply Qred_complete, round_exact, round_representable.
Qed.

Lemma representable_Z (z : Z) :
  (Z.abs z <= 2 ^ 53)%Z -> representable (inject_Z z).
Proof.
  intros Hz. exists z, 0%Z. repeat split; try lia.
  change (B64.pow2 0) with 1. ring.
Qed.

Lemma round_error (q : Q) :
  Qabs (B64.round q - q) <= B64.ulp q * (1 # 2).
Proof.
  destruct (Qeq_dec q 0) as [E | Hq].
  - rewrite (round_comp q 0 E). pose proof (ulp_pos q).
    assert (H0 : Qabs (B64.round 0 - q) == 0) by (rewrite E; reflexivity).
    rewrite H0. lra.
  - rewrite (round_eq q Hq). pose proof (ulp_pos q) as Hu.
    destruct (rne_near (q / B64.ulp q)) as [Hlo Hhi].
    set (m := inject_Z (B64.rne (q / B64.ulp q))) in *.
    assert (Eq : q == q / B64.ulp q * B64.ulp q) by (field; lra).
    remember (q / B64.ulp q) as t eqn:Et. clear Et.
    remember (B64.ulp q) as u eqn:Eu. clear Eu.
    apply Qabs_Qle_condition. split; nra.
Qed.

End Exactness.

(** ** Arithmetic and list facts used throughout *)

Lemma Qltb_iff (a b : Q) : Py.Qltb a b = true <-> a < b.
Proof.
  unfold Py.Qltb. rewrite negb_true_iff, <- not_true_iff_false, Qle_bool_iff.
  split; [apply Qnot_le_lt | apply Qlt_not_le].
Qed.

Lemma Qltb_false_iff (a b : Q) : Py.Qltb a b = false <-> b <= a.
Proof.
  unfold Py.Qltb. rewrite negb_false_iff. apply Qle_bool_iff.
Qed.

Lemma inject_Z_S (n : nat) :
  inject_Z (Z.of_nat (S n)) == inject_Z (Z.of_nat n) + 1.
Proof. rewrite Nat2Z.inj_succ. unfold Z.succ. now rewrite inject_Z_plus. Qed.

Lemma fold_left_Qplus_const (c : Q) (l : list Q) (acc : Q) :
  Forall (Qeq c) l ->
  fold_left Qplus l acc == acc + inject_Z (Z.of_nat (length l)) * c.
Proof.
  intros Hl. revert acc.
  induction Hl as [|v l Hv Hl IH]; intros acc.
  - cbn. ring.
  - cbn [fold_left length]. rewrite IH, inject_Z_S, <- Hv. ring.
Qed.

Lemma zip_with_length (f : Q -> Q -> Q) (a b : list Q) :
  length (Py.zip_with f a b) = Nat.min (length a) (length b).
Proof.
  revert b. induction a as [|v a IH]; intros [|w b]; cbn; auto.
Qed.

(** ** Accuracy of rounded sums and dot products *)

Section Accuracy.

Lemma round_pow2 (e : Z) :
  (-1074 <= e)%Z -> B64.round (B64.pow2 e) == B64.pow2 e.
Proof.
  intros He. apply round_exact. exists 1%Z, e. repeat split; try lia.
  ring.
Qed.

(** In the normal range rounding changes a value by at most [2^-53] of
    it. *)
Lemma round_relative (q : Q) :
  B64.pow2 (-1022) <= q ->
  q * (1 - B64.eps) <= B64.round q /\ B64.round q <= q * (1 + B64.eps).
Proof.
  intros Hq. pose proof (pow2_pos (-1022)) as Hp.
  assert (Hpos : 0 < q) by lra.
  pose proof (round_error q) as Herr.
  rewrite (ulp_of_pos q Hpos) in Herr.
  destruct (ilog2_spec q Hpos) as [Slo _].
  assert (He : (-1022 <= B64.ilog2 q)%Z).
  { destruct (ilog2_spec q Hpos) as [_ Shi].
    assert (H : (-1022 < B64.ilog2 q + 1)%Z) by (apply pow2_lt_inv; lra).
    lia. }
  replace (Z.max (B64.ilog2 q - 52) (-1074)) with (B64.ilog2 q - 52)%Z
    in Herr by lia.
  assert (Eu : B64.pow2 (B64.ilog2 q - 52) * (1 # 2)
               == B64.pow2 (B64.ilog2 q) * B64.eps).
  { replace (B64.ilog2 q - 52)%Z with (B64.ilog2 q + -52)%Z by lia.
    rewrite pow2_add.
    assert (E52 : B64.pow2 (-52) * (1 # 2) == B64.eps) by reflexivity.
    rewrite <- E52. ring. }
  rewrite Eu in Herr. apply Qabs_Qle_condition in Herr.
  assert (Heps : 0 < B64.eps) by reflexivity.
  set (r := B64.round q) in *. set (P := B64.pow2 (B64.ilog2 q)) in *.
  split; nra.
Qed.

Lemma round_keeps_normal (q : Q) :
  B64.pow2 (-1022) <= q -> B64.pow2 (-1022) <= B64.round q.
Proof.
  intros Hq. rewrite <- (round_pow2 (-1022)) by lia.
  now apply round_monotone.
Qed.

Lemma round_relative0 (q : Q) :
  Spec.normal q ->
  Spec.normal (B64.round q)
  /\ q * (1 - B64.eps) <= B64.round q /\ B64.round q <= q * (1 + B64.eps).
Proof.
  intros [E | Hq].
  - rewrite (round_comp q 0 E). split; [left; reflexivity|].
    change (B64.round 0) with 0. rewrite E. split; lra.
  - split; [right; now apply round_keeps_normal | now apply round_relative].
Qed.

Lemma eps_bounds : 0 < B64.eps /\ B64.eps < 1.
Proof. split; reflexivity. Qed.

Lemma slack_up_S (k : nat) :
  Spec.slack_up (S k) == Spec.slack_up k * (1 + B64.eps).
Proof.
  unfold Spec.slack_up. rewrite Nat2Z.inj_succ, <- Z.add_1_r.
  rewrite Qpower_plus by (intros E; discriminate E).
  reflexivity.
Qed.

Lemma slack_down_S (k : nat) :
  Spec.slack_down (S k) == Spec.slack_down k * (1 - B64.eps).
Proof.
  unfold Spec.slack_down. rewrite Nat2Z.inj_succ, <- Z.add_1_r.
  rewrite Qpower_plus by (intros E; discriminate E).
  reflexivity.
Qed.

Lemma slack_up_ge (k : nat) : 1 <= Spec.slack_up k.
Proof.
  induction k as [|k IH]; [discriminate|].
  rewrite slack_up_S. destruct eps_bounds. nra.
Qed.

Lemma slack_down_range (k : nat) :
  0 < Spec.slack_down k /\ Spec.slack_down k <= 1.
Proof.
  induction k as [|k IH]; [split; [reflexivity | discriminate]|].
  rewrite slack_down_S. destruct eps_bounds. destruct IH. split; nra.
Qed.

Lemma normal_nonneg (v : Q) : Spec.normal v -> 0 <= v.
Proof. intros [E | H]; [lra | pose proof (pow2_pos (-1022)); lra]. Qed.

Lemma normal_add (a v : Q) :
  Spec.normal a -> Spec.normal v -> Spec.normal (a + v).
Proof.
  intros Ha Hv. pose proof (normal_nonneg a Ha).
  pose proof (normal_nonneg v Hv).
  destruct Ha as [Ea | Ha]; destruct Hv as [Ev | Hv].
  - left. lra.
  - right. lra.
  - right. lra.
  - right. lra.
Qed.

(** The sum of non-negative doubles added in order: each addition loses
    at most a factor [1 - 2^-53] and gains at most [1 + 2^-53]. *)
Lemma fsum_from (l : list Q) :
  Forall Spec.normal l ->
  forall (acc T : Q) (k : nat),
    Spec.normal acc -> 0 <= T ->
    T * Spec.slack_down k <= acc -> acc <= T * Spec.slack_up k ->
    Spec.normal (fold_left B64.add l acc)
    /\ (T + Spec.total l) * Spec.slack_down (length l + k)
       <= fold_left B64.add l acc
    /\ fold_left B64.add l acc
       <= (T + Spec.total l) * Spec.slack_up (length l + k).
Proof.
  induction 1 as [|v l Hv Hl IH]; intros acc T k Hacc HT Hlo Hhi.
  - cbn [fold_left Spec.total length Nat.add]. split; [exact Hacc|].
    split; lra.
  - cbn [fold_left Spec.total length].
    pose proof (normal_nonneg v Hv) as Hv0.
    destruct (round_relative0 (acc + v) (normal_add _ _ Hacc Hv))
      as (Hn & Rlo & Rhi).
    fold (B64.add acc v) in Hn, Rlo, Rhi.
    destruct (slack_down_range k) as [Dpos Dle].
    pose proof (slack_up_ge k) as Uge.
    destruct eps_bounds as [E0 E1].
    destruct (IH (B64.add acc v) (T + v) (S k) Hn ltac:(lra))
      as (Fn & Flo & Fhi).
    + rewrite slack_down_S.
      set (d := Spec.slack_down k) in *. set (a := B64.add acc v) in *.
      assert (H1 : v * d <= v) by nra.
      assert (H2 : (T * d + v * d) * (1 - B64.eps)
                   <= (acc + v) * (1 - B64.eps))
        by (apply Qmult_le_compat_r; lra).
      lra.
    + rewrite slack_up_S.
      set (u := Spec.slack_up k) in *. set (a := B64.add acc v) in *.
      assert (H1 : v <= v * u) by nra.
      assert (H2 : (acc + v) * (1 + B64.eps)
                   <= (T * u + v * u) * (1 + B64.eps))
        by (apply Qmult_le_compat_r; lra).
      lra.
    + split; [exact Fn|].
      replace (S (length l) + k)%nat with (length l + S k)%nat by lia.
      assert (ET : T + (v + Spec.total l) == T + v + Spec.total l) by ring.
      rewrite ET. split; assumption.
Qed.

Lemma fsum_accurate (l : list Q) :
  Forall Spec.normal l ->
  Spec.total l * Spec.slack_down (length l) <= Py.fsum l
  /\ Py.fsum l <= Spec.total l * Spec.slack_up (length l).
Proof.
  intros Hl.
  destruct (fsum_from l Hl 0 0 0%nat) as (_ & Hlo & Hhi);
    try lra; [left; reflexivity|].
  rewrite Nat.add_0_r in Hlo, Hhi. unfold Py.fsum.
  assert (E : 0 + Spec.total l == Spec.total l) by ring.
  rewrite E in Hlo, Hhi. split; assumption.
Qed.

Lemma sizable_normal (v : Q) : Spec.sizable v -> Spec.normal v.
Proof.
  intros [E | H]; [now left | right].
  pose proof (pow2_le (-1022) (-500) ltac:(lia)). lra.
Qed.

Lemma sizable_nonneg (v : Q) : Spec.sizable v -> 0 <= v.
Proof. intros H. now apply normal_nonneg, sizable_normal. Qed.

Lemma sizable_mult (a b : Q) :
  Spec.sizable a -> Spec.sizable b -> Spec.normal (a * b).
Proof.
  intros [Ea | Ha] [Eb | Hb].
  - left. rewrite Ea. ring.
  - left. rewrite Ea. ring.
  - left. rewrite Eb. ring.
  - right. pose proof (pow2_pos (-500)) as Hp.
    assert (E : B64.pow2 (-1000) == B64.pow2 (-500) * B64.pow2 (-500))
      by (rewrite <- pow2_add; reflexivity).
    pose proof (pow2_le (-1022) (-1000) ltac:(lia)).
    set (P := B64.pow2 (-500)) in *. nra.
Qed.

Lemma products_accurate (a b : list Q) :
  length a = length b -> Forall Spec.sizable a -> Forall Spec.sizable b ->
  Forall Spec.normal (Py.zip_with B64.mul a b)
  /\ Spec.exact_dot a b * (1 - B64.eps)
     <= Spec.total (Py.zip_with B64.mul a b)
  /\ Spec.total (Py.zip_with B64.mul a b)
     <= Spec.exact_dot a b * (1 + B64.eps).
Proof.
  intros Hlen Ha. revert b Hlen.
  induction Ha as [|x a Hx Ha IH]; intros [|y b] Hlen Hb; try discriminate.
  - cbn. split; [constructor|]. split; lra.
  - inversion Hb as [|? ? Hy Hb']; subst.
    destruct (IH b ltac:(now injection Hlen) Hb') as (Hn & Hlo & Hhi).
    destruct (round_relative0 (x * y) (sizable_mult x y Hx Hy))
      as (Pn & Plo & Phi).
    unfold Spec.exact_dot in *. cbn [Py.zip_with Spec.total].
    fold (B64.mul x y) in Pn, Plo, Phi.
    split; [constructor; assumption|]. split; lra.
Qed.

Lemma exact_dot_nonneg (a b : list Q) :
  Forall Spec.sizable a -> Forall Spec.sizable b -> 0 <= Spec.exact_dot a b.
Proof.
  intros Ha. revert b. induction Ha as [|x a Hx Ha IH]; intros [|y b] Hb;
    try (cbn; lra).
  inversion Hb as [|? ? Hy Hb']; subst. unfold Spec.exact_dot in *.
  cbn [Py.zip_with Spec.total]. specialize (IH b Hb').
  pose proof (sizable_nonneg x Hx). pose proof (sizable_nonneg y Hy). nra.
Qed.

(** The dot product that rounds every product and adds in order. *)
Lemma dot_accurate (a b : list Q) :
  length a = length b -> Forall Spec.sizable a -> Forall Spec.sizable b ->
  Spec.exact_dot a b * Spec.slack_down (S (length a)) <= Py.dot a b
  /\ Py.dot a b <= Spec.exact_dot a b * Spec.slack_up (S (length a)).
Proof.
  intros Hlen Ha Hb.
  destruct (products_accurate a b Hlen Ha Hb) as (Hn & Plo & Phi).
  destruct (fsum_accurate _ Hn) as [Slo Shi].
  rewrite zip_with_length, <- Hlen, Nat.min_id in Slo, Shi.
  pose proof (exact_dot_nonneg a b Ha Hb) as He.
  rewrite slack_down_S, slack_up_S.
  destruct (slack_down_range (length a)) as [Dpos Dle].
  pose proof (slack_up_ge (length a)) as Uge.
  destruct eps_bounds as [E0 E1]. unfold Py.dot.
  set (d := Spec.slack_down (length a)) in *.
  set (u := Spec.slack_up (length a)) in *.
  set (t := Spec.total (Py.zip_with B64.mul a b)) in *.
  set (e := Spec.exact_dot a b) in *. set (f := Py.fsum _) in *.
  split; nra.
Qed.

End Accuracy.

Lemma demo_accurate_dot : Spec.accurate_dot (H := Demo.external).
Proof. intros a b Hlen Ha Hb. now apply dot_accurate. Qed.

Lemma demo_accurate_sum : Spec.accurate_sum (H := Demo.external).
Proof. intros l _ Hl. now apply fsum_accurate. Qed.

(** ** [smooth] *)

Lemma slice_rev_length (l : list Q) (a b : Z) :
  length (Py.slice_rev l a b)
  = Z.to_nat (Py.adjust_rev (Z.of_nat (length l)) a
              - Py.adjust_rev (Z.of_nat (length l)) b).
Proof. unfold Py.slice_rev. now rewrite length_map, length_seq. Qed.

Lemma adjust_rev_range (n i : Z) :
  (0 <= n -> -1 <= Py.adjust_rev n i < n)%Z.
Proof.
  unfold Py.adjust_rev. intros Hn.
  destruct (i <? 0)%Z eqn:E1; [destruct (i + n <? 0)%Z eqn:E2|
                               destruct (n <=? i)%Z eqn:E2]; lia.
Qed.

Lemma windows_length (n : nat) (l : list Q) :
  (1 <= n)%nat ->
  length (Py.windows n l) = (length l + 1 - n)%nat.
Proof.
  intros Hn. induction l as [|v l IH]; [cbn [Py.windows length]; lia|].
  cbn [Py.windows]. destruct (n <=? length (v :: l))%nat eqn:E.
  - apply Nat.leb_le in E. cbn [length] in *. rewrite IH. lia.
  - apply Nat.leb_gt in E. cbn [length] in *. lia.
Qed.

Lemma windows_spec (n : nat) (l w : list Q) :
  In w (Py.windows n l) ->
  length w = n /\ forall v, In v w -> In v l.
Proof.
  revert w. induction l as [|v l IH]; intros w; [contradiction|].
  cbn [Py.windows]. destruct (n <=? length (v :: l))%nat eqn:E; [|contradiction].
  apply Nat.leb_le in E.
  intros [<- | Hw].
  - split; [apply firstn_length_le; lia | ].
    intros u Hu. rewrite <- (firstn_skipn n (v :: l)).
    apply in_or_app. now left.
  - destruct (IH _ Hw) as [Hlen Hin]. split; [exact Hlen|].
    intros u Hu. right. auto.
Qed.

Lemma sum_ones (n : Z) :
  (0 <= n)%Z -> Py.sum (Py.ones n) == inject_Z n.
Proof.
  intros Hn. unfold Py.sum, Py.ones.
  rewrite (fold_left_Qplus_const 1).
  - rewrite repeat_length, Z2Nat.id by exact Hn. ring.
  - apply Forall_forall. intros v Hv. apply repeat_spec in Hv. now subst.
Qed.

Lemma smooth_padding_length (x : list Q) (w : Z) :
  (3 <= w <= Z.of_nat (length x))%Z ->
  length (Py.slice_rev x (w - 1) 0) = Z.to_nat (w - 1) /\
  length (Py.slice_rev x (-2) (- w - 1)) = Z.to_nat (w - 1).
Proof.
  intros Hw. rewrite !slice_rev_length. unfold Py.adjust_rev.
  repeat match goal with
         | |- context [(?a <? ?b)%Z] => destruct (Z.ltb_spec a b)
         | |- context [(?a <=? ?b)%Z] => destruct (Z.leb_spec a b)
         end; lia.
Qed.

Lemma slice_rev_In (l : list Q) (a b : Z) (v : Q) :
  In v (Py.slice_rev l a b) -> In v l.
Proof.
  unfold Py.slice_rev. intros Hv.
  pose proof (adjust_rev_range (Z.of_nat (length l)) a ltac:(lia)) as Ha.
  pose proof (adjust_rev_range (Z.of_nat (length l)) b ltac:(lia)) as Hb.
  apply in_map_iff in Hv. destruct Hv as [j [<- Hj]].
  apply in_seq in Hj. apply nth_In. lia.
Qed.

Lemma windows_nth (n : nat) (l : list Q) :
  forall j, (j + n <= length l)%nat -> (1 <= n)%nat ->
            nth j (Py.windows n l) [] = firstn n (skipn j l).
Proof.
  induction l as [|v l IH]; intros j Hj Hn; [cbn in Hj; lia|].
  cbn [Py.windows]. destruct (Nat.leb_spec n (length (v :: l))) as [_ | Hlt];
    [|lia].
  destruct j as [|j]; [reflexivity|].
  cbn [nth skipn]. apply IH; [cbn in Hj; lia | exact Hn].
Qed.

(** The kernel of [smooth] holds [window_len] times the double
    [1 / window_len]. *)
Lemma smooth_kernel (w : Z) :
  (0 <= w)%Z ->
  rev (map (fun wi => B64.div wi (Py.sum (Py.ones w))) (Py.ones w))
  = repeat (B64.div 1 (inject_Z w)) (Z.to_nat w).
Proof.
  intros Hw.
  assert (E : B64.div 1 (Py.sum (Py.ones w)) = B64.div 1 (inject_Z w)).
  { unfold B64.div. apply round_comp. now rewrite sum_ones. }
  unfold Py.ones at 2. rewrite map_repeat, E.
  apply rev_repeat.
Qed.

(** A sum with constant weights is the sum times the weight. *)
Lemma exact_dot_const (d : Q) (a : list Q) :
  Spec.exact_dot a (repeat d (length a)) == Spec.total a * d.
Proof.
  unfold Spec.exact_dot. induction a as [|v a IH].
  - cbn. ring.
  - cbn [length repeat Py.zip_with Spec.total]. rewrite IH. ring.
Qed.

(** The double [1 / window_len] for a window that fits in memory. *)
Lemma kernel_accurate (w : Z) :
  (1 <= w <= 2 ^ 53)%Z ->
  Spec.sizable (B64.div 1 (inject_Z w))
  /\ 1 - B64.eps <= inject_Z w * B64.div 1 (inject_Z w)
  /\ inject_Z w * B64.div 1 (inject_Z w) <= 1 + B64.eps.
Proof.
  intros Hw.
  assert (Hpos : 0 < inject_Z w) by (rewrite <- (Zlt_Qlt 0); lia).
  assert (Hle : inject_Z w <= B64.pow2 53).
  { rewrite pow2_Z by lia. rewrite <- Zle_Qle. lia. }
  assert (Hinv : B64.pow2 (-53) <= 1 / inject_Z w).
  { apply Qle_shift_div_l; [exact Hpos|].
    assert (E : B64.pow2 (-53) * B64.pow2 53 == 1)
      by (rewrite <- pow2_add; reflexivity).
    pose proof (pow2_pos (-53)). nra. }
  assert (Hn : B64.pow2 (-1022) <= 1 / inject_Z w).
  { pose proof (pow2_le (-1022) (-53) ltac:(lia)). lra. }
  destruct (round_relative _ Hn) as [Rlo Rhi].
  fold (B64.div 1 (inject_Z w)) in Rlo, Rhi.
  split; [right|].
  - pose proof (round_monotone _ _ Hinv) as Hm.
    rewrite (round_pow2 (-53)) in Hm by lia.
    fold (B64.div 1 (inject_Z w)) in Hm.
    pose proof (pow2_le (-500) (-53) ltac:(lia)). lra.
  - assert (E : inject_Z w * (1 / inject_Z w) == 1) by (field; lra).
    set (k := B64.div 1 (inject_Z w)) in *.
    set (q := 1 / inject_Z w) in *. destruct eps_bounds.
    split; nra.
Qed.

Section SmoothShape.
Context `{External}.

(** The padded array that [smooth] convolves, and the dot products it
    takes. *)
Lemma smooth_unfold (x : list Q) (w : Z) :
  (3 <= w <= Z.of_nat (length x))%Z ->
  smooth x w =
    Ok (map (fun win =>
               np_dot win (repeat (B64.div 1 (inject_Z w)) (Z.to_nat w)))
            (Py.windows (Z.to_nat w)
               (Py.slice_rev x (w - 1) 0 ++ x
                ++ Py.slice_rev x (-2) (- w - 1)))).
Proof.
  intros Hw. unfold smooth.
  replace (Z.of_nat (length x) <? w)%Z with false by (symmetry; lia).
  replace (w <? 3)%Z with false by (symmetry; lia).
  cbn [orb]. unfold Py.convolve_valid.
  rewrite <- (smooth_kernel w) by lia.
  set (ker := map _ (Py.ones w)).
  set (s := _ ++ _).
  assert (Hk : length ker = Z.to_nat w)
    by (unfold ker, Py.ones; now rewrite length_map, repeat_length).
  assert (Hs : (length ker < length s)%nat).
  { destruct (smooth_padding_length x w Hw) as [Hl Hr].
    unfold s. rewrite !length_app, Hl, Hr. lia. }
  destruct ker as [|k0 ker'] eqn:Eker; [cbn in Hk; lia|].
  destruct s as [|s0 s']; [cbn in Hs; lia|].
  apply Nat.ltb_lt in Hs. rewrite Hs. now rewrite Hk.
Qed.

(** Every window that [smooth] averages is made of input samples. *)
Lemma smooth_windows (x : list Q) (w : Z) (win : list Q) :
  In win (Py.windows (Z.to_nat w)
            (Py.slice_rev x (w - 1) 0 ++ x
             ++ Py.slice_rev x (-2) (- w - 1))) ->
  length win = Z.to_nat w /\ forall v, In v win -> In v x.
Proof.
  intros Hwin. apply windows_spec in Hwin. destruct Hwin as [Hlen Hin].
  split; [exact Hlen|]. intros v Hv. specialize (Hin v Hv).
  apply in_app_or in Hin. destruct Hin as [Hin | Hin];
    [now apply slice_rev_In in Hin|].
  apply in_app_or in Hin. destruct Hin as [Hin | Hin];
    [exact Hin | now apply slice_rev_In in Hin].
Qed.

(** With an accurate dot product, the average of a window is off by at
    most [window_len + 2] roundings. *)
Lemma window_accurate (w : Z) (win : list Q) :
  Spec.accurate_dot ->
  (1 <= w <= 2 ^ 53)%Z -> length win = Z.to_nat w ->
  Forall Spec.sizable win ->
  Spec.total win / inject_Z w * Spec.slack_down (Z.to_nat w + 2)
  <= np_dot win (repeat (B64.div 1 (inject_Z w)) (Z.to_nat w))
  /\ np_dot win (repeat (B64.div 1 (inject_Z w)) (Z.to_nat w))
     <= Spec.total win / inject_Z w * Spec.slack_up (Z.to_nat w + 2).
Proof.
  intros Hdot Hw Hlen Hwin.
  destruct (kernel_accurate w Hw) as (Hk & Klo & Khi).
  destruct (Hdot win (repeat (B64.div 1 (inject_Z w)) (Z.to_nat w)))
    as [Dlo Dhi].
  - now rewrite repeat_length.
  - exact Hwin.
  - apply Forall_forall. intros v Hv. apply repeat_spec in Hv. now subst.
  - rewrite <- Hlen in Dlo, Dhi at 1. rewrite <- Hlen in Dhi at 1.
    rewrite exact_dot_const in Dlo, Dhi. rewrite Hlen in Dlo, Dhi.
    replace (Z.to_nat w + 2)%nat with (S (S (Z.to_nat w))) by lia.
    rewrite (slack_down_S (S _)), (slack_up_S (S _)).
    assert (Hpos : 0 < inject_Z w) by (rewrite <- (Zlt_Qlt 0); lia).
    assert (Ht : 0 <= Spec.total win).
    { clear -Hwin. induction Hwin as [|v l Hv Hl IH]; [cbn; lra|].
      cbn [Spec.total]. pose proof (sizable_nonneg v Hv). lra. }
    destruct (slack_down_range (S (Z.to_nat w))) as [Dpos Dle].
    pose proof (slack_up_ge (S (Z.to_nat w))) as Uge.
    set (d := Spec.slack_down (S (Z.to_nat w))) in *.
    set (u := Spec.slack_up (S (Z.to_nat w))) in *.
    set (k := B64.div 1 (inject_Z w)) in *.
    set (r := np_dot win (repeat k (Z.to_nat w))) in *.
    assert (Em : Spec.total win / inject_Z w * inject_Z w
                 == Spec.total win) by (field; lra).
    set (m := Spec.total win / inject_Z w) in *.
    assert (Hm : 0 <= m).
    { unfold m. apply Qle_shift_div_l; [exact Hpos | lra]. }
    assert (Etk : Spec.total win * k == m * (inject_Z w * k))
      by (rewrite <- Em; ring).
    rewrite Etk in Dlo, Dhi.
    set (g := inject_Z w * k) in *. destruct eps_bounds.
    assert (L0 : m * (1 - B64.eps) <= m * g) by nra.
    assert (U0 : m * g <= m * (1 + B64.eps)) by nra.
    assert (L1 : m * (1 - B64.eps) * d <= m * g * d)
      by (apply Qmult_le_compat_r; lra).
    assert (U1 : m * g * u <= m * (1 + B64.eps) * u)
      by (apply Qmult_le_compat_r; lra).
    split; lra.
Qed.

End SmoothShape.


Section SmoothClaim.
Context `{External}.


End SmoothClaim.


(** ** Running a method *)

Lemma peaks_list_run (s : Spectra) (ps : list Peak.t) :
  peaks s = Some ps -> peaks_list s = (Ok ps, s).
Proof. intros Hps. unfold peaks_list, bind, gets, ret. now rewrite Hps. Qed.

Lemma peaks_sized_run (s : Spectra) (ps : list Peak.t) :
  peaks s = Some ps -> peaks_sized s = (Ok ps, s).
Proof. intros Hps. unfold peaks_sized, bind, gets, ret. now rewrite Hps. Qed.

Lemma bind_run {A B : Type} (m : M A) (f : A -> M B) (s s' : Spectra) (a : A) :
  m s = (Ok a, s') -> bind m f s = f a s'.
Proof. intros E. unfold bind. now rewrite E. Qed.

Lemma bind_raise {A B : Type} (m : M A) (f : A -> M B) (s s' : Spectra)
    (e : exn) :
  m s = (Raise e, s') -> bind m f s = (Raise e, s').
Proof. intros E. unfold bind. now rewrite E. Qed.

(** ** Lists and sums *)

Lemma enumerate_snoc {A : Type} (l : list A) (a : A) (start : Z) :
  enumerate start (l ++ [a])
  = enumerate start l ++ [((start + Z.of_nat (length l))%Z, a)].
Proof.
  revert start. induction l as [|b l IH]; intros start.
  - cbn. now rewrite Z.add_0_r.
  - cbn [enumerate app length]. rewrite IH.
    now replace (start + 1 + Z.of_nat (length l))%Z
      with (start + Z.of_nat (S (length l)))%Z by lia.
Qed.

Lemma nth_error_snoc {A : Type} (l : list A) (a q : A) (j : nat) :
  nth_error (l ++ [a]) j = Some q ->
  (j < length l)%nat /\ nth_error l j = Some q \/ j = length l /\ q = a.
Proof.
  intros E. destruct (Nat.lt_ge_cases j (length l)) as [Hlt | Hge].
  - left. split; [exact Hlt|]. now rewrite nth_error_app1 in E.
  - right. rewrite nth_error_app2 in E by exact Hge.
    destruct (j - length l)%nat as [|m] eqn:Em; cbn in E.
    + split; [lia | congruence].
    + now destruct m.
Qed.

(** ** [int] *)

Lemma int_nonneg (q : Q) : 0 <= q -> Py.int q = Qfloor q.
Proof.
  destruct q as [n d]. unfold Qle, Py.int, Qfloor. cbn [Qnum Qden].
  intros Hn. apply Z.quot_div_nonneg; lia.
Qed.

Lemma int_nonpos (q : Q) : q <= 0 -> Py.int q = Qceiling q.
Proof.
  destruct q as [n d]. unfold Qle, Py.int, Qceiling, Qfloor, Qopp.
  cbn [Qnum Qden]. intros Hn.
  rewrite <- (Z.opp_involutive n) at 1. rewrite Z.quot_opp_l by lia.
  f_equal. apply Z.quot_div_nonneg; lia.
Qed.

Lemma int_inject_Z (z : Z) : Py.int (inject_Z z) = z.
Proof. unfold Py.int. cbn. apply Z.quot_1_r. Qed.

(** ** [getHomozygousPeakIndex] *)

Section HomozygousPeakIndex.

Lemma getHomozygousPeakIndex_run (approx_freq : Q) (s : Spectra)
    (ps : list Peak.t) :
  peaks s = Some ps ->
  getHomozygousPeakIndex approx_freq s
  = (Ok (if Py.Qltb 0 approx_freq
         then fst (fold_left (closest_step approx_freq) (enumerate 1 ps)
                             (0%Z, 1000000))
         else primary_loop (fmax s) (enumerate 1 ps)), s).
Proof.
  intros Hps. unfold getHomozygousPeakIndex.
  destruct (Py.Qltb 0 approx_freq);
    rewrite (bind_run _ _ _ _ _ (peaks_list_run s ps Hps)); reflexivity.
Qed.

(** What the search loop has found after any number of peaks: nothing
    while every peak seen is at least 1000000 away, otherwise the closest
    peak seen so far, the earliest one among equally close peaks. *)
Lemma closest_fold (a : Q) (ps : list Peak.t) (i : Z) (d : Q) :
  fold_left (closest_step a) (enumerate 1 ps) (0%Z, 1000000) = (i, d) ->
  (i = 0%Z /\ d = 1000000
   /\ Forall (fun p => 1000000 <= Spec.computed_dist a p) ps)
  \/
  (d < 1000000 /\ (1 <= i)%Z /\
   exists p, nth_error ps (Z.to_nat (i - 1)) = Some p
     /\ d = Spec.computed_dist a p
     /\ (forall j q, nth_error ps j = Some q -> d <= Spec.computed_dist a q)
     /\ (forall j q, nth_error ps j = Some q -> (Z.of_nat j + 1 < i)%Z ->
                     d < Spec.computed_dist a q)).
Proof.
  revert i d. induction ps as [|p' ps IH] using rev_ind; intros i d.
  - cbn. intros [= <- <-]. left. repeat split. constructor.
  - rewrite enumerate_snoc, fold_left_app.
    destruct (fold_left (closest_step a) (enumerate 1 ps) (0%Z, 1000000))
      as [i0 d0].
    specialize (IH i0 d0 eq_refl).
    cbn [fold_left closest_step]. fold (Spec.computed_dist a p').
    assert (Hnew : nth_error (ps ++ [p'])
                     (Z.to_nat (1 + Z.of_nat (length ps) - 1)) = Some p').
    { replace (Z.to_nat (1 + Z.of_nat (length ps) - 1)) with (length ps)
        by lia.
      rewrite nth_error_app2, Nat.sub_diag by lia. reflexivity. }
    destruct (Py.Qltb (Spec.computed_dist a p') d0) eqn:E.
    + (* the new peak is strictly closer than all before: it is taken *)
      apply Qltb_iff in E. intros Heq.
      apply pair_equal_spec in Heq. destruct Heq as [<- <-]. right.
      assert (Hall : forall j q, nth_error ps j = Some q ->
                                 Spec.computed_dist a p' < Spec.computed_dist a q).
      { intros j q Hq.
        destruct IH as [(_ & Hd & Hfar) | (_ & _ & p & _ & Hd & Hle & _)].
        - rewrite Forall_forall in Hfar.
          specialize (Hfar q (nth_error_In _ _ Hq)). rewrite Hd in E. lra.
        - specialize (Hle j q Hq). lra. }
      split.
      { destruct IH as [(_ & Hd & _) | (Hd & _)]; [rewrite Hd in E|]; lra. }
      split; [lia|].
      exists p'. split; [exact Hnew|]. split; [reflexivity|].
      split; intros j q Hq; intros;
        (destruct (nth_error_snoc _ _ _ _ Hq) as [[_ Hq'] | [Hj ->]];
         [specialize (Hall j q Hq'); lra | try lra; lia]).
    + (* the answer so far is kept *)
      apply Qltb_false_iff in E. intros Heq.
      apply pair_equal_spec in Heq. destruct Heq as [<- <-].
      destruct IH as [(Hi & Hd & Hfar) | (Hd & Hi & p & Hp & Hdp & Hle & Hlt)].
      * left. repeat split; auto.
        apply Forall_app. split; [exact Hfar|].
        constructor; [|constructor]. rewrite Hd in E. exact E.
      * right. split; [exact Hd|]. split; [exact Hi|].
        exists p. split.
        { rewrite nth_error_app1; [exact Hp|].
          apply nth_error_Some. congruence. }
        split; [exact Hdp|].
        split; intros j q Hq; intros;
          (destruct (nth_error_snoc _ _ _ _ Hq) as [[Hj Hq'] | [Hj ->]];
           [eauto|]).
        -- exact E.
        -- assert (Z.to_nat (i0 - 1) < length ps)%nat
             by (apply nth_error_Some; congruence).
           lia.
Qed.

(** A peak that is at least 1000000 away stays that far after the
    difference is rounded: rounding is monotone and 1000000 is a double. *)
Lemma computed_dist_far (a : Q) (p : Peak.t) :
  1000000 <= Qabs (Peak.mean p - a) -> 1000000 <= Spec.computed_dist a p.
Proof.
  unfold Spec.computed_dist, B64.sub. intros Hfar.
  assert (E1 : B64.round 1000000 == 1000000) by (vm_compute; reflexivity).
  destruct (Qlt_le_dec (Peak.mean p - a) 0) as [Hneg | Hpos].
  - rewrite Qabs_neg in Hfar by lra.
    assert (Hle : Peak.mean p - a <= Qopp 1000000) by lra.
    pose proof (round_monotone _ _ Hle) as Hm.
    rewrite round_opp, E1 in Hm.
    rewrite Qabs_neg by lra. lra.
  - rewrite Qabs_pos in Hfar by lra.
    pose proof (round_monotone 1000000 (Peak.mean p - a) Hfar) as Hm.
    rewrite E1 in Hm. rewrite Qabs_pos by lra. exact Hm.
Qed.

Lemma primary_loop_spec (fm : Z) (ps : list Peak.t) (start : Z) :
  let r := primary_loop fm (enumerate start ps) in
  (1 <= start)%Z ->
  (r = 0%Z /\ Forall (fun p => ~ Spec.dist (inject_Z fm) p < 1) ps)
  \/
  ((start <= r)%Z /\
   exists p, nth_error ps (Z.to_nat (r - start)) = Some p /\
     Spec.dist (inject_Z fm) p < 1 /\
     forall j q, nth_error ps j = Some q -> (Z.of_nat j + start < r)%Z ->
                 ~ Spec.dist (inject_Z fm) q < 1).
Proof.
  revert start. induction ps as [|p ps IH]; intros start r Hstart.
  - left. split; [reflexivity | constructor].
  - subst r. cbn [enumerate primary_loop]. fold (Spec.dist (inject_Z fm) p).
    destruct (Py.Qltb (Spec.dist (inject_Z fm) p) 1) eqn:E.
    + apply Qltb_iff in E. right. split; [lia|].
      exists p. rewrite Z.sub_diag. split; [reflexivity|].
      split; [exact E|]. intros j q _ Hj. lia.
    + apply Qltb_false_iff in E.
      destruct (IH (start + 1)%Z ltac:(lia))
        as [[Hr Hall] | (Hr & p0 & Hp0 & Hin & Hbefore)].
      * left. split; [exact Hr|]. constructor; [lra | exact Hall].
      * right. split; [lia|]. exists p0. split.
        { replace (Z.to_nat (primary_loop fm (enumerate (start + 1) ps)
                             - start))
            with (S (Z.to_nat (primary_loop fm (enumerate (start + 1) ps)
                               - (start + 1)))) by lia.
          exact Hp0. }
        split; [exact Hin|].
        intros [|j] q Hq Hj; cbn in Hq.
        -- injection Hq as <-. lra.
        -- apply (Hbefore j q Hq). lia.
Qed.

(** C6: the search for the closest peak starts from the distance 1000000
    instead of from the first peak, so it misses what its own comment
    announces ("work out which peak is closest").  With a single peak at
    10 and an approximate frequency of 2000000 the closest peak has index
    1, yet the method returns 0; the same happens for the doubles 0.1 and
    1000000.1, less than 1000000 apart, whose difference rounds to
    1000000. *)
Lemma getHomozygousPeakIndex_counterexample :
  let ps := [Demo.peak_at 10 1000 []] in
  let qs := [Demo.peak_at (B64.round (1 # 10)) 1000 []] in
  getHomozygousPeakIndex 2000000 (Demo.with_peaks ps)
  = (Ok 0%Z, Demo.with_peaks ps)
  /\ Spec.closest_index ps 2000000 1
  /\ ~ Spec.closest_index ps 2000000 0
  /\ getHomozygousPeakIndex (B64.round (10000001 # 10)) (Demo.with_peaks qs)
     = (Ok 0%Z, Demo.with_peaks qs)
  /\ Spec.closest_index qs (B64.round (10000001 # 10)) 1
  /\ Qabs (B64.round (1 # 10) - B64.round (10000001 # 10)) < 1000000.
Proof.
  assert (Hone : forall (p : Peak.t) (a : Q), Spec.closest_index [p] a 1).
  { intros p a. split; [lia|]. exists p. split; [reflexivity|]. split.
    - intros [|[|j]] q Hq; cbn in Hq; try discriminate.
      injection Hq as <-. apply Qle_refl.
    - intros j q _ Hj. lia. }
  split; [vm_compute; reflexivity|]. split; [apply Hone|].
  split; [intros [Hr _]; lia|].
  split; [vm_compute; reflexivity|]. split; [apply Hone|].
  vm_compute. reflexivity.
Qed.

(** C10: with an approximate frequency > 0 from which every peak's mean
    differs by at least 1000000, the method returns 0 whatever the number
    of peaks. *)
Theorem getHomozygousPeakIndex_all_far (s : Spectra) (ps : list Peak.t)
    (approx_freq : Q) :
  peaks s = Some ps ->
  0 < approx_freq ->
  Forall (fun p => 1000000 <= Qabs (Peak.mean p - approx_freq)) ps ->
  getHomozygousPeakIndex approx_freq s = (Ok 0%Z, s).
Proof.
  intros Hps Hpos Hfar.
  rewrite (getHomozygousPeakIndex_run _ _ _ Hps).
  apply Qltb_iff in Hpos. rewrite Hpos.
  destruct (fold_left (closest_step approx_freq) (enumerate 1 ps)
                      (0%Z, 1000000)) as [i d] eqn:Ef.
  cbn [fst].
  destruct (closest_fold _ _ _ _ Ef)
    as [(Hi & _) | (Hd & _ & p & Hp & Hdp & _)].
  - now rewrite Hi.
  - rewrite Forall_forall in Hfar.
    specialize (Hfar p (nth_error_In _ _ Hp)).
    apply computed_dist_far in Hfar. rewrite <- Hdp in Hfar. lra.
Qed.

(** X24: with an approximate frequency > 0 and at least one peak whose
    distance to it, as the method computes it (the absolute value of the
    rounded difference), is below 1000000, [getHomozygousPeakIndex] returns
    the 1-based index of the peak with the least computed distance, the
    lowest index among equally close peaks. *)
Theorem getHomozygousPeakIndex_closest (s : Spectra) (ps : list Peak.t)
    (approx_freq : Q) :
  peaks s = Some ps ->
  0 < approx_freq ->
  Exists (fun p => Spec.computed_dist approx_freq p < 1000000) ps ->
  exists r,
    getHomozygousPeakIndex approx_freq s = (Ok r, s) /\
    (1 <= r)%Z /\
    exists p,
      nth_error ps (Z.to_nat (r - 1)) = Some p /\
      (forall j q, nth_error ps j = Some q ->
                   Spec.computed_dist approx_freq p
                   <= Spec.computed_dist approx_freq q) /\
      (forall j q, nth_error ps j = Some q -> (Z.of_nat j + 1 < r)%Z ->
                   Spec.computed_dist approx_freq p
                   < Spec.computed_dist approx_freq q).
Proof.
  intros Hps Hpos Hnear.
  rewrite (getHomozygousPeakIndex_run _ _ _ Hps).
  apply Qltb_iff in Hpos. rewrite Hpos.
  destruct (fold_left (closest_step approx_freq) (enumerate 1 ps)
                      (0%Z, 1000000)) as [i d] eqn:Ef.
  cbn [fst]. exists i. split; [reflexivity|].
  destruct (closest_fold _ _ _ _ Ef)
    as [(_ & _ & Hfar) | (_ & Hi & p & Hp & Hdp & Hle & Hlt)].
  - exfalso. apply Exists_exists in Hnear. destruct Hnear as (q & Hq & Hlt).
    rewrite Forall_forall in Hfar. specialize (Hfar q Hq). lra.
  - split; [exact Hi|]. exists p. rewrite <- Hdp.
    split; [exact Hp|]. split; assumption.
Qed.

End HomozygousPeakIndex.

Lemma getHomozygousPeakIndex_closest_witness :
  let ps := [Demo.peak_at 10 1000 []; Demo.peak_at 20 400 []] in
  getHomozygousPeakIndex 18 (Demo.with_peaks ps)
  = (Ok 2%Z, Demo.with_peaks ps).
Proof.
  intros ps.
  destruct (getHomozygousPeakIndex_closest (Demo.with_peaks ps) ps 18
              eq_refl eq_refl) as (r & Hrun & _).
  - apply Exists_cons_hd. vm_compute. reflexivity.
  - rewrite Hrun. f_equal. f_equal.
    assert (E : fst (getHomozygousPeakIndex 18 (Demo.with_peaks ps))
                = Ok 2%Z) by (vm_compute; reflexivity).
    rewrite Hrun in E. cbn [fst] in E. now injection E.
Defined.

Lemma getHomozygousPeakIndex_all_far_witness :
  let ps := [Demo.peak_at 10 1000 []; Demo.peak_at 20 400 []] in
  getHomozygousPeakIndex 3000000 (Demo.with_peaks ps)
  = (Ok 0%Z, Demo.with_peaks ps).
Proof.
  intros ps.
  apply (getHomozygousPeakIndex_all_far (Demo.with_peaks ps) ps 3000000).
  - reflexivity.
  - reflexivity.
  - repeat constructor; cbn; discriminate.
Defined.

(** ** [calcKmerCoverage] *)

Section KmerCoverage.
Context `{External}.

Lemma calcKmerCoverage_run (s : Spectra) (ps : list Peak.t) :
  peaks s = Some ps ->
  calcKmerCoverage s
  = (Ok (if Py.Qltb 0 (Spec.computed_volume ps)
         then Py.int (Spec.computed_mean ps) else 0%Z),
     s).
Proof.
  intros Hps. unfold calcKmerCoverage.
  rewrite (bind_run _ _ _ _ _ (peaks_list_run s ps Hps)). reflexivity.
Qed.

Lemma int_monotone (q q' : Q) : q <= q' -> (Py.int q <= Py.int q')%Z.
Proof.
  intros Hle.
  destruct (Qlt_le_dec q 0) as [Hq | Hq];
    destruct (Qlt_le_dec q' 0) as [Hq' | Hq'].
  - rewrite !int_nonpos by lra. now apply Qceiling_resp_le.
  - rewrite (int_nonpos q), (int_nonneg q') by lra.
    assert (Qceiling q <= Qceiling 0)%Z by (apply Qceiling_resp_le; lra).
    assert (Qfloor 0 <= Qfloor q')%Z by (apply Qfloor_resp_le; lra).
    change (Qceiling 0) with 0%Z in *. change (Qfloor 0) with 0%Z in *. lia.
  - lra.
  - rewrite !int_nonneg by lra. now apply Qfloor_resp_le.
Qed.

Lemma sum_doubles_nonempty (l : list Q) :
  l <> [] -> sum_doubles l = float_sum l.
Proof. intros Hl. destruct l; [contradiction | reflexivity]. Qed.

(** The products [mean * elements], each rounded. *)
Lemma peak_products_accurate (ps : list Peak.t) :
  Forall (fun p => Spec.sizable (Peak_elements p)) ps ->
  Forall (fun p => Spec.sizable (Peak.mean p)) ps ->
  let exact := Spec.total (map (fun p => Peak.mean p * Peak_elements p) ps) in
  let products := map (fun p => B64.mul (Peak.mean p) (Peak_elements p)) ps in
  Forall Spec.normal products
  /\ exact * (1 - B64.eps) <= Spec.total products
  /\ Spec.total products <= exact * (1 + B64.eps).
Proof.
  intros He Hm. cbn zeta. induction ps as [|p ps IH].
  - cbn. split; [constructor|]. split; lra.
  - inversion He as [|? ? Hep Hes]; subst.
    inversion Hm as [|? ? Hmp Hms]; subst.
    destruct (IH Hes Hms) as (Hn & Hlo & Hhi). cbn [map Spec.total].
    destruct (round_relative0 _ (sizable_mult _ _ Hmp Hep))
      as (Pn & Plo & Phi).
    fold (B64.mul (Peak.mean p) (Peak_elements p)) in Pn, Plo, Phi.
    split; [constructor; assumption|]. split; lra.
Qed.

(** With an accurate builtin [sum] the computed total volume is the exact
    one up to [n] roundings, for [n] volumes that are non-negative and zero
    or not tiny. *)
Lemma computed_volume_accurate (ps : list Peak.t) :
  Spec.accurate_sum ->
  Forall (fun p => Spec.sizable (Peak_elements p)) ps ->
  Spec.total (map Peak_elements ps) * Spec.slack_down (length ps)
  <= Spec.computed_volume ps
  /\ Spec.computed_volume ps
     <= Spec.total (map Peak_elements ps) * Spec.slack_up (length ps).
Proof.
  intros Hsum He. unfold Spec.computed_volume.
  destruct ps as [|p0 ps0]; [cbn; split; lra|].
  set (ps := p0 :: ps0) in *.
  assert (Hne : map Peak_elements ps <> []) by discriminate.
  assert (Hvn : Forall Spec.normal (map Peak_elements ps)).
  { apply Forall_forall. intros v Hv. apply in_map_iff in Hv.
    destruct Hv as (p & <- & Hp). apply sizable_normal.
    rewrite Forall_forall in He. now apply He. }
  destruct (Hsum (map Peak_elements ps) Hne Hvn) as [Tlo Thi].
  rewrite length_map in Tlo, Thi.
  rewrite (sum_doubles_nonempty _ Hne). split; assumption.
Qed.

(** With an accurate builtin [sum] the computed mean is the exact weighted
    mean up to [2n + 2] roundings, for [n] peaks whose means and volumes are
    non-negative and zero or not tiny. *)
Lemma computed_mean_accurate (ps : list Peak.t) :
  Spec.accurate_sum ->
  Forall (fun p => Spec.sizable (Peak_elements p)) ps ->
  Forall (fun p => Spec.sizable (Peak.mean p)) ps ->
  0 < Spec.computed_volume ps ->
  0 < Spec.total (map Peak_elements ps)
  /\ B64.round (Spec.weighted_mean ps * Spec.slack_down (S (length ps))
                / Spec.slack_up (length ps))
     <= Spec.computed_mean ps
  /\ Spec.computed_mean ps
     <= B64.round (Spec.weighted_mean ps * Spec.slack_up (S (length ps))
                   / Spec.slack_down (length ps)).
Proof.
  intros Hsum He Hm Hpos.
  assert (Hne : ps <> []) by (intros ->; discriminate Hpos).
  destruct (computed_volume_accurate ps Hsum He) as [Tlo Thi].
  destruct (peak_products_accurate ps He Hm) as (Pn & Plo & Phi).
  cbn zeta in Pn, Plo, Phi.
  assert (Hmap : forall f : Peak.t -> Q, map f ps <> []).
  { intros f E. apply Hne. now destruct ps. }
  destruct (Hsum (map (fun p => B64.mul (Peak.mean p) (Peak_elements p)) ps)
              (Hmap _) Pn) as [Slo Shi].
  rewrite !length_map in Slo, Shi.
  unfold Spec.computed_mean, Spec.weighted_mean.
  rewrite (sum_doubles_nonempty _ (Hmap _)).
  set (n := length ps) in *.
  destruct (slack_down_range n) as [Dpos Dle].
  pose proof (slack_up_ge n) as Uge.
  destruct eps_bounds as [E0 E1].
  assert (HW : 0 <= Spec.total
                      (map (fun p => Peak.mean p * Peak_elements p) ps)).
  { clear -He Hm. induction ps as [|p ps IH]; [cbn; lra|].
    inversion He as [|? ? Hep Hes]; subst.
    inversion Hm as [|? ? Hmp Hms]; subst.
    specialize (IH Hes Hms). cbn [map Spec.total].
    pose proof (sizable_nonneg _ Hep). pose proof (sizable_nonneg _ Hmp).
    nra. }
  set (T := Spec.total (map Peak_elements ps)) in *.
  set (W := Spec.total (map (fun p => Peak.mean p * Peak_elements p) ps))
    in *.
  set (P := Spec.total
              (map (fun p => B64.mul (Peak.mean p) (Peak_elements p)) ps))
    in *.
  set (That := Spec.computed_volume ps) in *.
  set (What := float_sum
                 (map (fun p => B64.mul (Peak.mean p) (Peak_elements p)) ps))
    in *.
  set (d := Spec.slack_down n) in *. set (u := Spec.slack_up n) in *.
  assert (HT : 0 < T) by nra.
  assert (HP : 0 <= P) by nra.
  assert (Lw : W * ((1 - B64.eps) * d) <= What).
  { assert (H2 : W * (1 - B64.eps) * d <= P * d)
      by (apply Qmult_le_compat_r; lra).
    lra. }
  assert (Uw : What <= W * ((1 + B64.eps) * u)).
  { assert (H2 : P * u <= W * (1 + B64.eps) * u)
      by (apply Qmult_le_compat_r; lra).
    lra. }
  split; [exact HT|].
  split; apply round_monotone.
  - rewrite slack_down_S. fold d u.
    apply Qle_shift_div_l; [exact Hpos|].
    assert (Hd : 0 <= d * (1 - B64.eps)) by nra.
    assert (Hm0 : 0 <= W / T) by (apply Qle_shift_div_l; [exact HT | lra]).
    assert (HX : 0 <= W / T * (d * (1 - B64.eps)) / u).
    { apply Qle_shift_div_l; [lra|].
      set (g := d * (1 - B64.eps)) in *. set (m := W / T) in *. nra. }
    assert (E : W / T * (d * (1 - B64.eps)) / u * (T * u)
                == W * ((1 - B64.eps) * d)) by (field; lra).
    set (X := W / T * (d * (1 - B64.eps)) / u) in *.
    assert (H1 : X * That <= X * (T * u)) by nra.
    lra.
  - rewrite slack_up_S. fold d u.
    apply Qle_shift_div_r; [exact Hpos|].
    assert (Hu : 0 <= u * (1 + B64.eps)) by nra.
    assert (Hm0 : 0 <= W / T) by (apply Qle_shift_div_l; [exact HT | lra]).
    assert (HX : 0 <= W / T * (u * (1 + B64.eps)) / d).
    { apply Qle_shift_div_l; [lra|].
      set (g := u * (1 + B64.eps)) in *. set (m := W / T) in *. nra. }
    assert (E : W / T * (u * (1 + B64.eps)) / d * (T * d)
                == W * ((1 + B64.eps) * u)) by (field; lra).
    set (X := W / T * (u * (1 + B64.eps)) / d) in *.
    assert (H1 : X * (T * d) <= X * That) by nra.
    lra.
Qed.


End KmerCoverage.



(** ** [KmerSpectra._createInitialPeaks] *)

Lemma bind_gets {A B : Type} (f : Spectra -> A) (g : A -> M B) (s : Spectra) :
  bind (gets f) g s = g (f s) s.
Proof. reflexivity. Qed.

Lemma bind_modify {B : Type} (f : Spectra -> Spectra) (g : unit -> M B)
    (s : Spectra) :
  bind (modify f) g s = g tt (f s).
Proof. reflexivity. Qed.

Lemma bind_ret {A B : Type} (a : A) (g : A -> M B) (s : Spectra) :
  bind (ret a) g s = g a s.
Proof. reflexivity. Qed.

Lemma getitem_in_range {A : Type} (l : list A) (i : Z) :
  (0 <= i < Z.of_nat (length l))%Z ->
  Py.getitem l i = nth_error l (Z.to_nat i).
Proof.
  intros Hi. unfold Py.getitem.
  destruct (Z.ltb_spec i 0); [lia|].
  destruct (Z.leb_spec 0 i); [|lia].
  destruct (Z.ltb_spec i (Z.of_nat (length l))); [reflexivity | lia].
Qed.

Lemma index_run (h : list Q) (i : Z) (s : Spectra) :
  (0 <= i < Z.of_nat (length h))%Z ->
  index h i s = (Ok (Spec.at_bin h i), s).
Proof.
  intros Hi. unfold index. rewrite getitem_in_range by exact Hi.
  unfold Spec.at_bin.
  rewrite (nth_error_nth' h 0) by lia. reflexivity.
Qed.

Lemma range_In (a b i : Z) : In i (Py.range a b) <-> (a <= i < b)%Z.
Proof.
  unfold Py.range. rewrite in_map_iff. split.
  - intros [j [<- Hj]]. apply in_seq in Hj. lia.
  - intros Hi. exists (Z.to_nat (i - a)). split; [lia|]. apply in_seq. lia.
Qed.

Lemma sorted_filter {A : Type} (R : A -> A -> Prop) (f : A -> bool)
    (l : list A) :
  StronglySorted R l -> StronglySorted R (filter f l).
Proof.
  induction 1 as [|a l Hl IH Ha]; cbn [filter]; [constructor|].
  destruct (f a); [|exact IH].
  constructor; [exact IH|].
  rewrite Forall_forall in *. intros b Hb. apply Ha.
  apply filter_In in Hb. tauto.
Qed.

Lemma sorted_map {A B : Type} (R : B -> B -> Prop) (g : A -> B) (l : list A) :
  StronglySorted (fun a b => R (g a) (g b)) l <-> StronglySorted R (map g l).
Proof.
  induction l as [|a l IH]; cbn [map].
  - split; constructor.
  - split; intros Hs; apply StronglySorted_inv in Hs; destruct Hs as [Hl Ha];
      (constructor; [now apply IH|]).
    + apply Forall_map. exact Ha.
    + exact (proj1 (Forall_map g (R (g a)) l) Ha).
Qed.

Lemma sorted_impl_in {A : Type} (R R' : A -> A -> Prop) (l : list A) :
  (forall a b, In a l -> In b l -> R a b -> R' a b) ->
  StronglySorted R l -> StronglySorted R' l.
Proof.
  intros Himp Hs. induction Hs as [|a l Hl IH Ha]; [constructor|].
  constructor.
  - apply IH. intros x y Hx Hy. apply Himp; now right.
  - rewrite Forall_forall in *. intros b Hb.
    apply Himp; [now left | now right | now apply Ha].
Qed.

Section InitialPeaks.
Context `{External}.

Lemma find_fmin_run (h : list Q) (idx : list Z) (s : Spectra) :
  (forall i, In i idx -> (1 <= i /\ i + 2 < Z.of_nat (length h))%Z) ->
  exists r,
    find_fmin h idx s = (Ok r, s) /\
    ((r = 0%Z /\ forall i, In i idx -> ~ Spec.is_minimum h i)
     \/ (In r idx /\ Spec.is_minimum h r)).
Proof.
  induction idx as [|i idx IH]; intros Hidx.
  - exists 0%Z. split; [reflexivity|]. left. split; [reflexivity|].
    intros i [].
  - destruct (Hidx i (or_introl eq_refl)) as [Hi1 Hi2].
    destruct IH as (r & Hr & Hcase).
    { intros j Hj. apply Hidx. now right. }
    assert (Hrest : (r = 0%Z /\ (forall j, In j (i :: idx) ->
                                            ~ Spec.is_minimum h j)
                     \/ In r (i :: idx) /\ Spec.is_minimum h r)
                    \/ Spec.is_minimum h i).
    { destruct (Qlt_le_dec (Spec.at_bin h i) (Spec.at_bin h (i + 1)));
        [destruct (Qlt_le_dec (Spec.at_bin h i) (Spec.at_bin h (i + 2)))|].
      - right. now split.
      - left. destruct Hcase as [[-> Hnone] | [Hin Hmin]].
        + left. split; [reflexivity|]. intros j [<- | Hj]; [|now apply Hnone].
          intros [_ Hc]. lra.
        + right. split; [now right | exact Hmin].
      - left. destruct Hcase as [[-> Hnone] | [Hin Hmin]].
        + left. split; [reflexivity|]. intros j [<- | Hj]; [|now apply Hnone].
          intros [Hc _]. lra.
        + right. split; [now right | exact Hmin]. }
    cbn [find_fmin].
    rewrite (bind_run _ _ _ _ _ (index_run h i s ltac:(lia))).
    rewrite (bind_run _ _ _ _ _ (index_run h (i + 1) s ltac:(lia))).
    destruct (Py.Qltb (Spec.at_bin h i) (Spec.at_bin h (i + 1))) eqn:E1.
    + rewrite (bind_run _ _ _ _ _ (index_run h (i + 2) s ltac:(lia))).
      destruct (Py.Qltb (Spec.at_bin h i) (Spec.at_bin h (i + 2))) eqn:E2.
      * exists i. split; [reflexivity|]. right.
        apply Qltb_iff in E1, E2. split; [now left | now split].
      * exists r. split; [exact Hr|].
        destruct Hrest as [Hrest | [_ Hc]]; [exact Hrest|].
        apply Qltb_false_iff in E2. lra.
    + exists r. split; [exact Hr|].
      destruct Hrest as [Hrest | [Hc _]]; [exact Hrest|].
      apply Qltb_false_iff in E1. lra.
Qed.

(** An accepted candidate designates a bin of the histogram. *)
Lemma accepts_in_range (h : list Q) (fmin : Z) (mu : Q) :
  (0 <= fmin)%Z -> 0 <= mu -> accepts h fmin mu = true ->
  (0 <= Py.int mu < Z.of_nat (length h))%Z.
Proof.
  intros Hfmin Hmu Hacc. unfold accepts in Hacc.
  apply andb_prop in Hacc. destruct Hacc as [Hacc Hhi].
  apply andb_prop in Hacc. destruct Hacc as [Hacc _].
  apply andb_prop in Hacc. destruct Hacc as [Hrad Hmean].
  apply Z.leb_le in Hrad. apply Z.ltb_lt in Hmean. apply Qltb_iff in Hhi.
  split; [lia|].
  rewrite int_nonneg in * by exact Hmu.
  rewrite Zlt_Qlt. pose proof (Qfloor_le mu) as Hfl.
  assert (2 <= inject_Z (Py.int (np_sqrt mu * 2))).
  { rewrite (Zle_Qle 2) in Hrad. exact Hrad. }
  lra.
Qed.

Lemma candidate_loop_run (h : list Q) (fmin fmax : Z) (freqs : list Q)
    (acc : list Peak.t) (s : Spectra) :
  (0 <= fmin)%Z -> (forall mu, In mu freqs -> 0 <= mu) ->
  candidate_loop h fmin fmax freqs acc s
  = (Ok (acc ++ map (emit h fmax) (filter (accepts h fmin) freqs)), s).
Proof.
  intros Hfmin. revert acc.
  induction freqs as [|mu freqs IH]; intros acc Hpos.
  - cbn. now rewrite app_nil_r.
  - cbn [candidate_loop filter].
    assert (Hmu : 0 <= mu) by (apply Hpos; now left).
    assert (Hrest : forall m, In m freqs -> 0 <= m)
      by (intros m Hm; apply Hpos; now right).
    destruct (accepts h fmin mu) eqn:E.
    + rewrite (bind_run _ _ _ _ _
                 (index_run h (Py.int mu) s
                    (accepts_in_range h fmin mu Hfmin Hmu E))).
      rewrite IH by exact Hrest. cbn [map]. now rewrite <- app_assoc.
    + now apply IH.
Qed.

Lemma frequencies_candidates (hap : bool) (fm : Z) :
  frequencies hap fm = Spec.candidates hap fm.
Proof. destruct hap; reflexivity. Qed.

Lemma floor_half (n : Z) : Qfloor (inject_Z n / 2) = (n / 2)%Z.
Proof.
  unfold Qdiv, Qmult, Qinv, inject_Z, Qfloor. cbn.
  now rewrite Z.mul_1_r.
Qed.

Lemma candidates_nonneg (hap : bool) (fm : Z) (mu : Q) :
  (0 <= fm)%Z -> In mu (Spec.candidates hap fm) -> 0 <= mu.
Proof.
  intros Hfm Hin. unfold Spec.candidates in Hin.
  apply in_app_or in Hin. destruct Hin as [Hin | Hin].
  - destruct hap; [contradiction|]. destruct Hin as [<- | []].
    apply Qle_shift_div_l; [reflexivity|].
    rewrite Qmult_0_l. rewrite (Zle_Qle 0) in Hfm. exact Hfm.
  - repeat (destruct Hin as [<- | Hin];
            [rewrite <- (Zle_Qle 0); lia|]).
    contradiction.
Qed.

(** The floors of the candidates, in the order of the list. *)
Lemma candidates_floors (hap : bool) (fm : Z) :
  map Qfloor (Spec.candidates hap fm)
  = ((if hap then [] else [fm / 2]) ++ [fm * 1; fm * 2; fm * 3; fm * 4])%Z.
Proof.
  unfold Spec.candidates. rewrite map_app.
  destruct hap; cbn [map app]; rewrite ?floor_half, !Qfloor_Z; reflexivity.
Qed.

Lemma candidates_floor_inj (hap : bool) (fm : Z) (mu mu' : Q) :
  (10 <= fm)%Z ->
  In mu (Spec.candidates hap fm) -> In mu' (Spec.candidates hap fm) ->
  Qfloor mu = Qfloor mu' -> mu = mu'.
Proof.
  intros Hfm Hmu Hmu'. unfold Spec.candidates in *.
  pose proof (floor_half fm) as Hhalf.
  assert (Hdiv : (0 <= fm / 2 < fm)%Z)
    by (split; [apply Z.div_pos | apply Z.div_lt]; lia).
  destruct hap; cbn [app In] in Hmu, Hmu';
    repeat (destruct Hmu as [<- | Hmu]; [|]); try contradiction;
    repeat (destruct Hmu' as [<- | Hmu']; [|]); try contradiction;
    rewrite ?Hhalf, ?Qfloor_Z; intros E; try reflexivity; lia.
Qed.

(** The test of the loop body is the acceptance condition of the
    specification: on a negative [2*sigma] truncation and floor differ,
    but both fail [radius >= 2]. *)
Lemma accepts_accepted (h : list Q) (fm : Z) (mu : Q) :
  0 <= mu -> (accepts h fm mu = true <-> Spec.accepted h fm mu).
Proof.
  intros Hmu. unfold accepts, Spec.accepted, Spec.radius, Spec.sigma,
    Spec.mean_bin.
  rewrite (int_nonneg mu Hmu).
  assert (Hcomm : np_sqrt mu * 2 == 2 * np_sqrt mu) by ring.
  destruct (Qlt_le_dec (np_sqrt mu * 2) 0) as [Hneg | Hpos].
  - (* both reject *)
    assert (Hi : (Py.int (np_sqrt mu * 2) <= 0)%Z).
    { rewrite int_nonpos by lra. rewrite <- (Qceiling_Z 0).
      apply Qceiling_resp_le. exact (Qlt_le_weak _ _ Hneg). }
    assert (Hf : (Qfloor (2 * np_sqrt mu) <= 0)%Z).
    { rewrite <- (Qfloor_Z 0). apply Qfloor_resp_le.
      change (inject_Z 0) with 0. lra. }
    split.
    + intros Hacc. repeat (apply andb_prop in Hacc; destruct Hacc as [Hacc ?]).
      apply Z.leb_le in Hacc. lia.
    + intros [Hr _]. lia.
  - rewrite (int_nonneg _ Hpos), (Qfloor_comp _ _ Hcomm).
    rewrite !andb_true_iff, Z.leb_le, Z.ltb_lt, !Qltb_iff. tauto.
Qed.

Lemma emit_peak_of (h : list Q) (fm fmx : Z) (mu : Q) :
  (0 <= fm)%Z -> 0 <= mu -> accepts h fm mu = true ->
  Spec.peak_of h fmx mu (emit h fmx mu).
Proof.
  intros Hfm Hmu Hacc.
  pose proof (accepts_in_range h fm mu Hfm Hmu Hacc) as Hrange.
  unfold Spec.peak_of, Spec.mean_bin, Spec.sigma, emit.
  cbn [Peak.mean Peak.stddev Peak.peak Peak.primary Peak.new].
  rewrite (int_nonneg mu Hmu) in *.
  split; [reflexivity|]. split; [reflexivity|]. split.
  { rewrite getitem_in_range by exact Hrange. unfold Spec.at_bin.
    apply nth_error_nth'. lia. }
  split; [lia | apply Z.eqb_eq].
Qed.

(** What one call does to the object. *)
Lemma createInitialPeaks_run (s : Spectra) :
  exists fmin' fmax',
    KmerSpectra_createInitialPeaks s
    = (Ok tt,
       set_peaks
         (if (fmax' <? 10)%Z then None
          else Some (map (emit (histogram s) fmax')
                         (filter (accepts (histogram s) fmin')
                                 (Spec.candidates (haploid s) fmax'))))
         (set_fmax fmax' (set_fmin fmin' s)))
    /\ ((fmin' = 0%Z /\ fmax' = 0%Z
         /\ forall i, (1 <= i < Z.of_nat (length (histogram s)) - 2)%Z ->
                      ~ Spec.is_minimum (histogram s) i)
        \/ ((1 <= fmin' < Z.of_nat (length (histogram s)) - 2)%Z
            /\ Spec.is_minimum (histogram s) fmin')).
Proof.
  unfold KmerSpectra_createInitialPeaks. rewrite bind_gets.
  set (h := histogram s).
  destruct (find_fmin_run h (Py.range 1 (Z.of_nat (length h) - 2)) s)
    as (r & Hr & Hcase).
  { intros i Hi. apply range_In in Hi. lia. }
  rewrite (bind_run _ _ _ _ _ Hr).
  destruct Hcase as [[-> Hnone] | [Hin Hmin]].
  - exists 0%Z, 0%Z. split; [reflexivity|]. left.
    repeat split. intros i Hi. apply Hnone, range_In, Hi.
  - apply range_In in Hin.
    destruct (Z.eqb_spec r 0) as [E | _]; [lia|].
    assert (Hslice : exists v rest, Py.slice_from h r = v :: rest).
    { unfold Py.slice_from.
      destruct (Z.ltb_spec r 0); [lia|].
      destruct (skipn (Z.to_nat (Z.min r (Z.of_nat (length h)))) h)
        as [|v rest] eqn:Es; [|now eauto].
      apply (f_equal (@length Q)) in Es.
      rewrite length_skipn in Es. cbn in Es. lia. }
    destruct Hslice as (v & rest & Hslice).
    rewrite Hslice. cbn [Py.argmax].
    set (fm := (Py.argmax_from v 0 1 rest + r)%Z).
    exists r, fm. split; [|right; split; [exact Hin | exact Hmin]].
    unfold lift. cbn [bind ret modify]. fold fm.
    destruct (Z.ltb_spec fm 10) as [Hlo | Hhi]; [reflexivity|].
    cbn [bind gets haploid set_fmax set_fmin].
    rewrite frequencies_candidates.
    rewrite (bind_run _ _ _ _ _
               (candidate_loop_run h r fm _ [] _ ltac:(lia)
                  (fun mu => candidates_nonneg _ fm mu ltac:(lia)))).
    reflexivity.
Qed.

(** C1: the call returns; when the computed [fmax] is at least 10, a
    candidate of the list [fmax/2 (omitted when haploid), fmax*1, ...,
    fmax*4] has a peak in [self.peaks] iff [radius >= 2], [mean > fmin],
    [mu - radius > 0] and [mu + radius < len(histogram)], where
    [radius = floor(2*sqrt(mu))] and [mean = floor(mu)]; every peak of the
    list comes from an accepted candidate, has the histogram value at bin
    [mean] as its height and is primary iff [mean = fmax]; and no peak
    sits at the bin of a rejected candidate. *)
Theorem createInitialPeaks_candidates (s : Spectra) :
  exists s',
    KmerSpectra_createInitialPeaks s = (Ok tt, s') /\
    ((10 <= fmax s')%Z ->
     exists ps,
       peaks s' = Some ps /\
       (forall mu, In mu (Spec.candidates (haploid s) (fmax s')) ->
          (Spec.accepted (histogram s) (fmin s') mu <->
           exists p, In p ps
                     /\ Spec.peak_of (histogram s) (fmax s') mu p)) /\
       (forall p, In p ps ->
          exists mu, In mu (Spec.candidates (haploid s) (fmax s')) /\
            Spec.accepted (histogram s) (fmin s') mu /\
            Spec.peak_of (histogram s) (fmax s') mu p) /\
       (forall mu, In mu (Spec.candidates (haploid s) (fmax s')) ->
          ~ Spec.accepted (histogram s) (fmin s') mu ->
          forall p, In p ps ->
                    ~ Peak.mean p == inject_Z (Spec.mean_bin mu))).
Proof.
  destruct (createInitialPeaks_run s) as (fmin' & fmax' & Hrun & Hcase).
  eexists. split; [exact Hrun|].
  cbn [fmax fmin peaks set_peaks set_fmax set_fmin]. intros Hfm.
  destruct (Z.ltb_spec fmax' 10) as [Hlo | _]; [lia|].
  assert (Hfmin : (0 <= fmin')%Z) by (destruct Hcase as [[-> _] | [? _]]; lia).
  set (h := histogram s) in *.
  set (cands := Spec.candidates (haploid s) fmax') in *.
  assert (Hpos : forall mu, In mu cands -> 0 <= mu)
    by (intros mu; apply candidates_nonneg; lia).
  assert (Hfrom : forall p,
             In p (map (emit h fmax') (filter (accepts h fmin') cands)) ->
             exists mu, In mu cands /\ Spec.accepted h fmin' mu
                        /\ Spec.peak_of h fmax' mu p).
  { intros p Hp. apply in_map_iff in Hp. destruct Hp as (mu & <- & Hmu).
    apply filter_In in Hmu. destruct Hmu as [Hin Hacc].
    exists mu. split; [exact Hin|]. split.
    - now apply accepts_accepted; auto.
    - now apply (emit_peak_of h fmin'); auto. }
  eexists. split; [reflexivity|]. split; [|split].
  - intros mu Hmu. split.
    + intros Hacc. apply accepts_accepted in Hacc; [|auto].
      exists (emit h fmax' mu). split.
      * apply in_map. apply filter_In. now split.
      * now apply (emit_peak_of h fmin'); auto.
    + intros (p & Hp & Hof).
      destruct (Hfrom p Hp) as (mu' & Hmu' & Hacc' & Hof').
      destruct Hof as [Hm _]. destruct Hof' as [Hm' _].
      rewrite Hm in Hm'. injection Hm' as Hm'.
      now rewrite (candidates_floor_inj _ _ mu mu' Hfm Hmu Hmu' Hm').
  - exact Hfrom.
  - intros mu Hmu Hrej p Hp Hmean.
    destruct (Hfrom p Hp) as (mu' & Hmu' & Hacc' & [Hm' _]).
    rewrite Hm' in Hmean.
    pose proof (proj1 (inject_Z_injective _ _) Hmean) as Hfl.
    apply Hrej.
    now rewrite <- (candidates_floor_inj _ _ mu' mu Hfm Hmu' Hmu Hfl).
Qed.

(** C5: the call returns; if no [i] of the scan (from bin 1, with
    [i + 2] inside the histogram) has [h[i] < h[i+1]] and [h[i] < h[i+2]]
    then [fmin] stays 0 and [self.peaks] is [None]; and whenever the
    computed [fmax] is below 10, [self.peaks] is [None]. *)
Theorem createInitialPeaks_no_signal (s : Spectra) :
  exists s',
    KmerSpectra_createInitialPeaks s = (Ok tt, s') /\
    ((forall i a b c,
         (1 <= i < Z.of_nat (length (histogram s)) - 2)%Z ->
         Py.getitem (histogram s) i = Some a ->
         Py.getitem (histogram s) (i + 1) = Some b ->
         Py.getitem (histogram s) (i + 2) = Some c ->
         ~ (a < b /\ a < c)) ->
     fmin s' = 0%Z /\ peaks s' = None) /\
    ((fmax s' < 10)%Z -> peaks s' = None).
Proof.
  destruct (createInitialPeaks_run s) as (fmin' & fmax' & Hrun & Hcase).
  eexists. split; [exact Hrun|].
  cbn [fmax fmin peaks set_peaks set_fmax set_fmin]. split.
  - intros Hnone. destruct Hcase as [(-> & -> & _) | [Hin Hmin]].
    + split; reflexivity.
    + exfalso.
      assert (Hget : forall j,
                 (fmin' <= j <= fmin' + 2)%Z ->
                 Py.getitem (histogram s) j
                 = Some (Spec.at_bin (histogram s) j)).
      { intros j Hj. rewrite getitem_in_range by lia.
        apply nth_error_nth'. lia. }
      apply (Hnone fmin' _ _ _ Hin (Hget fmin' ltac:(lia))
                   (Hget (fmin' + 1)%Z ltac:(lia))
                   (Hget (fmin' + 2)%Z ltac:(lia))).
      exact Hmin.
  - intros Hlo. destruct (Z.ltb_spec fmax' 10); [reflexivity | lia].
Qed.

(** C9: the call returns and leaves at most 5 peaks (4 when haploid),
    in strictly increasing order of their means. *)
Theorem createInitialPeaks_count_and_order (s : Spectra) :
  exists s',
    KmerSpectra_createInitialPeaks s = (Ok tt, s') /\
    match peaks s' with
    | None => True
    | Some ps =>
        (length ps <= if haploid s then 4 else 5)%nat /\
        StronglySorted (fun p q => Peak.mean p < Peak.mean q) ps
    end.
Proof.
  destruct (createInitialPeaks_run s) as (fmin' & fmax' & Hrun & _).
  eexists. split; [exact Hrun|].
  cbn [peaks set_peaks].
  destruct (Z.ltb_spec fmax' 10) as [_ | Hfm]; [exact I|].
  split.
  - rewrite length_map.
    eapply Nat.le_trans; [apply filter_length_le|].
    unfold Spec.candidates. now destruct (haploid s).
  - apply (sorted_map (fun p q => Peak.mean p < Peak.mean q)
                      (emit (histogram s) fmax')).
    apply (sorted_impl_in (fun a b => (Qfloor a < Qfloor b)%Z)).
    + intros a b Ha Hb Hab. unfold emit. cbn [Peak.mean Peak.new].
      apply filter_In in Ha, Hb. destruct Ha as [Ha _], Hb as [Hb _].
      rewrite !int_nonneg
        by (eapply candidates_nonneg; [|eassumption]; lia).
      now rewrite <- Zlt_Qlt.
    + apply sorted_filter. apply (sorted_map Z.lt Qfloor).
      rewrite candidates_floors.
      assert (Hdiv : (0 <= fmax' / 2 < fmax')%Z)
        by (split; [apply Z.div_pos | apply Z.div_lt]; lia).
      destruct (haploid s); cbn [app];
        repeat (constructor; [|repeat constructor; lia]); constructor.
Qed.

End InitialPeaks.

Lemma createInitialPeaks_candidates_witness :
  exists s' ps,
    KmerSpectra_createInitialPeaks (H := Demo.external)
      (KmerSpectra_init Demo.bimodal false 27) = (Ok tt, s')
    /\ (10 <= fmax s')%Z /\ peaks s' = Some ps.
Proof.
  destruct (createInitialPeaks_candidates (H := Demo.external)
              (KmerSpectra_init Demo.bimodal false 27))
    as (s' & Hrun & Hrest).
  assert (Hfm : (10 <= fmax s')%Z).
  { replace s' with
      (snd (KmerSpectra_createInitialPeaks (H := Demo.external)
              (KmerSpectra_init Demo.bimodal false 27)))
      by (rewrite Hrun; reflexivity).
    vm_compute. discriminate. }
  destruct (Hrest Hfm) as (ps & Hps & _).
  exists s', ps. repeat split; assumption.
Defined.

Lemma createInitialPeaks_no_signal_witness :
  exists s',
    KmerSpectra_createInitialPeaks (H := Demo.external)
      (KmerSpectra_init Demo.declining false 27) = (Ok tt, s')
    /\ fmin s' = 0%Z /\ peaks s' = None.
Proof.
  destruct (createInitialPeaks_no_signal (H := Demo.external)
              (KmerSpectra_init Demo.declining false 27))
    as (s' & Hrun & Hnone & _).
  exists s'. split; [exact Hrun|]. apply Hnone.
  intros i a b c Hi. cbn in Hi.
  assert (Hcases : i = 1%Z \/ i = 2%Z) by lia.
  destruct Hcases as [-> | ->]; cbn;
    intros [= <-] [= <-] [= <-] [Hab _]; discriminate Hab.
Defined.

(** ** [Spectra._residuals] *)

Lemma setitem_length (a : list Q) (i : nat) (v : Q) :
  length (Py.setitem a i v) = length a.
Proof.
  revert i. induction a as [|w a IH]; intros [|i]; cbn; auto.
Qed.

Lemma nth_setitem (a : list Q) (i j : nat) (v : Q) :
  (i < length a)%nat ->
  nth j (Py.setitem a i v) 0 = if (j =? i)%nat then v else nth j a 0.
Proof.
  revert i j. induction a as [|w a IH]; intros [|i] [|j] Hi; cbn in *;
    try lia; try reflexivity.
  apply IH. lia.
Qed.

Lemma nth_zip_with (f : Q -> Q -> Q) (a b : list Q) (i : nat) :
  (i < length a)%nat -> (i < length b)%nat ->
  nth i (Py.zip_with f a b) 0 = f (nth i a 0) (nth i b 0).
Proof.
  revert b i. induction a as [|v a IH]; intros [|w b] [|i] Ha Hb; cbn in *;
    try lia; try reflexivity.
  apply IH; lia.
Qed.

Lemma nth_map_in_range (f : Q -> Q) (l : list Q) (i : nat) :
  (i < length l)%nat -> nth i (map f l) 0 = f (nth i l 0).
Proof.
  revert i. induction l as [|v l IH]; intros [|i] Hi; cbn in *;
    try lia; try reflexivity.
  apply IH. lia.
Qed.

Lemma skipn_nth_cons (l : list Q) (n : nat) :
  (n < length l)%nat -> skipn n l = nth n l 0 :: skipn (S n) l.
Proof.
  revert n. induction l as [|v l IH]; intros [|n] Hn; cbn in *;
    try lia; try reflexivity.
  apply IH. lia.
Qed.

Lemma inplace_same_length (f : Q -> Q -> Q) (a b : list Q) :
  length a = length b -> Py.inplace f a b = Ok (Py.zip_with f a b).
Proof. intros E. unfold Py.inplace. now rewrite E, Nat.eqb_refl. Qed.

Lemma binop_same_length (f : Q -> Q -> Q) (a b : list Q) :
  length a = length b -> Py.binop f a b = Ok (Py.zip_with f a b).
Proof. intros E. unfold Py.binop. now rewrite E, Nat.eqb_refl. Qed.

(** The value that the penalty loop leaves at bin [i], from the value [d]
    it finds there. *)
Lemma penalise_at (n : nat) (res : list Q) (a i : nat) :
  (a < length res)%nat ->
  length (penalise n res a) = length res /\
  nth i (penalise n res a) 0
  = if (i =? a)%nat
    then (if (a <? 5)%nat then 0
          else if Py.Qltb (nth a res 0) 0
               then B64.mul (nth a res 0) (inject_Z (Z.of_nat n))
               else nth a res 0)
    else nth i res 0.
Proof.
  intros Ha. unfold penalise.
  destruct (Py.Qltb (nth a res 0) 0); destruct (a <? 5)%nat;
    rewrite ?setitem_length, ?nth_setitem by (rewrite ?setitem_length; lia);
    (split; [reflexivity|]);
    destruct (Nat.eqb_spec i a) as [-> | Hne]; reflexivity.
Qed.

Lemma penalise_fold (n len : nat) :
  forall (a : nat) (res : list Q),
    (a + len <= length res)%nat ->
    length (fold_left (penalise n) (seq a len) res) = length res /\
    forall i,
      nth i (fold_left (penalise n) (seq a len) res) 0
      = if ((a <=? i) && (i <? a + len))%nat
        then (if (i <? 5)%nat then 0
              else if Py.Qltb (nth i res 0) 0
                   then B64.mul (nth i res 0) (inject_Z (Z.of_nat n))
                   else nth i res 0)
        else nth i res 0.
Proof.
  induction len as [|len IH]; intros a res Hlen.
  - cbn [seq fold_left]. split; [reflexivity|]. intros i.
    destruct (Nat.leb_spec a i); destruct (Nat.ltb_spec i (a + 0));
      try reflexivity.
    lia.
  - cbn [seq fold_left].
    destruct (penalise_at n res a a ltac:(lia)) as [Hl _].
    destruct (IH (S a) (penalise n res a) ltac:(lia)) as [Hl' Hn'].
    split; [lia|]. intros i. rewrite Hn'.
    destruct (penalise_at n res a i ltac:(lia)) as [_ ->].
    destruct (Nat.eqb_spec i a) as [-> | Hne].
    + replace (S a <=? a)%nat with false by (symmetry; apply Nat.leb_gt; lia).
      replace (a <=? a)%nat with true by (symmetry; apply Nat.leb_le; lia).
      replace (a <? a + S len)%nat with true
        by (symmetry; apply Nat.ltb_lt; lia).
      reflexivity.
    + destruct (Nat.leb_spec (S a) i); destruct (Nat.leb_spec a i); try lia;
        cbn [andb]; [|reflexivity].
      destruct (Nat.ltb_spec i (S a + len)); destruct (Nat.ltb_spec i (a + S len));
        try lia; reflexivity.
Qed.

Section Residuals.
Context `{External}.

Lemma residuals_model_run (tx params : list Q) (s : Spectra)
    (ps : list Peak.t) :
  Spec.curves_keep_shape ->
  forall (n : nat) (model : list Q),
    (n + length ps = length params)%nat ->
    length model = length tx ->
    exists model',
      residuals_model tx params (enumerate (Z.of_nat n) ps) model s
      = (Ok model', s)
      /\ length model' = length tx
      /\ forall i, (i < length tx)%nat ->
           nth i model' 0
           = fold_left B64.add
               (map (fun ph => Spec.contribution tx (fst ph) (snd ph) i)
                    (combine ps (skipn n params)))
               (nth i model 0).
Proof.
  intros Hcm. induction ps as [|p ps IH]; intros n model Hn Hmodel.
  - exists model. split; [reflexivity|]. split; [exact Hmodel|].
    intros i _. reflexivity.
  - cbn [length] in Hn. cbn [enumerate residuals_model].
    rewrite (bind_run _ _ _ _ _
               (index_run params (Z.of_nat n) s ltac:(lia))).
    unfold Spec.at_bin. rewrite Nat2Z.id.
    set (cm := createModel tx (Peak.mean p) (Peak.stddev p)
                           (nth n params 0)).
    set (pdist := if Py.Qltb (B64.sub (Peak.mean p)
                                      (B64.mul 2 (Peak.stddev p))) 1
                  then map (fun v => B64.mul v 1000) cm else cm).
    assert (Hcml : length cm = length tx) by apply Hcm.
    assert (Hpl : length pdist = length tx).
    { unfold pdist. destruct (Py.Qltb _ 1); [rewrite length_map|];
        exact Hcml. }
    assert (Hpd : forall i, (i < length tx)%nat ->
               nth i pdist 0
               = Spec.contribution tx p (nth n params 0) i).
    { intros i Hi. unfold pdist, Spec.contribution. fold cm.
      destruct (Py.Qltb (B64.sub (Peak.mean p)
                                 (B64.mul 2 (Peak.stddev p))) 1) eqn:E;
        destruct (Qlt_le_dec (B64.sub (Peak.mean p)
                                      (B64.mul 2 (Peak.stddev p))) 1)
          as [Hlt | Hge].
      - rewrite nth_map_in_range by lia. reflexivity.
      - apply Qltb_iff in E. lra.
      - apply Qltb_false_iff in E. lra.
      - reflexivity. }
    unfold lift at 1.
    rewrite inplace_same_length by congruence.
    cbn [bind].
    replace (Z.of_nat n + 1)%Z with (Z.of_nat (S n)) by lia.
    destruct (IH (S n) (Py.zip_with B64.add model pdist) ltac:(lia))
      as (model' & Hrun & Hlen & Hval).
    { rewrite zip_with_length. lia. }
    exists model'. split; [exact Hrun|]. split; [exact Hlen|].
    intros i Hi. rewrite (Hval i Hi).
    rewrite nth_zip_with by lia.
    rewrite (skipn_nth_cons params n) by lia.
    cbn [combine map fold_left fst snd].
    now rewrite (Hpd i Hi).
Qed.

(** C3: for a candidate height vector as long as the peak list, and with
    the actual histogram and the curves sampled on the object's domain
    (as [optimise] sets them up), the residual function returns one
    value per bin: 0 at the first 5 bins, and elsewhere the actual value
    minus the model curve (the sum of the peak curves at their fixed mean
    and standard deviation with the candidate heights, a curve multiplied
    by 1000 when its [mean - 2*stddev < 1.0]), multiplied by the number
    of peaks when negative.  Every operation is the double operation of
    the source, the test [mean - 2*stddev < 1.0] included, and the curves
    are added in the order of the peaks.  The object is left unchanged. *)
Theorem residuals_spec (s : Spectra) (ps : list Peak.t)
    (params actual : list Q) :
  Spec.curves_keep_shape ->
  peaks s = Some ps ->
  length params = length ps ->
  realTy s = Some actual ->
  length actual = length (Tx s) ->
  exists r,
    _residuals params s = (Ok r, s) /\
    length r = length actual /\
    forall i, (i < length r)%nat ->
      nth i r 0 = Spec.residual_at actual (Tx s) ps params i.
Proof.
  intros Hcm Hps Hlen Hreal Hshape. unfold _residuals.
  rewrite (bind_run _ _ _ _ _ (peaks_sized_run s ps Hps)).
  rewrite Hlen, Nat.eqb_refl. cbn [negb]. rewrite bind_gets.
  destruct (residuals_model_run (Tx s) params s ps Hcm 0
              (Py.zeros_like (Tx s)) ltac:(lia))
    as (model & Hrun & Hml & Hmv).
  { unfold Py.zeros_like. apply length_map. }
  rewrite (bind_run _ _ _ _ _ Hrun), bind_gets, Hreal.
  unfold lift at 1. rewrite binop_same_length by congruence.
  cbn [bind ret].
  set (res := Py.zip_with B64.sub actual model).
  assert (Hrl : length res = length actual).
  { unfold res. rewrite zip_with_length. lia. }
  destruct (penalise_fold (length ps) (length res) 0 res ltac:(lia))
    as [Hfl Hfv].
  eexists. split; [reflexivity|]. split; [congruence|].
  intros i Hi. rewrite Hfl in Hi. rewrite Hfv.
  replace (0 <=? i)%nat with true by (symmetry; apply Nat.leb_le; lia).
  replace (i <? 0 + length res)%nat with true
    by (symmetry; apply Nat.ltb_lt; lia).
  cbn [andb]. unfold Spec.residual_at.
  destruct (i <? 5)%nat; [reflexivity|].
  assert (Hd : nth i res 0
               = B64.sub (nth i actual 0)
                         (Spec.model_at (Tx s) ps params i)).
  { unfold res. rewrite nth_zip_with by lia.
    rewrite (Hmv i ltac:(lia)). unfold Spec.model_at, Spec.fl_total,
      Py.zeros_like.
    rewrite nth_map_in_range by lia. reflexivity. }
  cbn zeta. rewrite Hd.
  destruct (Py.Qltb _ 0) eqn:E; destruct (Qlt_le_dec _ 0) as [Hlt | Hge].
  - reflexivity.
  - apply Qltb_iff in E. lra.
  - apply Qltb_false_iff in E. lra.
  - reflexivity.
Qed.

End Residuals.

Lemma demo_curves_keep_shape : Spec.curves_keep_shape (H := Demo.external).
Proof. intros X m sd pk. apply length_map. Qed.

(** The doubles 1.2 and 0.1: [1.2 - 2.0 * 0.1] is below 1 as a rational and
    rounds to 1.0, so the residual function does not inflate the curve of
    such a peak. *)
Lemma residuals_spec_witness :
  (exists r,
     _residuals (H := Demo.external) [900; 300] Demo.fitting
     = (Ok r, Demo.fitting)
     /\ length r = length Demo.bimodal)
  /\ B64.round (12 # 10) - 2 * B64.round (1 # 10) < 1
  /\ B64.sub (B64.round (12 # 10)) (B64.mul 2 (B64.round (1 # 10))) = 1.
Proof.
  split; [|split; vm_compute; reflexivity].
  destruct (residuals_spec (H := Demo.external) Demo.fitting
              [Demo.peak_at 10 1000 []; Demo.peak_at 20 400 []]
              [900; 300] Demo.bimodal
              demo_curves_keep_shape eq_refl eq_refl eq_refl eq_refl)
    as (r & Hrun & Hlen & _).
  exists r. split; assumption.
Defined.

(** ** [Spectra.optimise] and [Spectra._updateModel] *)

Section GlobalFit.
Context `{External}.

Lemma optimise_bounds_eq (ps : list Peak.t) :
  optimise_bounds ps
  = (map Peak.peak ps, map (fun _ => 0) ps, map Peak.peak ps).
Proof.
  unfold optimise_bounds.
  assert (G : forall a b c,
             fold_left
               (fun '(params, lower_bounds, upper_bounds) p =>
                  (params ++ [Peak.peak p], lower_bounds ++ [0],
                   upper_bounds ++ [Peak.peak p]))
               ps (a, b, c)
             = (a ++ map Peak.peak ps, b ++ map (fun _ => 0) ps,
                c ++ map Peak.peak ps)).
  { induction ps as [|p ps IH]; intros a b c; cbn [fold_left map].
    - now rewrite !app_nil_r.
    - rewrite IH, <- !app_assoc. reflexivity. }
  apply G.
Qed.

Lemma update_heights_spec (ps : list Peak.t) (xs : list Q) :
  Forall2 Qle xs (map Peak.peak ps) ->
  map Peak.peak (update_heights ps xs) = xs /\
  Forall2 (fun p p' => Peak.mean p' = Peak.mean p
                       /\ Peak.stddev p' = Peak.stddev p
                       /\ Peak.peak p' <= Peak.peak p)
          ps (update_heights ps xs).
Proof.
  revert xs. induction ps as [|p ps IH]; intros xs Hxs; inversion Hxs; subst.
  - split; constructor.
  - destruct (IH _ H4) as [Hm Hf]. cbn [update_heights map]. split.
    + now rewrite Hm.
    + constructor; [|exact Hf]. cbn. repeat split. assumption.
Qed.

Lemma Forall2_keep (ps : list Peak.t) :
  Forall2 (fun p p' => Peak.mean p' = Peak.mean p
                       /\ Peak.stddev p' = Peak.stddev p
                       /\ Peak.peak p' <= Peak.peak p) ps ps.
Proof.
  induction ps; constructor; auto. repeat split. apply Qle_refl.
Qed.

Lemma accumulate_Ty_peaks (l : list Peak.t) (s : Spectra) :
  peaks (snd (accumulate_Ty l s)) = peaks s.
Proof.
  revert s. induction l as [|p l IH]; intros s; [reflexivity|].
  cbn [accumulate_Ty]. rewrite bind_gets. unfold bind at 1, lift.
  destruct (Py.inplace Qplus (Ty s) (Peak.Ty p)); [|reflexivity].
  rewrite bind_modify, IH. reflexivity.
Qed.

Lemma accumulate_Ty_ok (l : list Peak.t) (s : Spectra) :
  (forall p, In p l -> length (Peak.Ty p) = length (Ty s)) ->
  exists s', accumulate_Ty l s = (Ok tt, s').
Proof.
  revert s. induction l as [|p l IH]; intros s Hl; [now eexists|].
  cbn [accumulate_Ty]. rewrite bind_gets. unfold bind at 1, lift.
  rewrite inplace_same_length by (symmetry; apply Hl; now left).
  rewrite bind_modify. apply IH.
  intros q Hq. cbn [Ty set_Ty]. rewrite zip_with_length.
  rewrite (Hl q (or_intror Hq)), (Hl p (or_introl eq_refl)).
  now rewrite Nat.min_id.
Qed.

Lemma updateModel_mismatch (params : list Q) (s : Spectra)
    (ps : list Peak.t) :
  peaks s = Some ps -> length params <> length ps ->
  _updateModel params s
  = (Raise (ValueError "Unexpected number of parameters"%string), s).
Proof.
  intros Hps Hne. unfold _updateModel.
  rewrite (bind_run _ _ _ _ _ (peaks_sized_run s ps Hps)).
  apply Nat.eqb_neq in Hne. now rewrite Hne.
Qed.

Lemma updateModel_peaks (params : list Q) (s : Spectra) (ps : list Peak.t) :
  peaks s = Some ps -> length params = length ps ->
  peaks (snd (_updateModel params s))
  = Some (update_heights ps params).
Proof.
  intros Hps Hlen. unfold _updateModel.
  rewrite (bind_run _ _ _ _ _ (peaks_sized_run s ps Hps)).
  rewrite Hlen, Nat.eqb_refl. cbn [negb].
  rewrite bind_modify, bind_gets, bind_modify.
  erewrite (bind_run peaks_list) by (apply peaks_list_run; reflexivity).
  unfold bind at 1.
  match goal with
  | |- context [accumulate_Ty ?l ?st] =>
      pose proof (accumulate_Ty_peaks l st) as Hacc;
      destruct (accumulate_Ty l st) as [[[]|e] st']
  end; cbn [snd gets] in *; exact Hacc.
Qed.

Lemma updateModel_ok (params : list Q) (s : Spectra) (ps : list Peak.t) :
  Spec.curves_keep_shape ->
  peaks s = Some ps -> length params = length ps ->
  (forall p, In p ps -> length (Peak.Tx p) = length (Tx s)) ->
  exists ty s', _updateModel params s = (Ok ty, s').
Proof.
  intros Hcm Hps Hlen Hshape. unfold _updateModel.
  rewrite (bind_run _ _ _ _ _ (peaks_sized_run s ps Hps)).
  rewrite Hlen, Nat.eqb_refl. cbn [negb].
  rewrite bind_modify, bind_gets, bind_modify.
  erewrite (bind_run peaks_list) by (apply peaks_list_run; reflexivity).
  match goal with
  | |- context [bind (accumulate_Ty ?l) _ ?st] =>
      destruct (accumulate_Ty_ok l st) as (s' & Hrun)
  end.
  { intros p' Hp'. cbn [Ty set_Ty Tx set_peaks].
    unfold Py.zeros_like. rewrite length_map.
    clear Hps. revert params Hlen p' Hp'.
    induction ps as [|p ps IH]; intros [|x xs] Hlen p' Hp'; cbn in *;
      try contradiction; try discriminate.
    destruct Hp' as [<- | Hp'].
    - cbn. rewrite Hcm. apply Hshape. now left.
    - apply (IH (fun q Hq => Hshape q (or_intror Hq)) xs); [lia | exact Hp']. }
  rewrite (bind_run _ _ _ _ _ Hrun). now eexists _, _.
Qed.

Lemma optimise_run (s : Spectra) (ps : list Peak.t) :
  peaks s = Some ps -> ps <> [] ->
  optimise s
  = match least_squares (fun p => fst (_residuals p (solver_state s)))
                        (map Peak.peak ps) (map (fun _ => 0) ps)
                        (map Peak.peak ps) with
    | Raise e => (Raise e, solver_state s)
    | Ok res =>
        if res_success res
        then bind (_updateModel (res_x res))
                  (fun _ => print [OutInt (res_nfev res)]) (solver_state s)
        else (Ok tt, solver_state s)
    end.
Proof.
  intros Hps Hne. unfold optimise. rewrite bind_gets, Hps.
  destruct ps as [|p0 ps0]; [contradiction|]. cbn [truthy negb].
  rewrite (bind_run _ _ _ _ _ (peaks_list_run s _ Hps)).
  rewrite optimise_bounds_eq.
  rewrite bind_gets, !bind_modify, bind_gets. fold (solver_state s).
  unfold bind at 1, lift.
  destruct (least_squares _ _ _ _) as [res|e]; [|reflexivity].
  destruct (res_success res); reflexivity.
Qed.

Lemma bind_print_peaks {A : Type} (m : M A) (v : list out) (s : Spectra) :
  peaks (snd (bind m (fun _ => print v) s)) = peaks (snd (m s)).
Proof. unfold bind. destruct (m s) as [[a|e] s']; reflexivity. Qed.

(** C2: for a non-empty peak list and a solver that respects its bounds,
    [optimise] gives the solver one height per peak, bounded by 0 and by
    the peak's current height; whatever the outcome (the solver raising,
    failing or succeeding) every peak keeps its mean and standard
    deviation and ends with a height at most its height before the fit;
    after a successful solve the heights are the solver's solution, all
    non-negative. *)
Theorem optimise_heights_never_grow (s : Spectra) (ps : list Peak.t) :
  Spec.solver_respects_bounds ->
  peaks s = Some ps -> ps <> [] ->
  optimise_bounds ps
  = (map Peak.peak ps, map (fun _ => 0) ps, map Peak.peak ps)
  /\
  exists o s' ps',
    optimise s = (o, s') /\
    peaks s' = Some ps' /\
    Forall2 (fun p p' => Peak.mean p' = Peak.mean p
                         /\ Peak.stddev p' = Peak.stddev p
                         /\ Peak.peak p' <= Peak.peak p) ps ps' /\
    forall res,
      least_squares (fun p => fst (_residuals p (solver_state s)))
                    (map Peak.peak ps) (map (fun _ => 0) ps)
                    (map Peak.peak ps) = Ok res ->
      res_success res = true ->
      map Peak.peak ps' = res_x res
      /\ Forall (fun v => 0 <= v) (res_x res).
Proof.
  intros Hsolver Hps Hne. split; [apply optimise_bounds_eq|].
  rewrite (optimise_run s ps Hps Hne).
  destruct (least_squares _ _ _ _) as [res|e] eqn:Ecall.
  - destruct (res_success res) eqn:Esucc.
    + destruct (Hsolver _ _ _ _ _ Ecall Esucc) as [Hlow Hup].
      destruct (update_heights_spec ps (res_x res) Hup) as [Hmap Hkeep].
      assert (Hlen : length (res_x res) = length ps).
      { apply Forall2_length in Hup. now rewrite length_map in Hup. }
      eexists _, _, _. split; [apply surjective_pairing|].
      split.
      { rewrite bind_print_peaks.
        apply (updateModel_peaks _ _ ps); [exact Hps | exact Hlen]. }
      split; [exact Hkeep|].
      intros res' [= <-] _. split; [exact Hmap|].
      clear - Hlow. remember (map (fun _ : Peak.t => 0) ps) as zs eqn:Ez.
      revert ps Ez. induction Hlow as [|z v zs vs Hzv Hlow IH];
        intros ps Ez; [constructor|].
      destruct ps as [|p ps]; [discriminate|]. injection Ez as -> Ez.
      constructor; [exact Hzv | now apply (IH ps)].
    + eexists _, _, ps. split; [reflexivity|]. split; [exact Hps|].
      split; [apply Forall2_keep|]. intros res' [= <-] Hs. congruence.
  - eexists _, _, ps. split; [reflexivity|]. split; [exact Hps|].
    split; [apply Forall2_keep|]. intros res' [=].
Qed.

(** A raising [optimise] has not touched the peaks nor written
    anything, provided the peaks' curves have the shape of the
    histogram. *)
Lemma optimise_raise_keeps_peaks (s s2 : Spectra) (e : exn) :
  Spec.curves_keep_shape ->
  (forall ps p, peaks s = Some ps -> In p ps ->
                length (Peak.Tx p) = length (histogram s)) ->
  optimise s = (Raise e, s2) ->
  peaks s2 = peaks s /\ stderr s2 = stderr s /\ stdout s2 = stdout s.
Proof.
  intros Hcm Hshape Hraise.
  destruct (peaks s) as [[|p0 ps0]|] eqn:Hps;
    try (unfold optimise in Hraise; rewrite bind_gets, Hps in Hraise;
         cbn in Hraise; injection Hraise as _ <-; now rewrite Hps).
  rewrite (optimise_run s _ Hps ltac:(discriminate)) in Hraise.
  destruct (least_squares _ _ _ _) as [res|e'].
  - destruct (res_success res); [|discriminate].
    destruct (Nat.eq_dec (length (res_x res)) (length (p0 :: ps0)))
      as [Hlen | Hlen].
    + exfalso.
      destruct (updateModel_ok (res_x res) (solver_state s) (p0 :: ps0)
                  Hcm Hps Hlen) as (ty & s' & Hrun).
      { intros p Hp. cbn [Tx solver_state set_realTy set_Tx].
        unfold Py.linspace0. rewrite length_map, length_seq.
        now apply (Hshape (p0 :: ps0)). }
      rewrite (bind_run _ _ _ _ _ Hrun) in Hraise. discriminate.
    + rewrite (bind_raise _ _ _ _ _
                 (updateModel_mismatch _ (solver_state s) _ Hps Hlen))
        in Hraise.
      injection Hraise as _ <-.
      split; [exact Hps | split; reflexivity].
  - injection Hraise as _ <-. split; [exact Hps | split; reflexivity].
Qed.

End GlobalFit.

(** ** [Spectra.analyse] *)

Section Analyse.
Context `{External}.
Variable _createInitialPeaks : M unit.

Lemma printPeaks_run (s : Spectra) (ps : list Peak.t) :
  peaks s = Some ps ->
  exists v, printPeaks s = (Ok tt, add_stdout v s).
Proof.
  intros Hps. unfold printPeaks.
  rewrite (bind_run _ _ _ _ _ (peaks_sized_run s ps Hps)).
  destruct (0 <? length ps)%nat; eexists; reflexivity.
Qed.

(** A block guarded by [verbose] only prints. *)
Lemma verbose_block (verbose : bool) (m : M unit) (s : Spectra) :
  (exists s', m s = (Ok tt, s') /\ histogram s' = histogram s
              /\ peaks s' = peaks s /\ stderr s' = stderr s) ->
  exists s', when verbose m s = (Ok tt, s') /\ histogram s' = histogram s
             /\ peaks s' = peaks s /\ stderr s' = stderr s.
Proof.
  intros Hm. destruct verbose; [exact Hm|].
  exists s. repeat split.
Qed.

Lemma analyse_refine_run (min_elements : Q) (verbose : bool) (s0 : Spectra)
    (ps0 : list Peak.t) :
  peaks s0 = Some ps0 ->
  exists s1,
    analyse_refine min_elements verbose s0 = (Ok tt, s1)
    /\ histogram s1 = histogram s0
    /\ stderr s1 = stderr s0
    /\ peaks s1
       = Some (filter (fun p => Qle_bool min_elements (Peak_elements p))
                      (map (Peak_optimise (histogram s0)) ps0)).
Proof.
  intros Hps. unfold analyse_refine.
  match goal with
  | |- context [bind (when verbose ?m) _ s0] =>
      destruct (verbose_block verbose m s0) as (sa & Ha & Hha & Hpa & Hea)
  end.
  { rewrite (bind_run _ _ _ _ _ (peaks_list_run s0 ps0 Hps)).
    unfold print. rewrite bind_modify.
    destruct (printPeaks_run (add_stdout
                 [OutStr "done."%string; OutInt (Z.of_nat (length ps0));
                  OutStr "peaks initially created"%string] s0) ps0 Hps)
      as (v & Hv).
    rewrite (bind_run _ _ _ _ _ Hv).
    eexists. split; [reflexivity|]. repeat split. }
  rewrite (bind_run _ _ _ _ _ Ha).
  rewrite Hps in Hpa.
  rewrite (bind_run _ _ _ _ _ (peaks_list_run sa ps0 Hpa)).
  rewrite bind_gets, bind_modify.
  erewrite (bind_run peaks_list) by (apply peaks_list_run; reflexivity).
  rewrite bind_modify, Hha.
  match goal with
  | |- context [when verbose ?m ?st] =>
      destruct (verbose_block verbose m st) as (sb & Hb & Hhb & Hpb & Heb)
  end.
  { unfold print. rewrite bind_modify.
    match goal with
    | |- context [bind printPeaks _ ?st] =>
        destruct (printPeaks_run st _ eq_refl) as (v & Hv)
    end.
    rewrite (bind_run _ _ _ _ _ Hv).
    eexists. split; [reflexivity|]. repeat split. }
  exists sb. split; [exact Hb|].
  split; [now rewrite Hhb|]. split; [now rewrite Heb|].
  now rewrite Hpb.
Qed.

Lemma analyse_run (min_elements : Q) (verbose : bool) (s s0 : Spectra) :
  _createInitialPeaks
    (if verbose
     then add_stdout [OutStr "Creating initial peaks ... "%string] s
     else s) = (Ok tt, s0) ->
  analyse _createInitialPeaks min_elements verbose s
  = if truthy (peaks s0)
    then bind (analyse_refine min_elements verbose)
              (fun _ => analyse_fit verbose) s0
    else when verbose (print [OutStr "done. No peaks created"%string]) s0.
Proof.
  intros Hcip. unfold analyse.
  assert (Hfirst :
            when verbose
              (print [OutStr "Creating initial peaks ... "%string]) s
            = (Ok tt,
               if verbose
               then add_stdout
                      [OutStr "Creating initial peaks ... "%string] s
               else s))
    by (destruct verbose; reflexivity).
  rewrite (bind_run _ _ _ _ _ Hfirst), (bind_run _ _ _ _ _ Hcip).
  rewrite bind_gets. now destruct (truthy (peaks s0)).
Qed.

(** C4: take a run of [analyse] whose initial peak location returns a
    non-empty peak list, with a peak model that keeps its contracts (curves
    keyed to the histogram's domain).  A global fit that raises is caught:
    [analyse] returns normally, the warning and the exception's text are
    appended to the diagnostic stream, and the peak list is the one that
    local refinement and pruning left.  A solve that does not converge
    raises nothing: the solver returns a result without success,
    [optimise] returns normally, [analyse] returns normally with the same
    peak list and writes nothing to the diagnostic stream. *)
Theorem analyse_survives_failed_fit (min_elements : Q) (verbose : bool)
    (s s0 : Spectra) :
  Spec.curves_keep_shape ->
  Spec.refined_on_domain ->
  _createInitialPeaks
    (if verbose
     then add_stdout [OutStr "Creating initial peaks ... "%string] s
     else s) = (Ok tt, s0) ->
  truthy (peaks s0) = true ->
  let prefit := snd (analyse_refine min_elements verbose s0) in
  (forall e s2,
     optimise prefit = (Raise e, s2) ->
     exists s3,
       analyse _createInitialPeaks min_elements verbose s = (Ok tt, s3)
       /\ peaks s3 = peaks prefit
       /\ stderr s3 = stderr prefit ++ [warning; exn_str e])
  /\
  (forall ps res,
     peaks prefit = Some ps -> ps <> [] ->
     least_squares (fun p => fst (_residuals p (solver_state prefit)))
                   (map Peak.peak ps) (map (fun _ => 0) ps)
                   (map Peak.peak ps) = Ok res ->
     res_success res = false ->
     fst (optimise prefit) = Ok tt
     /\ exists s3,
          analyse _createInitialPeaks min_elements verbose s = (Ok tt, s3)
          /\ peaks s3 = peaks prefit
          /\ stderr s3 = stderr prefit).
Proof.
  intros Hcm Hdom Hcip Htruthy prefit.
  rewrite (analyse_run _ _ _ _ Hcip), Htruthy.
  destruct (peaks s0) as [ps0|] eqn:Hps; [|discriminate].
  destruct (analyse_refine_run min_elements verbose s0 ps0 Hps)
    as (s1 & Hrefine & Hh1 & _ & Hp1).
  assert (Hpre : prefit = s1) by (unfold prefit; now rewrite Hrefine).
  rewrite Hpre. clear prefit Hpre.
  rewrite (bind_run _ _ _ _ _ Hrefine).
  unfold analyse_fit, try_except. split.
  - intros e s2 Hraise.
    assert (Hshape : forall ps p, peaks s1 = Some ps -> In p ps ->
                       length (Peak.Tx p) = length (histogram s1)).
    { intros ps p Hp Hin. rewrite Hp1 in Hp. injection Hp as <-.
      apply filter_In in Hin. destruct Hin as [Hin _].
      apply in_map_iff in Hin. destruct Hin as (q & <- & _).
      rewrite Hh1. apply Hdom. }
    destruct (optimise_raise_keeps_peaks s1 s2 e Hcm Hshape Hraise)
      as (Hpk & Herr & _).
    rewrite (bind_raise _ _ _ _ _ Hraise).
    eexists. split; [reflexivity|].
    cbn [peaks stderr add_stderr]. split; [exact Hpk|].
    rewrite Herr, <- app_assoc. reflexivity.
  - intros ps res Hps1 Hne Hcall Hfail.
    assert (Hopt : optimise s1 = (Ok tt, solver_state s1)).
    { rewrite (optimise_run s1 ps Hps1 Hne), Hcall, Hfail. reflexivity. }
    split; [now rewrite Hopt|].
    rewrite (bind_run _ _ _ _ _ Hopt).
    destruct (verbose_block verbose
                (bind (print [OutStr "done."%string]) (fun _ => printPeaks))
                (solver_state s1)) as (s3 & Hrun & _ & Hp3 & He3).
    { unfold print. rewrite bind_modify.
      destruct (printPeaks_run
                  (add_stdout [OutStr "done."%string] (solver_state s1))
                  ps Hps1) as (v & Hv).
      rewrite Hv. eexists. split; [reflexivity|]. repeat split. }
    rewrite Hrun. exists s3. split; [reflexivity|].
    split; [exact Hp3 | exact He3].
Qed.

End Analyse.

Lemma demo_solver_respects_bounds :
  Spec.solver_respects_bounds (H := Demo.external).
Proof.
  intros f x0 lower upper res Hcall _.
  cbn [least_squares Demo.external] in Hcall.
  unfold Demo.midpoint_solver in Hcall.
  destruct (length lower =? length upper)%nat eqn:El; [|discriminate].
  destruct (forallb _ _) eqn:Ef; [|discriminate].
  injection Hcall as <-. cbn [res_x].
  apply Nat.eqb_eq in El. clear f x0.
  revert upper El Ef.
  induction lower as [|l lower IH]; intros [|u upper] El Ef;
    try discriminate; [split; constructor|].
  cbn [combine forallb fst snd] in Ef. apply andb_prop in Ef.
  destruct Ef as [Hlu Ef]. apply Qltb_iff in Hlu.
  destruct (IH upper ltac:(cbn in El; lia) Ef) as [Hlo Hup].
  cbn [Py.zip_with]. split; constructor; try assumption.
  - apply Qle_shift_div_l; [reflexivity | lra].
  - apply Qle_shift_div_r; [reflexivity | lra].
Qed.

Lemma optimise_heights_never_grow_witness :
  let ps := [Demo.peak_at 10 1000 []; Demo.peak_at 20 400 []] in
  exists o s' ps',
    optimise (H := Demo.external) (Demo.with_peaks ps) = (o, s') /\
    peaks s' = Some ps' /\
    Forall2 (fun p p' => Peak.mean p' = Peak.mean p
                         /\ Peak.stddev p' = Peak.stddev p
                         /\ Peak.peak p' <= Peak.peak p) ps ps'.
Proof.
  intros ps.
  destruct (optimise_heights_never_grow (H := Demo.external)
              (Demo.with_peaks ps) ps demo_solver_respects_bounds eq_refl
              ltac:(discriminate))
    as (_ & o & s' & ps' & Hrun & Hps' & Hkeep & _).
  exists o, s', ps'. repeat split; assumption.
Defined.

Lemma pair_of_fst {A B : Type} (p : A * B) (a : A) :
  fst p = a -> p = (a, snd p).
Proof. destruct p. cbn. now intros ->. Qed.

Lemma demo_refined_on_domain : Spec.refined_on_domain (H := Demo.external).
Proof.
  intros h p. cbn. unfold Py.linspace0. now rewrite length_map, length_seq.
Qed.

Lemma stalled_curves_keep_shape :
  Spec.curves_keep_shape (H := Cases.stalled).
Proof. intros X m sd pk. apply length_map. Qed.

Lemma stalled_refined_on_domain :
  Spec.refined_on_domain (H := Cases.stalled).
Proof.
  intros h p. cbn. unfold Py.linspace0. now rewrite length_map, length_seq.
Qed.

(** C4, the case that the claim calls a raising fit: a solver that does
    not converge.  It returns a result without success, [optimise] returns
    normally and [analyse] ends with an empty diagnostic stream: there is
    no exception to catch and no warning. *)
Lemma analyse_failed_fit_counterexample :
  let cip := KmerSpectra_createInitialPeaks (H := Cases.stalled) in
  let s := KmerSpectra_init Demo.bimodal false 27 in
  let prefit :=
    snd (analyse_refine (H := Cases.stalled) 1 false (snd (cip s))) in
  let ps := match peaks prefit with Some l => l | None => [] end in
  ps <> []
  /\ (exists res,
        least_squares (External := Cases.stalled)
          (fun p => fst (_residuals (H := Cases.stalled) p
                           (solver_state prefit)))
          (map Peak.peak ps) (map (fun _ => 0) ps) (map Peak.peak ps)
        = Ok res
        /\ res_success res = false)
  /\ fst (optimise (H := Cases.stalled) prefit) = Ok tt
  /\ fst (analyse (H := Cases.stalled) cip 1 false s) = Ok tt
  /\ stderr (snd (analyse (H := Cases.stalled) cip 1 false s)) = [].
Proof.
  intros cip s prefit ps. split; [vm_compute; discriminate|].
  split; [eexists; split; reflexivity|].
  split; [vm_compute; reflexivity|].
  split; vm_compute; reflexivity.
Qed.

Lemma analyse_survives_failed_fit_witness :
  (let cip := KmerSpectra_createInitialPeaks (H := Demo.external) in
   let s := KmerSpectra_init Demo.gappy false 27 in
   let prefit :=
     snd (analyse_refine (H := Demo.external) 0 false (snd (cip s))) in
   exists s3,
     analyse (H := Demo.external) cip 0 false s = (Ok tt, s3)
     /\ peaks s3 = peaks prefit
     /\ stderr s3
        = stderr prefit
          ++ [warning;
              "Each lower bound must be strictly less than each upper bound."%string])
  /\
  (let cip := KmerSpectra_createInitialPeaks (H := Cases.stalled) in
   let s := KmerSpectra_init Demo.bimodal false 27 in
   let prefit :=
     snd (analyse_refine (H := Cases.stalled) 1 false (snd (cip s))) in
   exists s3,
     analyse (H := Cases.stalled) cip 1 false s = (Ok tt, s3)
     /\ peaks s3 = peaks prefit
     /\ stderr s3 = stderr prefit).
Proof.
  split.
  - intros cip s prefit.
    destruct (analyse_survives_failed_fit (H := Demo.external) cip 0 false s
                (snd (cip s)) demo_curves_keep_shape demo_refined_on_domain)
      as [Hraise _].
    + apply pair_of_fst. vm_compute. reflexivity.
    + vm_compute. reflexivity.
    + apply (Hraise
               (ValueError
                  "Each lower bound must be strictly less than each upper bound."%string)
               (snd (optimise (H := Demo.external) prefit))).
      apply pair_of_fst. vm_compute. reflexivity.
  - intros cip s prefit.
    set (ps := match peaks prefit with Some l => l | None => [] end).
    destruct (analyse_survives_failed_fit (H := Cases.stalled) cip 1 false s
                (snd (cip s)) stalled_curves_keep_shape
                stalled_refined_on_domain)
      as [_ Hstall].
    + apply pair_of_fst. vm_compute. reflexivity.
    + vm_compute. reflexivity.
    + destruct (Hstall ps
                  {| res_success := false; res_x := map Peak.peak ps;
                     res_nfev := 100 |}) as [_ Hrun].
      * vm_compute. reflexivity.
      * vm_compute. discriminate.
      * reflexivity.
      * reflexivity.
      * exact Hrun.
Defined.

(** * Further properties *)

(** ** [KmerSpectra._createInitialPeaks]: the positions [fmin] and [fmax] *)

Lemma range_cons (a b : Z) :
  (a < b)%Z -> Py.range a b = a :: Py.range (a + 1) b.
Proof.
  intros Hab. unfold Py.range.
  replace (Z.to_nat (b - a)) with (S (Z.to_nat (b - (a + 1)))) by lia.
  cbn [seq map]. rewrite <- seq_shift, map_map. f_equal; [lia|].
  apply map_ext. intros j. lia.
Qed.

Lemma range_nil (a b : Z) : (b <= a)%Z -> Py.range a b = [].
Proof.
  intros Hab. unfold Py.range.
  now replace (Z.to_nat (b - a)) with 0%nat by lia.
Qed.

(** The walk stops at the first local minimum of its range. *)
Lemma find_fmin_first (h : list Q) (s : Spectra) (b : Z) :
  (b + 2 <= Z.of_nat (length h))%Z ->
  forall (n : nat) (a : Z),
    (1 <= a)%Z -> n = Z.to_nat (b - a) ->
    exists r,
      find_fmin h (Py.range a b) s = (Ok r, s) /\
      ((r = 0%Z /\ forall i, (a <= i < b)%Z -> ~ Spec.is_minimum h i)
       \/ ((a <= r < b)%Z /\ Spec.is_minimum h r
           /\ forall i, (a <= i < r)%Z -> ~ Spec.is_minimum h i)).
Proof.
  intros Hb. induction n as [|n IH]; intros a Ha Hn.
  - rewrite range_nil by lia. exists 0%Z. split; [reflexivity|].
    left. split; [reflexivity|]. intros i Hi. lia.
  - rewrite range_cons by lia. cbn [find_fmin].
    rewrite (bind_run _ _ _ _ _ (index_run h a s ltac:(lia))).
    rewrite (bind_run _ _ _ _ _ (index_run h (a + 1) s ltac:(lia))).
    destruct (IH (a + 1)%Z ltac:(lia) ltac:(lia)) as (r & Hr & Hcase).
    assert (Hskip : ~ Spec.is_minimum h a ->
              exists r0,
                find_fmin h (Py.range (a + 1) b) s = (Ok r0, s) /\
                (r0 = 0%Z /\
                 (forall i, (a <= i < b)%Z -> ~ Spec.is_minimum h i)
                 \/ (a <= r0 < b)%Z /\ Spec.is_minimum h r0 /\
                    (forall i, (a <= i < r0)%Z -> ~ Spec.is_minimum h i))).
    { intros Hna. exists r. split; [exact Hr|].
      destruct Hcase as [[-> Hnone] | (Hin & Hmin & Hbefore)].
      - left. split; [reflexivity|]. intros i Hi.
        destruct (Z.eq_dec i a) as [-> | Hne]; [exact Hna|].
        apply Hnone. lia.
      - right. split; [lia|]. split; [exact Hmin|]. intros i Hi.
        destruct (Z.eq_dec i a) as [-> | Hne]; [exact Hna|].
        apply Hbefore. lia. }
    destruct (Py.Qltb (Spec.at_bin h a) (Spec.at_bin h (a + 1))) eqn:E1.
    + rewrite (bind_run _ _ _ _ _ (index_run h (a + 2) s ltac:(lia))).
      destruct (Py.Qltb (Spec.at_bin h a) (Spec.at_bin h (a + 2))) eqn:E2.
      * exists a. split; [reflexivity|]. right.
        apply Qltb_iff in E1, E2. split; [lia|]. split; [now split|].
        intros i Hi. lia.
      * apply Hskip. intros [_ Hc]. apply Qltb_false_iff in E2. lra.
    + apply Hskip. intros [Hc _]. apply Qltb_false_iff in E1. lra.
Qed.

(** [argmax_from] keeps the first position of the largest value seen. *)
Lemma argmax_from_spec (l : list Q) :
  forall (rest : list Q) (best : Q) (besti i : nat),
    (besti < i)%nat -> (i + length rest = length l)%nat ->
    (forall j, (j < length rest)%nat -> nth j rest 0 = nth (i + j) l 0) ->
    best = nth besti l 0 ->
    (forall j, (j < i)%nat -> nth j l 0 <= best) ->
    (forall j, (j < besti)%nat -> nth j l 0 < best) ->
    let r := Z.to_nat (Py.argmax_from best (Z.of_nat besti) (Z.of_nat i) rest)
    in
    Py.argmax_from best (Z.of_nat besti) (Z.of_nat i) rest = Z.of_nat r /\
    (r < length l)%nat /\
    (forall j, (j < length l)%nat -> nth j l 0 <= nth r l 0) /\
    (forall j, (j < r)%nat -> nth j l 0 < nth r l 0).
Proof.
  induction rest as [|v rest IH]; intros best besti i Hbi Hlen Hnth Hbest
    Hmax Hfirst.
  - cbn [Py.argmax_from]. rewrite Nat2Z.id. cbn [length] in Hlen.
    split; [reflexivity|]. split; [lia|]. rewrite <- Hbest.
    split; [intros j Hj; apply Hmax; lia | exact Hfirst].
  - cbn [Py.argmax_from]. cbn [length] in Hlen.
    assert (Hv : v = nth i l 0).
    { pose proof (Hnth 0%nat ltac:(cbn; lia)) as E0.
      cbn [nth] in E0. now rewrite Nat.add_0_r in E0. }
    assert (Hrest : forall j, (j < length rest)%nat ->
                              nth j rest 0 = nth (S i + j) l 0).
    { intros j Hj. pose proof (Hnth (S j) ltac:(cbn; lia)) as Ej.
      cbn [nth] in Ej. rewrite Ej. f_equal. lia. }
    replace (Z.of_nat i + 1)%Z with (Z.of_nat (S i)) by lia.
    destruct (Py.Qltb best v) eqn:E.
    + apply Qltb_iff in E. rewrite Hv in E.
      apply (IH v i (S i)); try lia; try assumption.
      * intros j Hj. rewrite Hv.
        destruct (Nat.eq_dec j i) as [Heq | Hne].
        -- subst j. apply Qle_refl.
        -- specialize (Hmax j ltac:(lia)). lra.
      * intros j Hj. rewrite Hv. specialize (Hmax j Hj). lra.
    + apply Qltb_false_iff in E. rewrite Hv in E.
      apply (IH best besti (S i)); try lia; try assumption.
      intros j Hj. destruct (Nat.eq_dec j i) as [Heq | Hne].
      * subst j. exact E.
      * apply Hmax. lia.
Qed.

Lemma argmax_spec (l : list Q) :
  l <> [] ->
  exists r : nat,
    Py.argmax l = Ok (Z.of_nat r) /\ (r < length l)%nat /\
    (forall j, (j < length l)%nat -> nth j l 0 <= nth r l 0) /\
    (forall j, (j < r)%nat -> nth j l 0 < nth r l 0).
Proof.
  destruct l as [|v rest]; [contradiction|]. intros _.
  assert (Hmax0 : forall j, (j < 1)%nat -> nth j (v :: rest) 0 <= v).
  { intros [|j] Hj; [apply Qle_refl | lia]. }
  assert (Hfirst0 : forall j, (j < 0)%nat -> nth j (v :: rest) 0 < v)
    by (intros j Hj; lia).
  destruct (argmax_from_spec (v :: rest) rest v 0 1 ltac:(lia) eq_refl
              (fun j _ => eq_refl) eq_refl Hmax0 Hfirst0)
    as (Hr & Hlt & Hmax & Hf).
  eexists. split; [cbn [Py.argmax]; f_equal; exact Hr|].
  split; [exact Hlt|]. split; assumption.
Qed.

Lemma located_unique (h : list Q) (a b a' b' : Z) :
  located h a b -> located h a' b' -> a = a' /\ b = b'.
Proof.
  intros [(-> & -> & Hnone) | (Ha & Hmin & Hfirst & Hb & Hmax & Hlt)]
         [(-> & -> & Hnone') | (Ha' & Hmin' & Hfirst' & Hb' & Hmax' & Hlt')].
  - split; reflexivity.
  - exfalso. apply (Hnone a'); assumption.
  - exfalso. apply (Hnone' a); assumption.
  - assert (Haa : a = a').
    { destruct (Z.lt_trichotomy a a') as [Hl | [He | Hg]]; [|exact He|].
      - exfalso. apply (Hfirst' a); [lia | exact Hmin].
      - exfalso. apply (Hfirst a'); [lia | exact Hmin']. }
    subst a'. split; [reflexivity|].
    destruct (Z.lt_trichotomy b b') as [Hl | [He | Hg]]; [|exact He|].
    + exfalso. specialize (Hlt' b ltac:(lia)).
      specialize (Hmax b' ltac:(lia)). lra.
    + exfalso. specialize (Hlt b' ltac:(lia)).
      specialize (Hmax' b ltac:(lia)). lra.
Qed.

Section Positions.
Context `{External}.

(** What one call does to the object, with the two positions
    characterised. *)
Lemma createInitialPeaks_located (s : Spectra) :
  exists fmin' fmax',
    KmerSpectra_createInitialPeaks s
    = (Ok tt,
       set_peaks
         (if (fmax' <? 10)%Z then None
          else Some (map (emit (histogram s) fmax')
                         (filter (accepts (histogram s) fmin')
                                 (Spec.candidates (haploid s) fmax'))))
         (set_fmax fmax' (set_fmin fmin' s)))
    /\ located (histogram s) fmin' fmax'.
Proof.
  unfold KmerSpectra_createInitialPeaks. rewrite bind_gets.
  set (h := histogram s).
  destruct (find_fmin_first h s (Z.of_nat (length h) - 2) ltac:(lia)
              (Z.to_nat (Z.of_nat (length h) - 2 - 1)) 1 ltac:(lia) eq_refl)
    as (r & Hr & Hcase).
  rewrite (bind_run _ _ _ _ _ Hr).
  destruct Hcase as [[-> Hnone] | (Hin & Hmin & Hfirst)].
  - exists 0%Z, 0%Z. split; [reflexivity|]. left. repeat split. exact Hnone.
  - destruct (Z.eqb_spec r 0) as [E | _]; [lia|].
    assert (Hslice : Py.slice_from h r = skipn (Z.to_nat r) h).
    { unfold Py.slice_from. destruct (Z.ltb_spec r 0); [lia|].
      f_equal. lia. }
    destruct (argmax_spec (Py.slice_from h r)) as (m & Hm & Hml & Hmax & Hlt).
    { rewrite Hslice. intros E. apply (f_equal (@length Q)) in E.
      rewrite length_skipn in E. cbn in E. lia. }
    rewrite Hslice in *. rewrite length_skipn in Hml, Hmax.
    rewrite Hm. unfold lift. cbn [bind ret modify].
    set (fm := (Z.of_nat m + r)%Z).
    assert (Hat : forall j, (j < length h - Z.to_nat r)%nat ->
                    nth j (skipn (Z.to_nat r) h) 0
                    = Spec.at_bin h (Z.of_nat j + r)).
    { intros j Hj. rewrite nth_skipn. unfold Spec.at_bin. f_equal. lia. }
    assert (Hloc : located h r fm).
    { right. split; [exact Hin|]. split; [exact Hmin|].
      split; [exact Hfirst|].
      assert (Hm0 : m <> 0%nat).
      { intros ->. specialize (Hmax 1%nat ltac:(lia)).
        rewrite (Hat 1%nat), (Hat 0%nat) in Hmax by lia.
        destruct Hmin as [Hmin _].
        replace (Z.of_nat 1 + r)%Z with (r + 1)%Z in Hmax by lia.
        replace (Z.of_nat 0 + r)%Z with r in Hmax by lia. lra. }
      split; [unfold fm; lia|]. split.
      - intros j Hj. specialize (Hmax (Z.to_nat (j - r)) ltac:(lia)).
        rewrite !Hat in Hmax by lia. unfold fm.
        now replace (Z.of_nat (Z.to_nat (j - r)) + r)%Z with j in Hmax by lia.
      - intros j Hj. unfold fm in Hj.
        specialize (Hlt (Z.to_nat (j - r)) ltac:(lia)).
        rewrite !Hat in Hlt by lia. unfold fm.
        now replace (Z.of_nat (Z.to_nat (j - r)) + r)%Z with j in Hlt by lia. }
    exists r, fm. split; [|exact Hloc].
    destruct (Z.ltb_spec fm 10) as [Hlo | Hhi]; [reflexivity|].
    cbn [bind gets haploid set_fmax set_fmin].
    rewrite frequencies_candidates.
    rewrite (bind_run _ _ _ _ _
               (candidate_loop_run h r fm _ [] _ ltac:(lia)
                  (fun mu => candidates_nonneg _ fm mu ltac:(lia)))).
    reflexivity.
Qed.

End Positions.

Lemma getitem_some (l : list Q) (j : Z) (w : Q) :
  (0 <= j)%Z -> Py.getitem l j = Some w ->
  (j < Z.of_nat (length l))%Z /\ w = Spec.at_bin l j.
Proof.
  intros Hj Hget. unfold Py.getitem in Hget.
  destruct (Z.ltb_spec j 0); [lia|].
  destruct (Z.leb_spec 0 j); [|lia].
  destruct (Z.ltb_spec j (Z.of_nat (length l))); [|discriminate].
  split; [assumption|]. unfold Spec.at_bin.
  cbn [andb] in Hget. symmetry. now apply nth_error_nth.
Qed.

Section PositionsProperties.
Context `{External}.

(** X1: [_createInitialPeaks] stores in [fmin] the first bin [i >= 1]
    (with [i + 2] inside the histogram) whose value is below the values of
    the next two bins, and 0 exactly when the scanned range has no such
    bin. *)
Theorem createInitialPeaks_first_minimum (s : Spectra) :
  exists s',
    KmerSpectra_createInitialPeaks s = (Ok tt, s') /\
    ((fmin s' = 0%Z
      /\ forall i, (1 <= i < Z.of_nat (length (histogram s)) - 2)%Z ->
                   ~ Spec.is_minimum (histogram s) i)
     \/
     ((1 <= fmin s' < Z.of_nat (length (histogram s)) - 2)%Z
      /\ Spec.is_minimum (histogram s) (fmin s')
      /\ forall i, (1 <= i < fmin s')%Z ->
                   ~ Spec.is_minimum (histogram s) i)).
Proof.
  destruct (createInitialPeaks_located s) as (a & b & Hrun & Hloc).
  eexists. split; [exact Hrun|]. cbn [fmin set_peaks set_fmax set_fmin].
  destruct Hloc as [(-> & _ & Hnone) | (Ha & Hmin & Hfirst & _)].
  - left. split; [reflexivity | exact Hnone].
  - right. split; [exact Ha|]. split; [exact Hmin | exact Hfirst].
Qed.

(** X2: when [_createInitialPeaks] has found a minimum, [fmax] lies
    strictly after [fmin] inside the histogram, and [maxValue()] then
    returns the histogram value at [fmax], which is at least every value
    from [fmin] on and strictly above every value between [fmin] and
    [fmax]. *)
Theorem createInitialPeaks_maxValue (s : Spectra) :
  exists s',
    KmerSpectra_createInitialPeaks s = (Ok tt, s') /\
    (fmin s' <> 0%Z ->
     (fmin s' < fmax s' < Z.of_nat (length (histogram s)))%Z /\
     exists v,
       maxValue s' = (Ok v, s') /\
       Py.getitem (histogram s) (fmax s') = Some v /\
       (forall j w, (fmin s' <= j)%Z ->
                    Py.getitem (histogram s) j = Some w -> w <= v) /\
       (forall j w, (fmin s' <= j < fmax s')%Z ->
                    Py.getitem (histogram s) j = Some w -> w < v)).
Proof.
  destruct (createInitialPeaks_located s) as (a & b & Hrun & Hloc).
  eexists. split; [exact Hrun|].
  cbn [fmin fmax set_peaks set_fmax set_fmin]. intros Hne.
  destruct Hloc as [(-> & _) | (Ha & _ & _ & Hb & Hmax & Hlt)];
    [contradiction|].
  split; [exact Hb|]. exists (Spec.at_bin (histogram s) b).
  split; [|split; [|split]].
  - unfold maxValue. rewrite !bind_gets.
    cbn [histogram fmax set_peaks set_fmax set_fmin].
    apply index_run. lia.
  - rewrite getitem_in_range by lia. apply nth_error_nth'. lia.
  - intros j w Hj Hget.
    destruct (getitem_some (histogram s) j w ltac:(lia) Hget) as [Hjl ->].
    apply Hmax. lia.
  - intros j w Hj Hget.
    destruct (getitem_some (histogram s) j w ltac:(lia) Hget) as [Hjl ->].
    apply Hlt. lia.
Qed.

(** X3: [_createInitialPeaks] only writes [fmin], [fmax] and [peaks], and
    a second call on the resulting object changes nothing. *)
Theorem createInitialPeaks_idempotent (s : Spectra) :
  exists s',
    KmerSpectra_createInitialPeaks s = (Ok tt, s') /\
    KmerSpectra_createInitialPeaks s' = (Ok tt, s') /\
    histogram s' = histogram s /\ k s' = k s /\ haploid s' = haploid s /\
    Tx s' = Tx s /\ Ty s' = Ty s /\ realTy s' = realTy s /\
    stdout s' = stdout s /\ stderr s' = stderr s.
Proof.
  destruct (createInitialPeaks_located s) as (a & b & Hrun & Hloc).
  eexists. split; [exact Hrun|]. split; [|repeat split].
  match goal with |- KmerSpectra_createInitialPeaks ?t = _ =>
    destruct (createInitialPeaks_located t) as (a' & b' & Hrun' & Hloc')
  end.
  cbn [histogram haploid set_peaks set_fmax set_fmin] in Hrun', Hloc'.
  destruct (located_unique _ _ _ _ _ Hloc Hloc') as [<- <-].
  exact Hrun'.
Qed.

(** X4: called without a frequency right after [_createInitialPeaks]
    (with [fmax >= 10]), [getHomozygousPeakIndex] returns 0 exactly when no
    peak is flagged primary, and otherwise the 1-based index of the primary
    peak, whose mean is [fmax]. *)
Theorem createInitialPeaks_then_homozygous (s : Spectra) :
  exists s',
    KmerSpectra_createInitialPeaks s = (Ok tt, s') /\
    ((10 <= fmax s')%Z ->
     exists ps r,
       peaks s' = Some ps /\
       getHomozygousPeakIndex 0 s' = (Ok r, s') /\
       ((r = 0%Z /\ Forall (fun p => Peak.primary p = false) ps)
        \/ ((1 <= r)%Z /\
            exists p, nth_error ps (Z.to_nat (r - 1)) = Some p
                      /\ Peak.primary p = true
                      /\ Peak.mean p = inject_Z (fmax s')))).
Proof.
  destruct (createInitialPeaks_located s) as (a & b & Hrun & Hloc).
  eexists. split; [exact Hrun|].
  cbn [fmax peaks set_peaks set_fmax set_fmin]. intros Hb.
  destruct (Z.ltb_spec b 10) as [Hlo | _]; [lia|].
  set (ps := map _ _).
  assert (Hint : forall p, In p ps ->
            exists m : Z, Peak.mean p = inject_Z m
                          /\ (Peak.primary p = true <-> m = b)).
  { intros p Hp. apply in_map_iff in Hp. destruct Hp as (mu & <- & _).
    exists (Py.int mu). split; [reflexivity|]. cbn. apply Z.eqb_eq. }
  assert (Hnear : forall p, In p ps ->
            (Spec.dist (inject_Z b) p < 1 <-> Peak.primary p = true)).
  { intros p Hp. destruct (Hint p Hp) as (m & Hm & Hprim).
    unfold Spec.dist. rewrite Hm, Hprim.
    unfold Qlt, Qabs, Qminus, Qplus, Qopp, inject_Z. cbn [Qnum Qden]. lia. }
  exists ps.
  match goal with |- context [getHomozygousPeakIndex 0 ?t] =>
    pose proof (getHomozygousPeakIndex_run 0 t ps eq_refl) as Hget
  end.
  cbn [Py.Qltb Qle_bool negb fmax set_peaks set_fmax set_fmin] in Hget.
  eexists. split; [reflexivity|]. split; [exact Hget|].
  destruct (primary_loop_spec b ps 1 ltac:(lia))
    as [[Hr Hall] | (Hr & p & Hp & Hin & _)].
  - left. split; [exact Hr|]. rewrite Forall_forall in *.
    intros p Hp. specialize (Hall p Hp).
    destruct (Peak.primary p) eqn:E; [|reflexivity].
    exfalso. apply Hall. now apply Hnear.
  - right. split; [exact Hr|]. exists p. split; [exact Hp|].
    pose proof (nth_error_In _ _ Hp) as Hpin.
    split; [now apply Hnear|].
    destruct (Hint p Hpin) as (m & Hm & Hprim).
    rewrite Hm. f_equal. apply Hprim. now apply Hnear.
Qed.

End PositionsProperties.

Lemma createInitialPeaks_maxValue_witness :
  exists s' v,
    KmerSpectra_createInitialPeaks (H := Demo.external)
      (KmerSpectra_init Demo.bimodal false 27) = (Ok tt, s')
    /\ fmin s' <> 0%Z /\ maxValue s' = (Ok v, s').
Proof.
  destruct (createInitialPeaks_maxValue (H := Demo.external)
              (KmerSpectra_init Demo.bimodal false 27))
    as (s' & Hrun & Hrest).
  assert (Hfm : fmin s' <> 0%Z).
  { replace s' with
      (snd (KmerSpectra_createInitialPeaks (H := Demo.external)
              (KmerSpectra_init Demo.bimodal false 27)))
      by (rewrite Hrun; reflexivity).
    vm_compute. discriminate. }
  destruct (Hrest Hfm) as (_ & v & Hmax & _).
  exists s', v. repeat split; assumption.
Defined.

Lemma createInitialPeaks_then_homozygous_witness :
  exists s' r,
    KmerSpectra_createInitialPeaks (H := Demo.external)
      (KmerSpectra_init Demo.bimodal false 27) = (Ok tt, s')
    /\ (10 <= fmax s')%Z
    /\ getHomozygousPeakIndex 0 s' = (Ok r, s').
Proof.
  destruct (createInitialPeaks_then_homozygous (H := Demo.external)
              (KmerSpectra_init Demo.bimodal false 27))
    as (s' & Hrun & Hrest).
  assert (Hfm : (10 <= fmax s')%Z).
  { replace s' with
      (snd (KmerSpectra_createInitialPeaks (H := Demo.external)
              (KmerSpectra_init Demo.bimodal false 27)))
      by (rewrite Hrun; reflexivity).
    vm_compute. discriminate. }
  destruct (Hrest Hfm) as (ps & r & _ & Hget & _).
  exists s', r. repeat split; assumption.
Defined.

(** ** [GCSpectra._createInitialPeaks] *)

Lemma range_sorted (a b : Z) : StronglySorted Z.lt (Py.range a b).
Proof.
  remember (Z.to_nat (b - a)) as n eqn:Hn. revert a Hn.
  induction n as [|n IH]; intros a Hn.
  - rewrite range_nil by lia. constructor.
  - rewrite range_cons by lia. constructor; [apply IH; lia|].
    apply Forall_forall. intros i Hi. apply range_In in Hi. lia.
Qed.

Section GCPeaks.
Context `{External}.

(** Window 3: a short input is returned as it is, a longer one gains two
    samples. *)
Lemma smooth3_shape (x : list Q) :
  exists y, smooth x 3 = Ok y /\
            ((length x < 3)%nat /\ y = x
             \/ (3 <= length x)%nat /\ length y = (length x + 2)%nat).
Proof.
  destruct (Nat.lt_ge_cases (length x) 3) as [Hshort | Hlong].
  - exists x. split; [|left; now split].
    unfold smooth. destruct (Z.ltb_spec (Z.of_nat (length x)) 3); [|lia].
    reflexivity.
  - rewrite smooth_unfold by lia. eexists. split; [reflexivity|]. right.
    split; [exact Hlong|].
    rewrite length_map, windows_length by lia.
    destruct (smooth_padding_length x 3 ltac:(lia)) as [Hl Hr].
    rewrite !length_app, Hl, Hr. lia.
Qed.

(** The indices that [argrelextrema] reports: interior strict local
    maxima, in increasing order. *)
Lemma argrelextrema_spec (a : list Q) :
  exists idxs,
    argrelextrema_greater a = [idxs] /\
    StronglySorted Z.lt idxs /\
    forall i, In i idxs <->
      (1 <= i <= Z.of_nat (length a) - 2)%Z
      /\ Spec.at_bin a (i + 1) < Spec.at_bin a i
      /\ Spec.at_bin a (i - 1) < Spec.at_bin a i.
Proof.
  eexists. split; [reflexivity|]. split.
  - apply sorted_filter, range_sorted.
  - intros i. rewrite filter_In, range_In, andb_true_iff, !Qltb_iff.
    unfold Spec.at_bin, clip.
    set (n := Z.of_nat (length a)).
    split.
    + intros (Hi & Hup & Hdown).
      destruct (Z.eq_dec i 0) as [Hi0 | Hi0].
      { exfalso.
        replace (Z.to_nat (Z.max 0 (Z.min (i - 1) (n - 1))))
          with (Z.to_nat (Z.max 0 (Z.min i (n - 1)))) in Hdown by lia.
        exact (Qlt_irrefl _ Hdown). }
      destruct (Z.eq_dec i (n - 1)) as [Hin | Hin].
      { exfalso.
        replace (Z.to_nat (Z.max 0 (Z.min (i + 1) (n - 1))))
          with (Z.to_nat (Z.max 0 (Z.min i (n - 1)))) in Hup by lia.
        exact (Qlt_irrefl _ Hup). }
      split; [lia|].
      replace (Z.max 0 (Z.min (i + 1) (n - 1))) with (i + 1)%Z in Hup by lia.
      replace (Z.max 0 (Z.min (i - 1) (n - 1))) with (i - 1)%Z in Hdown
        by lia.
      replace (Z.max 0 (Z.min i (n - 1))) with i in Hup, Hdown by lia.
      split; assumption.
    + intros (Hi & Hup & Hdown). split; [lia|].
      replace (Z.max 0 (Z.min (i + 1) (n - 1))) with (i + 1)%Z by lia.
      replace (Z.max 0 (Z.min (i - 1) (n - 1))) with (i - 1)%Z by lia.
      replace (Z.max 0 (Z.min i (n - 1))) with i by lia.
      split; assumption.
Qed.

Lemma gc_loop_run (h : list Q) (kk top : Z) (s : Spectra) (mus : list Z)
    (acc : list Peak.t) :
  (forall mu, In mu mus -> (1 <= mu <= Z.of_nat (length h))%Z) ->
  (h <> [] -> Py.argmax h = Ok top) ->
  gc_loop h kk 3 mus acc s
  = (Ok (acc ++ map (gc_emit h top) (filter (gc_accepts kk) mus)), s).
Proof.
  intros Hmus Htop. revert acc.
  induction mus as [|mu mus IH]; intros acc.
  - cbn. now rewrite app_nil_r.
  - cbn [gc_loop filter].
    assert (Hrest : forall m, In m mus -> (1 <= m <= Z.of_nat (length h))%Z)
      by (intros m Hm; apply Hmus; now right).
    specialize (IH Hrest).
    change (Py.int (2 * 2)) with 4%Z. fold (gc_accepts kk mu).
    destruct (gc_accepts kk mu) eqn:E; [|apply IH].
    specialize (Hmus mu (or_introl eq_refl)).
    rewrite (bind_run _ _ _ _ _ (index_run h (mu - 3 + 2) s ltac:(lia))).
    rewrite Htop by (intros ->; cbn in Hmus; lia).
    unfold lift. cbn [bind]. rewrite IH. cbn [map].
    now rewrite <- app_assoc.
Qed.

(** What one call does to the object. *)
Lemma GC_createInitialPeaks_run (s : Spectra) :
  exists y idxs top,
    smooth (histogram s) 3 = Ok y /\
    argrelextrema_greater y = [idxs] /\
    (histogram s <> [] -> Py.argmax (histogram s) = Ok top) /\
    (forall mu, In mu idxs -> (1 <= mu <= Z.of_nat (length (histogram s)))%Z) /\
    GCSpectra_createInitialPeaks s
    = (Ok tt,
       set_peaks (Some (map (gc_emit (histogram s) top)
                            (filter (gc_accepts (k s)) idxs))) s).
Proof.
  destruct (smooth3_shape (histogram s)) as (y & Hy & Hshape).
  destruct (argrelextrema_spec y) as (idxs & Hidx & _ & Hin).
  assert (Htop : exists top, histogram s <> [] ->
                             Py.argmax (histogram s) = Ok top).
  { destruct (histogram s) as [|v rest] eqn:Eh.
    - exists 0%Z. intros Hne. contradiction.
    - destruct (argmax_spec (v :: rest) ltac:(discriminate)) as (r & Hr & _).
      exists (Z.of_nat r). intros _. exact Hr. }
  destruct Htop as (top & Htop).
  assert (Hrange : forall mu, In mu idxs ->
                     (1 <= mu <= Z.of_nat (length (histogram s)))%Z).
  { intros mu Hmu. apply Hin in Hmu. destruct Hmu as [Hmu _].
    destruct Hshape as [[Hshort ->] | [Hlong Hlen]]; lia. }
  exists y, idxs, top. repeat (split; [assumption|]).
  unfold GCSpectra_createInitialPeaks. rewrite bind_gets, Hy.
  unfold lift at 1. cbn [bind]. rewrite Hidx. cbn [length Nat.eqb nth].
  rewrite bind_gets.
  rewrite (bind_run _ _ _ _ _
             (gc_loop_run (histogram s) (k s) top s idxs [] Hrange Htop)).
  reflexivity.
Qed.

(** X5: [GCSpectra._createInitialPeaks] always returns, never leaves
    [self.peaks] at [None] (the tuple returned by [argrelextrema] is never
    empty, so without any maximum the list is empty instead) and writes
    nothing else; the list is empty whenever [k <= 9] or the histogram has
    at most 5 bins. *)
Theorem GC_createInitialPeaks_never_none (s : Spectra) :
  exists ps,
    GCSpectra_createInitialPeaks s = (Ok tt, set_peaks (Some ps) s) /\
    ((k s <= 9)%Z \/ (length (histogram s) <= 5)%nat -> ps = []).
Proof.
  destruct (GC_createInitialPeaks_run s)
    as (y & idxs & top & _ & _ & _ & Hrange & Hrun).
  eexists. split; [exact Hrun|]. intros Hsmall.
  destruct (filter (gc_accepts (k s)) idxs) as [|mu rest] eqn:Ef;
    [reflexivity|].
  exfalso.
  assert (Hmu : In mu (filter (gc_accepts (k s)) idxs))
    by (rewrite Ef; now left).
  apply filter_In in Hmu. destruct Hmu as [Hmu Hacc].
  specialize (Hrange mu Hmu). unfold gc_accepts in Hacc.
  apply andb_prop in Hacc. destruct Hacc as [Hlo Hhi].
  apply Z.ltb_lt in Hlo, Hhi. lia.
Qed.

(** X6: the peaks that [GCSpectra._createInitialPeaks] creates sit exactly
    at the bins [m] with [m - 4 > 0] and [m + 4 < k] for which the smoothed
    histogram, the array of doubles that [smooth] returns, has a strict
    local maximum at index [m + 1] (a plateau of the exact moving average
    can be such a maximum after rounding); each has
    standard deviation 2, the histogram value at [m] as height (the index
    is always inside the histogram) and is primary iff [m] is the position
    of the histogram's largest value. *)
Theorem GC_createInitialPeaks_peaks (s : Spectra) :
  exists ps y,
    GCSpectra_createInitialPeaks s = (Ok tt, set_peaks (Some ps) s) /\
    smooth (histogram s) 3 = Ok y /\
    (forall m : Z,
        (exists p, In p ps /\ Peak.mean p = inject_Z m) <->
        ((4 < m)%Z /\ (m + 4 < k s)%Z
         /\ (1 <= m + 1 <= Z.of_nat (length y) - 2)%Z
         /\ Spec.at_bin y m < Spec.at_bin y (m + 1)
         /\ Spec.at_bin y (m + 2) < Spec.at_bin y (m + 1))) /\
    (forall p, In p ps ->
       exists m : Z,
         Peak.mean p = inject_Z m /\ Peak.stddev p = 2 /\
         Py.getitem (histogram s) m = Some (Peak.peak p) /\
         (Peak.primary p = true <-> Py.argmax (histogram s) = Ok m)).
Proof.
  destruct (GC_createInitialPeaks_run s)
    as (y & idxs & top & Hy & Hidx & Htop & Hrange & Hrun).
  destruct (argrelextrema_spec y) as (idxs' & Hidx' & _ & Hin).
  rewrite Hidx in Hidx'. injection Hidx' as <-.
  eexists _, y. split; [exact Hrun|]. split; [exact Hy|].
  assert (Hacc : forall mu, gc_accepts (k s) mu = true <->
                            (4 < mu - 1)%Z /\ (mu - 1 + 4 < k s)%Z).
  { intros mu. unfold gc_accepts. rewrite andb_true_iff, !Z.ltb_lt. lia. }
  split.
  - intros m. split.
    + intros (p & Hp & Hm). apply in_map_iff in Hp.
      destruct Hp as (mu & <- & Hmu). apply filter_In in Hmu.
      destruct Hmu as [Hmu Hok]. apply Hacc in Hok.
      cbn [gc_emit Peak.mean Peak.new] in Hm. injection Hm as Hm.
      assert (Em : mu = (m + 1)%Z) by lia. subst mu.
      apply Hin in Hmu. destruct Hmu as (Hr & Hup & Hdown).
      replace (m + 1 + 1)%Z with (m + 2)%Z in Hup by lia.
      replace (m + 1 - 1)%Z with m in Hdown by lia.
      repeat split; try assumption; lia.
    + intros (Hlo & Hhi & Hr & Hdown & Hup).
      exists (gc_emit (histogram s) top (m + 1)). split.
      * apply in_map, filter_In. split; [|apply Hacc; lia].
        apply Hin. split; [exact Hr|].
        replace (m + 1 + 1)%Z with (m + 2)%Z by lia.
        replace (m + 1 - 1)%Z with m by lia. now split.
      * cbn [gc_emit Peak.mean Peak.new]. f_equal. lia.
  - intros p Hp. apply in_map_iff in Hp. destruct Hp as (mu & <- & Hmu).
    apply filter_In in Hmu. destruct Hmu as [Hmu Hok]. apply Hacc in Hok.
    specialize (Hrange mu Hmu).
    exists (mu - 3 + 2)%Z. split; [reflexivity|]. split; [reflexivity|].
    cbn [gc_emit Peak.peak Peak.primary Peak.new]. split.
    + rewrite getitem_in_range by lia. apply nth_error_nth'. lia.
    + rewrite Htop by (intros E; rewrite E in Hrange; cbn in Hrange; lia).
      rewrite Z.eqb_eq. split; [now intros -> | now intros [= ->]].
Qed.

(** X7: the peaks of [GCSpectra._createInitialPeaks] are in strictly
    increasing order of their means, and at most one of them is flagged
    primary. *)
Theorem GC_createInitialPeaks_order (s : Spectra) :
  exists ps,
    GCSpectra_createInitialPeaks s = (Ok tt, set_peaks (Some ps) s) /\
    StronglySorted (fun p q => Peak.mean p < Peak.mean q) ps /\
    (forall p q, In p ps -> In q ps ->
                 Peak.primary p = true -> Peak.primary q = true -> p = q).
Proof.
  destruct (GC_createInitialPeaks_run s)
    as (y & idxs & top & _ & Hidx & _ & _ & Hrun).
  destruct (argrelextrema_spec y) as (idxs' & Hidx' & Hsorted & _).
  rewrite Hidx in Hidx'. injection Hidx' as <-.
  eexists. split; [exact Hrun|]. split.
  - apply (sorted_map (fun p q => Peak.mean p < Peak.mean q)
                      (gc_emit (histogram s) top)).
    apply (sorted_impl_in Z.lt).
    + intros a b _ _ Hab. cbn [gc_emit Peak.mean Peak.new].
      rewrite <- Zlt_Qlt. lia.
    + now apply sorted_filter.
  - intros p q Hp Hq Hpp Hqp.
    apply in_map_iff in Hp, Hq.
    destruct Hp as (mu & <- & _), Hq as (mu' & <- & _).
    cbn [gc_emit Peak.primary Peak.new] in Hpp, Hqp.
    apply Z.eqb_eq in Hpp, Hqp.
    assert (E : mu = mu') by lia. now subst mu'.
Qed.

End GCPeaks.

(** The rounded plateau: the exact moving average of [0, 0, 0, 0, 0, 3, 3, 1]
    is flat at 7/3 from index 7 on, the doubles are 2.3333333333333335,
    2.333333333333333, 2.333333333333333, and a peak is created at bin 6. *)
Lemma GC_createInitialPeaks_rounded_plateau :
  peaks (snd (GCSpectra_createInitialPeaks (H := Demo.external)
                (KmerSpectra_init (map inject_Z [0; 0; 0; 0; 0; 3; 3; 1]%Z)
                                  false 27)))
  = Some [Peak.new 6 2 3 false].
Proof. vm_compute. reflexivity. Qed.

(** ** [smooth]: the values *)

Lemma total_bounds (lo hi : Q) (l : list Q) :
  Forall (fun v => lo <= v <= hi) l ->
  inject_Z (Z.of_nat (length l)) * lo <= Spec.total l
  /\ Spec.total l <= inject_Z (Z.of_nat (length l)) * hi.
Proof.
  induction 1 as [|v l Hv Hl IH].
  - cbn [Spec.total length]. change (inject_Z (Z.of_nat 0)) with 0.
    split; lra.
  - cbn [Spec.total length]. rewrite inject_Z_S. destruct IH. split; lra.
Qed.

Section SmoothValues.
Context `{External}.

(** X8: for a window of at least 3 and an input at least as long, output
    sample [j] (for [window_len - 1 <= j < len(x)]) is the dot product of
    the [window_len] input samples that end at [x[j]] with the kernel of
    doubles [1 / window_len], so the output is shifted by
    [(window_len - 1) / 2] against the input.  It is the mean of these
    samples up to rounding: for samples that are non-negative and zero or
    not tiny, it lies within [window_len + 2] roundings of the mean,
    whatever the order in which the dot product adds. *)
Theorem smooth_moving_average (x : list Q) (window_len : Z) (j : nat) :
  (3 <= window_len <= Z.of_nat (length x))%Z ->
  (Z.to_nat window_len - 1 <= j < length x)%nat ->
  exists y,
    smooth x window_len = Ok y /\
    let win := firstn (Z.to_nat window_len)
                      (skipn (j + 1 - Z.to_nat window_len) x) in
    nth j y 0
    = np_dot win (repeat (B64.div 1 (inject_Z window_len))
                         (Z.to_nat window_len)) /\
    (Spec.accurate_dot -> Forall Spec.sizable win ->
     (window_len <= 2 ^ 53)%Z ->
     Spec.total win / inject_Z window_len
     * Spec.slack_down (Z.to_nat window_len + 2) <= nth j y 0
     /\ nth j y 0
        <= Spec.total win / inject_Z window_len
           * Spec.slack_up (Z.to_nat window_len + 2)).
Proof.
  intros Hw Hj. rewrite smooth_unfold by lia.
  eexists. split; [reflexivity|].
  destruct (smooth_padding_length x window_len Hw) as [Hl Hr].
  set (ker := repeat _ _) in *.
  set (L := Py.slice_rev x (window_len - 1) 0) in *.
  set (R := Py.slice_rev x (-2) (- window_len - 1)) in *.
  remember (Z.to_nat window_len) as n eqn:En.
  assert (Hn : (3 <= n)%nat) by lia.
  assert (HL : length L = (n - 1)%nat) by lia.
  assert (HR : length R = (n - 1)%nat) by lia.
  assert (Hwin : nth j (Py.windows n (L ++ x ++ R)) []
                 = firstn n (skipn (j + 1 - n) x)).
  { rewrite windows_nth by (rewrite ?length_app; lia).
    rewrite skipn_app, HL.
    rewrite (skipn_all2 L) by lia. cbn [app].
    replace (j - (n - 1))%nat with (j + 1 - n)%nat by lia.
    rewrite skipn_app, firstn_app.
    rewrite length_skipn.
    replace (n - (length x - (j + 1 - n)))%nat with 0%nat by lia.
    cbn [firstn]. now rewrite app_nil_r. }
  assert (Hnth : nth j (map (fun win => np_dot win ker)
                            (Py.windows n (L ++ x ++ R))) 0
                 = np_dot (nth j (Py.windows n (L ++ x ++ R)) []) ker).
  { rewrite (nth_indep _ 0 ((fun win => np_dot win ker) []))
      by (rewrite length_map, windows_length, !length_app by lia; lia).
    exact (map_nth (fun win => np_dot win ker) _ [] j). }
  cbn zeta. rewrite Hnth, Hwin. split; [reflexivity|].
  intros Hdot Hsz Hmax. unfold ker. rewrite En.
  apply window_accurate; try assumption; [lia | |now rewrite <- En].
  rewrite <- En. apply firstn_length_le. rewrite length_skipn. lia.
Qed.

(** X9: [smooth] always returns.  With an accurate dot product and input
    samples that are non-negative and zero or not tiny, every output
    sample lies between any two bounds [0 <= lo <= hi] of the input samples
    up to [window_len + 2] roundings; in particular a non-negative
    histogram stays non-negative. *)
Theorem smooth_within_bounds (x : list Q) (window_len : Z) :
  exists y,
    smooth x window_len = Ok y /\
    forall lo hi : Q,
      Spec.accurate_dot -> (window_len <= 2 ^ 53)%Z ->
      Forall Spec.sizable x -> 0 <= lo ->
      Forall (fun v => lo <= v <= hi) x ->
      Forall (fun v =>
                lo * Spec.slack_down (Z.to_nat window_len + 2) <= v
                /\ v <= hi * Spec.slack_up (Z.to_nat window_len + 2)) y.
Proof.
  assert (Hsame : forall lo hi : Q,
             0 <= lo -> Forall (fun v => lo <= v <= hi) x ->
             Forall (fun v =>
                       lo * Spec.slack_down (Z.to_nat window_len + 2) <= v
                       /\ v <= hi * Spec.slack_up (Z.to_nat window_len + 2))
                    x).
  { intros lo hi Hlo Hx. eapply Forall_impl; [|exact Hx].
    intros v [Hv1 Hv2]. cbn beta.
    destruct (slack_down_range (Z.to_nat window_len + 2)) as [Dpos Dle].
    pose proof (slack_up_ge (Z.to_nat window_len + 2)) as Uge.
    split; nra. }
  destruct (Z.lt_ge_cases (Z.of_nat (length x)) window_len) as [Hshort | Hlen];
    [|destruct (Z.lt_ge_cases window_len 3) as [Hsmall | Hw]].
  - exists x. split; [|intros; now apply Hsame]. unfold smooth.
    destruct (Z.ltb_spec (Z.of_nat (length x)) window_len); [reflexivity|lia].
  - exists x. split; [|intros; now apply Hsame]. unfold smooth.
    destruct (Z.ltb_spec window_len 3); [|lia]. now rewrite orb_true_r.
  - rewrite smooth_unfold by lia. eexists. split; [reflexivity|].
    intros lo hi Hdot Hmax Hsz Hlo Hx.
    apply Forall_forall. intros v Hv.
    apply in_map_iff in Hv. destruct Hv as [win [<- Hwin]].
    apply smooth_windows in Hwin. destruct Hwin as [Hwl Hin].
    assert (Hb : Forall (fun v => lo <= v <= hi) win).
    { rewrite Forall_forall in *. intros u Hu. apply Hx, Hin, Hu. }
    assert (Hs : Forall Spec.sizable win).
    { rewrite Forall_forall in *. intros u Hu. apply Hsz, Hin, Hu. }
    destruct (window_accurate window_len win Hdot ltac:(lia) Hwl Hs)
      as [Wlo Whi].
    destruct (total_bounds lo hi win Hb) as [Tlo Thi].
    rewrite Hwl, Z2Nat.id in Tlo, Thi by lia.
    assert (Hpos : 0 < inject_Z window_len)
      by (rewrite <- (Zlt_Qlt 0); lia).
    destruct (slack_down_range (Z.to_nat window_len + 2)) as [Dpos Dle].
    pose proof (slack_up_ge (Z.to_nat window_len + 2)) as Uge.
    set (d := Spec.slack_down _) in *. set (u := Spec.slack_up _) in *.
    assert (Mlo : lo <= Spec.total win / inject_Z window_len)
      by (apply Qle_shift_div_l; [exact Hpos | lra]).
    assert (Mhi : Spec.total win / inject_Z window_len <= hi)
      by (apply Qle_shift_div_r; [exact Hpos | lra]).
    set (m := Spec.total win / inject_Z window_len) in *.
    set (r := np_dot win _) in *.
    assert (L1 : lo * d <= m * d) by (apply Qmult_le_compat_r; lra).
    assert (U1 : m * u <= hi * u) by (apply Qmult_le_compat_r; lra).
    split; lra.
Qed.

End SmoothValues.

Lemma smooth_moving_average_witness :
  exists y,
    smooth (H := Demo.external) Demo.declining 3 = Ok y /\
    nth 3 y 0 = 6755399441055743 # 2251799813685248 /\
    3 * Spec.slack_down 5 <= nth 3 y 0 /\
    nth 3 y 0 <= 3 * Spec.slack_up 5.
Proof.
  destruct (smooth_moving_average (H := Demo.external) Demo.declining 3 3
              ltac:(cbn; lia) ltac:(cbn; lia))
    as (y & Hrun & Hval & Hnear).
  exists y. split; [exact Hrun|]. split; [rewrite Hval; reflexivity|].
  assert (Hsz : Forall Spec.sizable [4; 3; 2])
    by (repeat (apply Forall_cons; [right; discriminate|]); apply Forall_nil).
  destruct (Hnear demo_accurate_dot Hsz ltac:(lia)) as [Hlo Hhi].
  assert (E : Spec.total
                (firstn (Z.to_nat 3)
                        (skipn (3 + 1 - Z.to_nat 3) Demo.declining))
              / inject_Z 3 == 3) by reflexivity.
  rewrite E in Hlo, Hhi. split; [exact Hlo | exact Hhi].
Defined.

Lemma smooth_within_bounds_witness :
  exists y,
    smooth (H := Demo.external) Demo.declining 3 = Ok y /\
    Forall (fun v => 1 * Spec.slack_down 5 <= v /\ v <= 5 * Spec.slack_up 5)
           y.
Proof.
  destruct (smooth_within_bounds (H := Demo.external) Demo.declining 3)
    as (y & Hrun & Hall).
  exists y. split; [exact Hrun|].
  apply (Hall 1 5 demo_accurate_dot); try lia; try discriminate.
  - repeat (apply Forall_cons; [right; discriminate|]); apply Forall_nil.
  - repeat (apply Forall_cons; [split; discriminate|]); apply Forall_nil.
Defined.

(** ** [Spectra._residuals], [_updateModel], [optimise], [analyse]:
       errors and frames *)

Lemma peaks_list_none (s : Spectra) :
  peaks s = None ->
  peaks_list s
  = (Raise (TypeError "'NoneType' object is not iterable"%string), s).
Proof. intros Hps. unfold peaks_list, bind, gets. now rewrite Hps. Qed.

Lemma peaks_sized_none (s : Spectra) :
  peaks s = None ->
  peaks_sized s
  = (Raise (TypeError "object of type 'NoneType' has no len()"%string), s).
Proof. intros Hps. unfold peaks_sized, bind, gets. now rewrite Hps. Qed.

Section FitFrames.
Context `{External}.

Lemma index_state (l : list Q) (i : Z) (s : Spectra) : snd (index l i s) = s.
Proof. unfold index. destruct (Py.getitem l i); reflexivity. Qed.

Lemma residuals_model_state (tx params : list Q) (ips : list (Z * Peak.t)) :
  forall (model : list Q) (s : Spectra),
    snd (residuals_model tx params ips model s) = s.
Proof.
  induction ips as [|[i p] ips IH]; intros model s; [reflexivity|].
  cbn [residuals_model]. unfold bind at 1.
  pose proof (index_state params i s) as Hi.
  destruct (index params i s) as [[v|e] s']; cbn [snd] in Hi; subst s';
    [|reflexivity].
  unfold bind at 1, lift.
  destruct (Py.inplace B64.add model _); [apply IH | reflexivity].
Qed.

(** X10: [_residuals] never modifies the object, whatever it is given
    and whether it returns or raises; a parameter vector whose length
    differs from the number of peaks makes it raise [ValueError]. *)
Theorem residuals_read_only (params : list Q) (s : Spectra) :
  snd (_residuals params s) = s /\
  (forall ps, peaks s = Some ps -> length params <> length ps ->
              fst (_residuals params s)
              = Raise (ValueError "Unexpected number of parameters"%string)).
Proof.
  split.
  - unfold _residuals.
    destruct (peaks s) as [ps|] eqn:Hps;
      [|now rewrite (bind_raise _ _ _ _ _ (peaks_sized_none s Hps))].
    rewrite (bind_run _ _ _ _ _ (peaks_sized_run s ps Hps)).
    destruct (negb (length params =? length ps)%nat); [reflexivity|].
    rewrite bind_gets. unfold bind at 1.
    pose proof (residuals_model_state (Tx s) params (enumerate 0 ps)
                  (Py.zeros_like (Tx s)) s) as Hm.
    destruct (residuals_model _ _ _ _ s) as [[model|e] s']; cbn [snd] in Hm;
      subst s'; [|reflexivity].
    rewrite bind_gets.
    destruct (realTy s) as [real|]; [|reflexivity].
    unfold bind, lift. destruct (Py.binop B64.sub real model); reflexivity.
  - intros ps Hps Hne. unfold _residuals.
    rewrite (bind_run _ _ _ _ _ (peaks_sized_run s ps Hps)).
    apply Nat.eqb_neq in Hne. now rewrite Hne.
Qed.

Lemma accumulate_Ty_value (l : list Peak.t) :
  forall s : Spectra,
    (forall p, In p l -> length (Peak.Ty p) = length (Ty s)) ->
    exists s',
      accumulate_Ty l s = (Ok tt, s') /\ peaks s' = peaks s /\
      Tx s' = Tx s /\ stdout s' = stdout s /\ stderr s' = stderr s /\
      length (Ty s') = length (Ty s) /\
      forall i, (i < length (Ty s))%nat ->
        nth i (Ty s') 0
        == nth i (Ty s) 0
           + Spec.total (map (fun p => nth i (Peak.Ty p) 0) l).
Proof.
  induction l as [|p l IH]; intros s Hl.
  - exists s. repeat split. intros i _. cbn. ring.
  - cbn [accumulate_Ty]. rewrite bind_gets. unfold bind at 1, lift.
    rewrite inplace_same_length by (symmetry; apply Hl; now left).
    rewrite bind_modify.
    assert (Hzl : length (Py.zip_with Qplus (Ty s) (Peak.Ty p))
                  = length (Ty s)).
    { rewrite zip_with_length, (Hl p (or_introl eq_refl)).
      apply Nat.min_id. }
    destruct (IH (set_Ty (Py.zip_with Qplus (Ty s) (Peak.Ty p)) s))
      as (s' & Hrun & Hpk & Htx & Hout & Herr & Hlen & Hval).
    { intros q Hq. cbn [Ty set_Ty]. rewrite Hzl. apply Hl. now right. }
    exists s'. split; [exact Hrun|].
    cbn [peaks Tx Ty stdout stderr set_Ty] in *.
    repeat (split; [congruence|]).
    intros i Hi. rewrite Hval by lia.
    rewrite nth_zip_with by (rewrite ?(Hl p (or_introl eq_refl)); lia).
    cbn [map Spec.total]. ring.
Qed.


End FitFrames.



Section AnalyseOutcomes.
Context `{External}.
Variable _createInitialPeaks : M unit.

Lemma update_heights_means (ps : list Peak.t) (xs : list Q) :
  Forall2 (fun p q => Peak.mean q = Peak.mean p
                      /\ Peak.stddev q = Peak.stddev p)
          ps (update_heights ps xs).
Proof.
  revert xs. induction ps as [|p ps IH]; intros xs; [constructor|].
  destruct xs as [|v xs]; cbn [update_heights].
  - constructor; [now split|]. clear IH p.
    induction ps; constructor; auto.
  - constructor; [now split | apply IH].
Qed.

Lemma Forall2_same_means (ps : list Peak.t) :
  Forall2 (fun p q => Peak.mean q = Peak.mean p
                      /\ Peak.stddev q = Peak.stddev p) ps ps.
Proof. induction ps; constructor; auto. Qed.

Lemma accumulate_Ty_frame (l : list Peak.t) (s : Spectra) :
  stderr (snd (accumulate_Ty l s)) = stderr s.
Proof.
  revert s. induction l as [|p l IH]; intros s; [reflexivity|].
  cbn [accumulate_Ty]. rewrite bind_gets. unfold bind at 1, lift.
  destruct (Py.inplace Qplus (Ty s) (Peak.Ty p)); [|reflexivity].
  rewrite bind_modify, IH. reflexivity.
Qed.

Lemma updateModel_stderr (params : list Q) (s : Spectra) :
  stderr (snd (_updateModel params s)) = stderr s.
Proof.
  unfold _updateModel.
  destruct (peaks s) as [ps|] eqn:Hps;
    [|now rewrite (bind_raise _ _ _ _ _ (peaks_sized_none s Hps))].
  rewrite (bind_run _ _ _ _ _ (peaks_sized_run s ps Hps)).
  destruct (negb (length params =? length ps)%nat); [reflexivity|].
  rewrite bind_modify, bind_gets, bind_modify.
  erewrite (bind_run peaks_list) by (apply peaks_list_run; reflexivity).
  unfold bind at 1.
  match goal with
  | |- context [accumulate_Ty ?l ?st] =>
      pose proof (accumulate_Ty_frame l st) as Hacc;
      destruct (accumulate_Ty l st) as [[[]|e] st']
  end; cbn [snd gets] in *; exact Hacc.
Qed.

(** Whatever [optimise] does, the peaks keep their number, means and
    standard deviations, and nothing is written to the diagnostic
    stream. *)
Lemma optimise_keeps_means (s : Spectra) (ps : list Peak.t) :
  peaks s = Some ps ->
  exists ps',
    peaks (snd (optimise s)) = Some ps' /\
    Forall2 (fun p q => Peak.mean q = Peak.mean p
                        /\ Peak.stddev q = Peak.stddev p) ps ps' /\
    stderr (snd (optimise s)) = stderr s.
Proof.
  intros Hps. destruct ps as [|p0 ps0].
  - exists []. unfold optimise. rewrite bind_gets, Hps. cbn.
    split; [exact Hps|]. split; [constructor | reflexivity].
  - rewrite (optimise_run s _ Hps ltac:(discriminate)).
    destruct (least_squares _ _ _ _) as [res|e];
      [destruct (res_success res)|];
      try (exists (p0 :: ps0); split; [exact Hps|];
           split; [apply Forall2_same_means | reflexivity]).
    destruct (Nat.eq_dec (length (res_x res)) (length (p0 :: ps0)))
      as [Hlen | Hlen].
    + exists (update_heights (p0 :: ps0) (res_x res)).
      split; [|split; [apply update_heights_means|]].
      * rewrite bind_print_peaks.
        now apply (updateModel_peaks _ (solver_state s)).
      * pose proof (updateModel_stderr (res_x res) (solver_state s)) as He.
        unfold bind.
        destruct (_updateModel (res_x res) (solver_state s)) as [[a|e] s'];
          exact He.
    + rewrite (bind_raise _ _ _ _ _
                 (updateModel_mismatch _ (solver_state s) _ Hps Hlen)).
      exists (p0 :: ps0). split; [exact Hps|].
      split; [apply Forall2_same_means | reflexivity].
Qed.

(** The [try] statement never lets an exception through. *)
Lemma analyse_fit_run (verbose : bool) (s1 : Spectra) (ps : list Peak.t) :
  peaks s1 = Some ps ->
  exists s3 ps3,
    analyse_fit verbose s1 = (Ok tt, s3) /\
    peaks s3 = Some ps3 /\
    Forall2 (fun p q => Peak.mean q = Peak.mean p
                        /\ Peak.stddev q = Peak.stddev p) ps ps3 /\
    (forall e s2, optimise s1 = (Raise e, s2) ->
                  stderr s3 = stderr s1 ++ [warning; exn_str e]) /\
    (fst (optimise s1) = Ok tt -> stderr s3 = stderr s1).
Proof.
  intros Hps.
  destruct (optimise_keeps_means s1 ps Hps) as (ps' & Hpk & Hkeep & Herr).
  unfold analyse_fit, try_except.
  destruct (optimise s1) as [[[]|e] s2] eqn:Hopt; cbn [snd fst] in *.
  - rewrite (bind_run _ _ _ _ _ Hopt).
    destruct (verbose_block verbose
                (bind (print [OutStr "done."%string]) (fun _ => printPeaks))
                s2) as (s3 & Hrun & _ & Hp3 & He3).
    { unfold print. rewrite bind_modify.
      destruct (printPeaks_run (add_stdout [OutStr "done."%string] s2)
                               ps' Hpk) as (v & Hv).
      rewrite Hv. eexists. split; [reflexivity|]. repeat split. }
    rewrite Hrun. exists s3, ps'. split; [reflexivity|].
    split; [congruence|]. split; [exact Hkeep|].
    split; [intros e s2' [=] | intros _; congruence].
  - rewrite (bind_raise _ _ _ _ _ Hopt).
    exists (add_stderr (exn_str e) (add_stderr warning s2)), ps'.
    split; [reflexivity|]. split; [exact Hpk|]. split; [exact Hkeep|].
    split; [|intros [=]].
    intros e' s2' [= <- <-]. cbn [stderr add_stderr].
    rewrite Herr, <- app_assoc. reflexivity.
Qed.

End AnalyseOutcomes.

Lemma filter_none {A : Type} (f : A -> bool) (l : list A) :
  (forall a, In a l -> f a = false) -> filter f l = [].
Proof.
  induction l as [|a l IH]; intros Hl; [reflexivity|].
  cbn [filter]. rewrite (Hl a (or_introl eq_refl)).
  apply IH. intros b Hb. apply Hl. now right.
Qed.

Section AnalyseProperties.
Context `{External}.
Variable _createInitialPeaks : M unit.

(** X12: once [_createInitialPeaks] has returned, [analyse] returns
    normally in every case: every exception of the global fit is caught.
    Without initial peaks nothing else happens; otherwise the final peaks
    are the locally refined peaks that passed the volume threshold, in
    the same order and with the same means and standard deviations (only
    heights and curves may differ). *)
Theorem analyse_always_returns (min_elements : Q) (verbose : bool)
    (s s0 : Spectra) :
  _createInitialPeaks
    (if verbose
     then add_stdout [OutStr "Creating initial peaks ... "%string] s
     else s) = (Ok tt, s0) ->
  exists s3,
    analyse _createInitialPeaks min_elements verbose s = (Ok tt, s3) /\
    (truthy (peaks s0) = false ->
     peaks s3 = peaks s0 /\ stderr s3 = stderr s0) /\
    (forall ps0, peaks s0 = Some ps0 -> ps0 <> [] ->
       exists ps3,
         peaks s3 = Some ps3 /\
         Forall2 (fun p q => Peak.mean q = Peak.mean p
                             /\ Peak.stddev q = Peak.stddev p)
                 (filter (fun p => Qle_bool min_elements (Peak_elements p))
                         (map (Peak_optimise (histogram s0)) ps0))
                 ps3).
Proof.
  intros Hcip. rewrite (analyse_run _ _ _ _ _ Hcip).
  destruct (truthy (peaks s0)) eqn:Ht.
  - destruct (peaks s0) as [ps0|] eqn:Hps; [|discriminate].
    destruct (analyse_refine_run min_elements verbose s0 ps0 Hps)
      as (s1 & Hrefine & _ & _ & Hp1).
    rewrite (bind_run _ _ _ _ _ Hrefine).
    destruct (analyse_fit_run verbose s1 _ Hp1)
      as (s3 & ps3 & Hfit & Hp3 & Hkeep & _).
    exists s3. split; [exact Hfit|]. split; [discriminate|].
    intros ps0' [= <-] _. exists ps3. split; assumption.
  - destruct (verbose_block verbose
                (print [OutStr "done. No peaks created"%string]) s0)
      as (s3 & Hrun & _ & Hp3 & He3).
    { eexists. split; [reflexivity|]. repeat split. }
    exists s3. split; [exact Hrun|]. split; [now split|].
    intros ps0 Hps Hne. rewrite Hps in Ht.
    destruct ps0; [contradiction | discriminate].
Qed.

(** X13: when every locally refined peak has a volume below
    [min_elements], [analyse] ends with an empty peak list and with the
    warning and "Can't optimise peaks because none are defined." on the
    diagnostic stream. *)
Theorem analyse_all_pruned (min_elements : Q) (verbose : bool)
    (s s0 : Spectra) (ps0 : list Peak.t) :
  _createInitialPeaks
    (if verbose
     then add_stdout [OutStr "Creating initial peaks ... "%string] s
     else s) = (Ok tt, s0) ->
  peaks s0 = Some ps0 -> ps0 <> [] ->
  (forall p, In p ps0 ->
             Peak_elements (Peak_optimise (histogram s0) p) < min_elements) ->
  exists s3,
    analyse _createInitialPeaks min_elements verbose s = (Ok tt, s3) /\
    peaks s3 = Some [] /\
    stderr s3
    = stderr s0
      ++ [warning;
          "Can't optimise peaks because none are defined."%string].
Proof.
  intros Hcip Hps Hne Hsmall. rewrite (analyse_run _ _ _ _ _ Hcip).
  rewrite Hps. destruct ps0 as [|p0 ps0']; [contradiction|]. cbn [truthy].
  destruct (analyse_refine_run min_elements verbose s0 _ Hps)
    as (s1 & Hrefine & _ & He1 & Hp1).
  rewrite filter_none in Hp1.
  2:{ intros p Hp. apply in_map_iff in Hp. destruct Hp as (q & <- & Hq).
      apply not_true_is_false. rewrite Qle_bool_iff.
      apply Qlt_not_le. now apply Hsmall. }
  rewrite (bind_run _ _ _ _ _ Hrefine).
  destruct (analyse_fit_run verbose s1 _ Hp1)
    as (s3 & ps3 & Hfit & Hp3 & Hkeep & Hraise & _).
  exists s3. split; [exact Hfit|].
  destruct ps3 as [|q ps3]; [|inversion Hkeep]. split; [exact Hp3|].
  rewrite <- He1.
  apply (Hraise (ValueError
                   "Can't optimise peaks because none are defined."%string)
                s1).
  unfold optimise. rewrite bind_gets, Hp1. reflexivity.
Qed.

(** X14: when the solver returns without success (it does not raise),
    [optimise] changes no peak and [analyse] writes no warning: the
    failed fit is silent. *)
Theorem analyse_silent_on_failed_solve (min_elements : Q) (verbose : bool)
    (s s0 : Spectra) (ps : list Peak.t) (res : OptimizeResult) :
  _createInitialPeaks
    (if verbose
     then add_stdout [OutStr "Creating initial peaks ... "%string] s
     else s) = (Ok tt, s0) ->
  truthy (peaks s0) = true ->
  let prefit := snd (analyse_refine min_elements verbose s0) in
  peaks prefit = Some ps -> ps <> [] ->
  least_squares (fun p => fst (_residuals p (solver_state prefit)))
                (map Peak.peak ps) (map (fun _ => 0) ps) (map Peak.peak ps)
  = Ok res ->
  res_success res = false ->
  exists s3,
    analyse _createInitialPeaks min_elements verbose s = (Ok tt, s3) /\
    peaks s3 = Some ps /\ stderr s3 = stderr prefit.
Proof.
  intros Hcip Ht prefit Hps Hne Hcall Hfail.
  rewrite (analyse_run _ _ _ _ _ Hcip), Ht.
  destruct (peaks s0) as [ps0|] eqn:Hps0; [|discriminate].
  destruct (analyse_refine_run min_elements verbose s0 ps0 Hps0)
    as (s1 & Hrefine & _).
  assert (Hpre : prefit = s1) by (unfold prefit; now rewrite Hrefine).
  rewrite Hpre in *. clear prefit Hpre.
  rewrite (bind_run _ _ _ _ _ Hrefine).
  assert (Hopt : optimise s1 = (Ok tt, solver_state s1)).
  { rewrite (optimise_run s1 ps Hps Hne), Hcall, Hfail. reflexivity. }
  unfold analyse_fit, try_except. rewrite (bind_run _ _ _ _ _ Hopt).
  destruct (verbose_block verbose
              (bind (print [OutStr "done."%string]) (fun _ => printPeaks))
              (solver_state s1)) as (s3 & Hrun & _ & Hp3 & He3).
  { unfold print. rewrite bind_modify.
    destruct (printPeaks_run
                (add_stdout [OutStr "done."%string] (solver_state s1))
                ps Hps) as (v & Hv).
    rewrite Hv. eexists. split; [reflexivity|]. repeat split. }
  rewrite Hrun. exists s3. split; [reflexivity|].
  split; [now rewrite Hp3 | exact He3].
Qed.

End AnalyseProperties.

Lemma analyse_always_returns_witness :
  let cip := KmerSpectra_createInitialPeaks (H := Demo.external) in
  let s := KmerSpectra_init Demo.bimodal false 27 in
  exists s3, analyse (H := Demo.external) cip 1 false s = (Ok tt, s3).
Proof.
  intros cip s.
  destruct (analyse_always_returns (H := Demo.external) cip 1 false s
              (snd (cip s))) as (s3 & Hrun & _).
  - apply pair_of_fst. vm_compute. reflexivity.
  - exists s3. exact Hrun.
Defined.

Lemma analyse_all_pruned_witness :
  let cip := KmerSpectra_createInitialPeaks (H := Demo.external) in
  let s := KmerSpectra_init Demo.bimodal false 27 in
  exists s3,
    analyse (H := Demo.external) cip 1000000 false s = (Ok tt, s3) /\
    peaks s3 = Some [].
Proof.
  intros cip s.
  set (ps0 := match peaks (snd (cip s)) with Some l => l | None => [] end).
  destruct (analyse_all_pruned (H := Demo.external) cip 1000000 false s
              (snd (cip s)) ps0) as (s3 & Hrun & Hp3 & _).
  - apply pair_of_fst. vm_compute. reflexivity.
  - vm_compute. reflexivity.
  - vm_compute. discriminate.
  - assert (Hall : forallb
                     (fun p => Py.Qltb
                                 (Peak_elements (External := Demo.external)
                                    (Peak_optimise (External := Demo.external)
                                       (histogram (snd (cip s))) p))
                                 1000000) ps0 = true)
      by (vm_compute; reflexivity).
    rewrite forallb_forall in Hall. intros p Hp.
    apply Qltb_iff. now apply Hall.
  - exists s3. split; assumption.
Defined.

Lemma analyse_silent_on_failed_solve_witness :
  let cip := KmerSpectra_createInitialPeaks (H := Cases.stalled) in
  let s := KmerSpectra_init Demo.bimodal false 27 in
  let prefit :=
    snd (analyse_refine (H := Cases.stalled) 1 false (snd (cip s))) in
  exists s3,
    analyse (H := Cases.stalled) cip 1 false s = (Ok tt, s3) /\
    stderr s3 = stderr prefit.
Proof.
  intros cip s prefit.
  set (ps := match peaks prefit with Some l => l | None => [] end).
  destruct (analyse_silent_on_failed_solve (H := Cases.stalled) cip 1 false s
              (snd (cip s)) ps
              {| res_success := false; res_x := map Peak.peak ps;
                 res_nfev := 100 |})
    as (s3 & Hrun & _ & Herr).
  - apply pair_of_fst. vm_compute. reflexivity.
  - vm_compute. reflexivity.
  - vm_compute. reflexivity.
  - vm_compute. discriminate.
  - reflexivity.
  - reflexivity.
  - exists s3. split; assumption.
Defined.

(** ** Genome metrics *)

Lemma str_inj (a b : Z) : str a = str b -> a = b.
Proof.
  unfold str. intros E.
  assert (Hnn : forall z, Z.to_int z <> Decimal.Pos Decimal.Nil
                          /\ Z.to_int z <> Decimal.Neg Decimal.Nil).
  { intros [|p|p]; cbn; split; try discriminate;
      intros [= Hp]; exact (DecimalPos.Unsigned.to_uint_nonnil p Hp). }
  apply (f_equal DecimalString.NilZero.int_of_string) in E.
  rewrite !DecimalString.NilZero.isi in E by apply Hnn.
  injection E as E. now apply DecimalZ.to_int_inj.
Qed.

Lemma half_label (d : Z) :
  String.eqb ("1/" ++ str d ++ "X") "1/2X" = (d =? 2)%Z.
Proof.
  destruct (Z.eqb_spec d 2) as [-> | Hne].
  - reflexivity.
  - apply String.eqb_neq. intros E. apply Hne. apply str_inj.
    cbn [String.append] in E. injection E as E.
    change (str 2) with "2"%string.
    remember (str d) as a eqn:Ha. clear Ha.
    destruct a as [|c a]; cbn in E; [discriminate|].
    injection E as -> E.
    destruct a as [|c a]; cbn in E; [reflexivity|].
    injection E as _ E. destruct a; discriminate.
Qed.

Section GenomeSize.
Context `{External}.

Lemma genome_fold (hom : Z) (ps : list Peak.t) :
  forall (start : Z) (sum : Q) (done : list Peak.t),
  exists g,
    fold_left (genome_step hom) (enumerate start ps) (sum, done)
    = (g, done ++ map (fun ip => set_description (genome_label hom (fst ip))
                                                 (snd ip))
                      (enumerate start ps))
    /\ g == sum + Spec.total
                    (map (fun ip => genome_weight hom (fst ip)
                                    * Peak_elements (snd ip))
                         (enumerate start ps)).
Proof.
  induction ps as [|p ps IH]; intros start sum done.
  - exists sum. cbn. rewrite app_nil_r. split; [reflexivity | ring].
  - cbn [enumerate fold_left genome_step map fst snd Spec.total].
    unfold genome_weight at 1, genome_label at 1.
    destruct (hom <? start)%Z eqn:E1; [|destruct (start <? hom)%Z eqn:E2].
    + destruct (IH (start + 1)%Z
                   (sum + inject_Z (start - hom + 1) * Peak_elements p)
                   (done ++ [set_description (str (start - hom + 1) ++ "X")
                                             p]))
        as (g & Hg & Hv).
      exists g. rewrite Hg, <- app_assoc. split; [reflexivity|].
      rewrite Hv. ring.
    + rewrite half_label.
      destruct (IH (start + 1)%Z
                   (sum + Peak_elements p / inject_Z (hom - start + 1))
                   (done ++ [set_description
                               (if (hom - start + 1 =? 2)%Z
                                then "1/2X (Heterozygous)"%string
                                else ("1/" ++ str (hom - start + 1) ++ "X")%string)
                               p]))
        as (g & Hg & Hv).
      exists g. rewrite Hg, <- app_assoc. split; [reflexivity|].
      rewrite Hv. unfold Qdiv. ring.
    + destruct (IH (start + 1)%Z (sum + Peak_elements p)
                   (done ++ [set_description "1X (Homozygous)" p]))
        as (g & Hg & Hv).
      exists g. rewrite Hg, <- app_assoc. split; [reflexivity|].
      rewrite Hv. ring.
Qed.

Lemma calcGenomeSize_index (hom : Z) (s : Spectra) (ps : list Peak.t) :
  peaks s = Some ps -> hom <> 0%Z ->
  exists g,
    calcGenomeSize hom s = (Ok g, set_peaks (Some (relabel hom ps)) s)
    /\ g == genome_size hom ps.
Proof.
  intros Hps Hne. unfold calcGenomeSize.
  destruct (Z.eqb_spec hom 0) as [E | _]; [contradiction|].
  rewrite bind_ret.
  destruct (Z.eqb_spec hom 0) as [E | _]; [contradiction|].
  rewrite (bind_run _ _ _ _ _ (peaks_list_run s ps Hps)).
  destruct (genome_fold hom ps 1 0 []) as (g & Hg & Hv).
  rewrite Hg. cbn [app]. exists g. split; [reflexivity|].
  rewrite Hv. unfold genome_size. ring.
Qed.

End GenomeSize.

Lemma nth_error_enumerate {A : Type} (l : list A) :
  forall (start : Z) (i : nat) (a : A),
    nth_error l i = Some a ->
    nth_error (enumerate start l) i = Some ((start + Z.of_nat i)%Z, a).
Proof.
  induction l as [|b l IH]; intros start [|i] a Hi; try discriminate.
  - cbn in *. injection Hi as ->. now rewrite Z.add_0_r.
  - cbn [enumerate nth_error] in *. rewrite (IH _ _ _ Hi).
    replace (start + 1 + Z.of_nat i)%Z with (start + Z.of_nat (S i))%Z by lia.
    reflexivity.
Qed.

Section GenomeSizeProperties.
Context `{External}.

Lemma primary_index (s : Spectra) (ps : list Peak.t) :
  peaks s = Some ps ->
  exists r,
    getHomozygousPeakIndex 0 s = (Ok r, s) /\
    Spec.first_within ps (fmax s) r.
Proof.
  intros Hps.
  pose proof (getHomozygousPeakIndex_run 0 s ps Hps) as Hget.
  change (Py.Qltb 0 0) with false in Hget. cbn iota in Hget.
  eexists. split; [exact Hget|].
  destruct (primary_loop_spec (fmax s) ps 1 ltac:(lia))
    as [[Hr Hall] | (Hr & p & Hp & Hin & Hbefore)].
  - left. now split.
  - right. split; [exact Hr|]. exists p. repeat split; assumption.
Qed.

Lemma calcGenomeSize_zero (s : Spectra) (ps : list Peak.t) (r : Z) :
  peaks s = Some ps ->
  getHomozygousPeakIndex 0 s = (Ok r, s) ->
  (r = 0%Z -> calcGenomeSize 0 s = (Ok 0, s)) /\
  (r <> 0%Z ->
   exists g,
     calcGenomeSize 0 s = (Ok g, set_peaks (Some (relabel r ps)) s)
     /\ g == genome_size r ps).
Proof.
  intros Hps Hget.
  assert (Hstart : forall k' : Z -> M Q,
             bind (if (0 =? 0)%Z then getHomozygousPeakIndex (inject_Z 0)
                   else ret 0%Z) k' s = k' r s).
  { intros k'. cbn [Z.eqb]. change (inject_Z 0) with 0.
    now rewrite (bind_run _ _ _ _ _ Hget). }
  split.
  - intros Hr. unfold calcGenomeSize. rewrite Hstart, Hr. reflexivity.
  - intros Hr. unfold calcGenomeSize. rewrite Hstart.
    destruct (Z.eqb_spec r 0) as [E | _]; [contradiction|].
    rewrite (bind_run _ _ _ _ _ (peaks_list_run s ps Hps)).
    destruct (genome_fold r ps 1 0 []) as (g & Hg & Hv).
    rewrite Hg. cbn [app]. exists g. split; [reflexivity|].
    rewrite Hv. unfold genome_size. ring.
Qed.


(** X16: with the homozygous peak at index [hom], [calcGenomeSize]
    labels that peak "1X (Homozygous)", the peak just before it
    "1/2X (Heterozygous)", a peak further before it "1/nX" and a peak
    after it "nX", where [n] is its distance to the homozygous peak
    plus one. *)
Theorem calcGenomeSize_labels (hom : Z) (s : Spectra) (ps : list Peak.t) :
  peaks s = Some ps -> hom <> 0%Z ->
  exists g ps',
    calcGenomeSize hom s = (Ok g, set_peaks (Some ps') s) /\
    forall (i : nat) (p : Peak.t),
      nth_error ps i = Some p ->
      exists d,
        nth_error ps' i = Some (set_description d p) /\
        ((Z.of_nat i + 1 = hom)%Z -> d = "1X (Homozygous)"%string) /\
        ((Z.of_nat i + 2 = hom)%Z -> d = "1/2X (Heterozygous)"%string) /\
        ((hom < Z.of_nat i + 1)%Z ->
         d = (str (Z.of_nat i + 1 - hom + 1) ++ "X")%string) /\
        ((Z.of_nat i + 2 < hom)%Z ->
         d = ("1/" ++ str (hom - Z.of_nat i) ++ "X")%string).
Proof.
  intros Hps Hne.
  destruct (calcGenomeSize_index hom s ps Hps Hne) as (g & Hrun & _).
  exists g, (relabel hom ps). split; [exact Hrun|].
  intros i p Hi. exists (genome_label hom (1 + Z.of_nat i)). split.
  - unfold relabel.
    rewrite nth_error_map, (nth_error_enumerate ps 1 i p Hi). reflexivity.
  - unfold genome_label.
    destruct (Z.ltb_spec hom (1 + Z.of_nat i)) as [Hlt | Hge].
    { split; [intros E; lia|]. split; [intros E; lia|].
      split; [|intros E; lia].
      intros _. f_equal. f_equal. lia. }
    destruct (Z.ltb_spec (1 + Z.of_nat i) hom) as [Hlt | Hge'].
    { destruct (Z.eqb_spec (hom - (1 + Z.of_nat i) + 1) 2) as [E2 | E2].
      - split; [intros E; lia|]. split; [reflexivity|].
        split; intros E; lia.
      - split; [intros E; lia|]. split; [intros E; lia|].
        split; [intros E; lia|].
        intros _. f_equal. f_equal. f_equal. lia. }
    split; [reflexivity|]. split; [intros E; lia|].
    split; intros E; lia.
Qed.


(** X18: on an object whose peak list is [None] (a spectrum that
    [_createInitialPeaks] found unanalysable, or one never analysed) the
    metrics do not return 0: [getHomozygousPeakIndex], [calcGenomeSize]
    and [calcKmerCoverage] raise [TypeError] and leave the object as it
    is. *)
Theorem metrics_raise_without_peaks (s : Spectra) (approx_freq : Q)
    (hom : Z) :
  peaks s = None ->
  let e := TypeError "'NoneType' object is not iterable"%string in
  getHomozygousPeakIndex approx_freq s = (Raise e, s) /\
  calcGenomeSize hom s = (Raise e, s) /\
  calcKmerCoverage s = (Raise e, s).
Proof.
  intros Hps e.
  assert (Hget : forall a, getHomozygousPeakIndex a s = (Raise e, s)).
  { intros a. unfold getHomozygousPeakIndex.
    destruct (Py.Qltb 0 a);
      now rewrite (bind_raise _ _ _ _ _ (peaks_list_none s Hps)). }
  split; [apply Hget|]. split.
  - unfold calcGenomeSize. destruct (Z.eqb_spec hom 0) as [E | Hne].
    + now rewrite (bind_raise _ _ _ _ _ (Hget _)).
    + rewrite bind_ret. destruct (Z.eqb_spec hom 0); [contradiction|].
      now rewrite (bind_raise _ _ _ _ _ (peaks_list_none s Hps)).
  - unfold calcKmerCoverage.
    now rewrite (bind_raise _ _ _ _ _ (peaks_list_none s Hps)).
Qed.

End GenomeSizeProperties.


Lemma calcGenomeSize_labels_witness :
  exists g ps',
    calcGenomeSize (H := Demo.external) 2 (Demo.with_peaks Cases.three_peaks)
    = (Ok g, set_peaks (Some ps') (Demo.with_peaks Cases.three_peaks))
    /\ map Peak.description ps'
       = ["1/2X (Heterozygous)"; "1X (Homozygous)"; "2X"]%string.
Proof.
  destruct (calcGenomeSize_labels (H := Demo.external) 2
              (Demo.with_peaks Cases.three_peaks) Cases.three_peaks
              eq_refl ltac:(discriminate))
    as (g & ps' & Hrun & _).
  exists g, ps'. split; [exact Hrun|].
  assert (E : set_peaks (Some ps') (Demo.with_peaks Cases.three_peaks)
              = snd (calcGenomeSize (H := Demo.external) 2
                       (Demo.with_peaks Cases.three_peaks)))
    by (rewrite Hrun; reflexivity).
  apply (f_equal peaks) in E. cbn [peaks set_peaks] in E.
  vm_compute in E. injection E as ->. reflexivity.
Defined.


Lemma metrics_raise_without_peaks_witness :
  calcKmerCoverage (H := Demo.external)
    (KmerSpectra_init Demo.declining false 27)
  = (Raise (TypeError "'NoneType' object is not iterable"%string),
     KmerSpectra_init Demo.declining false 27).
Proof.
  apply (metrics_raise_without_peaks (H := Demo.external)
           (KmerSpectra_init Demo.declining false 27) 0 0 eq_refl).
Defined.

(** ** [getHomozygousPeakIndex], [calcHetRate], [calcKmerCoverage] *)

Lemma closest_fold_means (a : Q) (ps : list Peak.t) :
  forall (ps' : list Peak.t) (start : Z) (acc : Z * Q),
    map Peak.mean ps = map Peak.mean ps' ->
    fold_left (closest_step a) (enumerate start ps) acc
    = fold_left (closest_step a) (enumerate start ps') acc.
Proof.
  induction ps as [|p ps IH]; intros [|p' ps'] start acc E;
    try discriminate; [reflexivity|].
  cbn [map] in E. injection E as Em Erest.
  cbn [enumerate fold_left].
  replace (closest_step a acc (start, p')) with (closest_step a acc (start, p))
    by (destruct acc; cbn [closest_step]; now rewrite Em).
  now apply IH.
Qed.

Lemma primary_loop_means (fm : Z) (ps : list Peak.t) :
  forall (ps' : list Peak.t) (start : Z),
    map Peak.mean ps = map Peak.mean ps' ->
    primary_loop fm (enumerate start ps)
    = primary_loop fm (enumerate start ps').
Proof.
  induction ps as [|p ps IH]; intros [|p' ps'] start E;
    try discriminate; [reflexivity|].
  cbn [map] in E. injection E as Em Erest.
  cbn [enumerate primary_loop]. rewrite Em.
  now rewrite (IH ps' _ Erest).
Qed.

Lemma relabel_means (hom : Z) (ps : list Peak.t) :
  map Peak.mean (relabel hom ps) = map Peak.mean ps.
Proof.
  unfold relabel. generalize 1%Z.
  induction ps as [|p ps IH]; intros start; [reflexivity|].
  cbn [enumerate map]. now rewrite IH.
Qed.

Lemma nth_error_in_range {A : Type} (l : list A) (r : Z) (a : A) :
  (1 <= r)%Z -> nth_error l (Z.to_nat (r - 1)) = Some a ->
  (r <= Z.of_nat (length l))%Z.
Proof.
  intros Hr Hn.
  assert (Z.to_nat (r - 1) < length l)%nat
    by (apply nth_error_Some; congruence).
  lia.
Qed.

Lemma index_in_range (a : Q) (s : Spectra) (ps : list Peak.t) :
  peaks s = Some ps ->
  exists r, getHomozygousPeakIndex a s = (Ok r, s)
            /\ (0 <= r <= Z.of_nat (length ps))%Z.
Proof.
  intros Hps. rewrite (getHomozygousPeakIndex_run a s ps Hps).
  eexists. split; [reflexivity|].
  destruct (Py.Qltb 0 a).
  - destruct (fold_left (closest_step a) (enumerate 1 ps) (0%Z, 1000000))
      as [i d] eqn:E.
    destruct (closest_fold a ps i d E)
      as [(-> & _) | (_ & Hi & p & Hp & _)]; cbn [fst]; [lia|].
    pose proof (nth_error_in_range ps i p Hi Hp). lia.
  - destruct (primary_loop_spec (fmax s) ps 1 ltac:(lia))
      as [[-> _] | (Hr & p & Hp & _)]; [lia|].
    pose proof (nth_error_in_range ps _ p Hr Hp). lia.
Qed.

Lemma index_means (a : Q) (s s' : Spectra) (ps ps' : list Peak.t) :
  peaks s = Some ps -> peaks s' = Some ps' -> fmax s = fmax s' ->
  map Peak.mean ps = map Peak.mean ps' ->
  forall r, getHomozygousPeakIndex a s = (Ok r, s) ->
            getHomozygousPeakIndex a s' = (Ok r, s').
Proof.
  intros Hps Hps' Hfm Hm r.
  rewrite (getHomozygousPeakIndex_run a s ps Hps),
          (getHomozygousPeakIndex_run a s' ps' Hps').
  rewrite <- Hfm, (closest_fold_means a ps ps' 1 _ Hm),
          (primary_loop_means (fmax s) ps ps' 1 Hm).
  intros E. apply pair_equal_spec in E. destruct E as [E _].
  now rewrite E.
Qed.

(** X19: the index that [getHomozygousPeakIndex] returns lies between 0
    and the number of peaks, and it depends on the peaks' means (and on
    [fmax]) only: two objects whose peaks have the same means get the
    same index, whatever the heights, widths, curves and labels of the
    peaks. *)
Theorem getHomozygousPeakIndex_reads_means (a : Q) (s s' : Spectra)
    (ps ps' : list Peak.t) :
  peaks s = Some ps -> peaks s' = Some ps' -> fmax s = fmax s' ->
  map Peak.mean ps = map Peak.mean ps' ->
  exists r,
    getHomozygousPeakIndex a s = (Ok r, s) /\
    getHomozygousPeakIndex a s' = (Ok r, s') /\
    (0 <= r <= Z.of_nat (length ps))%Z.
Proof.
  intros Hps Hps' Hfm Hm.
  destruct (index_in_range a s ps Hps) as (r & Hr & Hrange).
  exists r. split; [exact Hr|]. split; [|exact Hrange].
  exact (index_means a s s' ps ps' Hps Hps' Hfm Hm r Hr).
Qed.

Lemma getHomozygousPeakIndex_reads_means_witness :
  exists r,
    getHomozygousPeakIndex 19 (Demo.with_peaks Cases.three_peaks)
    = (Ok r, Demo.with_peaks Cases.three_peaks) /\
    getHomozygousPeakIndex 19
      (Demo.with_peaks (relabel 1 Cases.three_peaks))
    = (Ok r, Demo.with_peaks (relabel 1 Cases.three_peaks)) /\
    (0 <= r <= 3)%Z.
Proof.
  apply (getHomozygousPeakIndex_reads_means 19
           (Demo.with_peaks Cases.three_peaks)
           (Demo.with_peaks (relabel 1 Cases.three_peaks))
           Cases.three_peaks (relabel 1 Cases.three_peaks));
    reflexivity.
Defined.

Section HetRateProperties.
Context `{External}.
Variable truediv : Q -> Q -> outcome Q.
Hypothesis truediv_exact : exact_division truediv.

Lemma het_loop_run (r kk : Z) (s : Spectra) :
  kk <> 0%Z ->
  forall (ps : list Peak.t) (start : Z) (sum : Q),
  exists v,
    het_loop truediv r kk (enumerate start ps) sum s = (Ok v, s) /\
    v == sum + Spec.total (map (fun p => Peak_elements p / inject_Z kk)
                               (firstn (Z.to_nat (r - start)) ps)).
Proof.
  intros Hkk. induction ps as [|p ps IH]; intros start sum.
  - exists sum. split; [reflexivity|]. rewrite firstn_nil. cbn. ring.
  - cbn [enumerate het_loop].
    destruct (Z.leb_spec r start) as [Hle | Hlt].
    + exists sum. split; [reflexivity|].
      replace (Z.to_nat (r - start)) with 0%nat by lia. cbn. ring.
    + assert (Hnz : ~ inject_Z kk == 0).
      { intros E. apply Hkk.
        change 0 with (inject_Z 0) in E.
        exact (proj1 (inject_Z_injective _ _) E). }
      rewrite (truediv_exact _ _ Hnz).
      unfold lift at 1. unfold bind at 1.
      destruct (IH (start + 1)%Z (sum + Peak_elements p / inject_Z kk))
        as (v & Hv & Hsum).
      exists v. split; [exact Hv|].
      replace (Z.to_nat (r - start))
        with (S (Z.to_nat (r - (start + 1)))) by lia.
      cbn [firstn map Spec.total]. rewrite Hsum. ring.
Qed.

Lemma calcHetRate_tail (hom_peak : Q) (s : Spectra) (ps : list Peak.t)
    (r : Z) (g : Q) :
  peaks s = Some ps -> k s <> 0%Z ->
  getHomozygousPeakIndex hom_peak s = (Ok r, s) ->
  ((r < 2)%Z ->
   bind (getHomozygousPeakIndex hom_peak)
        (fun hom_peak_index =>
           if (hom_peak_index <? 2)%Z then ret 0
           else
             bind peaks_list (fun ps =>
             bind (gets k) (fun kk =>
             bind (het_loop truediv hom_peak_index kk (enumerate 1 ps) 0)
                  (fun sum =>
             bind (lift (truediv sum g)) (fun q => ret (q * 100)))))) s
   = (Ok 0, s)) /\
  ((2 <= r)%Z ->
   exists sum,
     sum == het_volume r (k s) ps /\
     bind (getHomozygousPeakIndex hom_peak)
        (fun hom_peak_index =>
           if (hom_peak_index <? 2)%Z then ret 0
           else
             bind peaks_list (fun ps =>
             bind (gets k) (fun kk =>
             bind (het_loop truediv hom_peak_index kk (enumerate 1 ps) 0)
                  (fun sum =>
             bind (lift (truediv sum g)) (fun q => ret (q * 100)))))) s
     = (match truediv sum g with
        | Ok q => Ok (q * 100)
        | Raise e => Raise e
        end, s)).
Proof.
  intros Hps Hk Hr. split; intros Hrange;
    rewrite (bind_run _ _ _ _ _ Hr).
  - destruct (Z.ltb_spec r 2); [reflexivity | lia].
  - destruct (Z.ltb_spec r 2); [lia|].
    rewrite (bind_run _ _ _ _ _ (peaks_list_run s ps Hps)), bind_gets.
    destruct (het_loop_run r (k s) s Hk ps 1 0) as (sum & Hrun & Hsum).
    rewrite (bind_run _ _ _ _ _ Hrun).
    exists sum. split.
    + rewrite Hsum. unfold het_volume. ring.
    + unfold bind, lift, ret. now destruct (truediv sum g).
Qed.


Hypothesis elements_ignore_label :
  forall (d : string) (p : Peak.t),
    Peak_elements (set_description d p) = Peak_elements p.

Lemma het_volume_relabel (hom r kk : Z) (ps : list Peak.t) :
  het_volume r kk (relabel hom ps) = het_volume r kk ps.
Proof.
  unfold het_volume, relabel. f_equal. generalize (Z.to_nat (r - 1)).
  generalize 1%Z. induction ps as [|p ps IH]; intros start [|n];
    try reflexivity.
  cbn [enumerate map firstn fst snd].
  now rewrite elements_ignore_label, IH.
Qed.



End HetRateProperties.

Lemma truediv_exact_division : exact_division Cases.truediv.
Proof.
  intros a b Hb. unfold Cases.truediv.
  destruct (Qeq_bool b 0) eqn:E; [|reflexivity].
  apply Qeq_bool_iff in E. contradiction.
Defined.




Section CoverageBounds.
Context `{External}.

Lemma weighted_bounds (lo hi : Q) (ps : list Peak.t) :
  Forall (fun p => 0 <= Peak_elements p) ps ->
  Forall (fun p => lo <= Peak.mean p <= hi) ps ->
  lo * Spec.total (map Peak_elements ps)
  <= Spec.total (map (fun p => Peak.mean p * Peak_elements p) ps)
  /\ Spec.total (map (fun p => Peak.mean p * Peak_elements p) ps)
     <= hi * Spec.total (map Peak_elements ps).
Proof.
  intros He Hm. induction ps as [|p ps IH].
  - cbn [map Spec.total]. split; lra.
  - inversion He as [|? ? Hep Hes]; subst.
    inversion Hm as [|? ? Hmp Hms]; subst.
    destruct (IH Hes Hms) as [IHlo IHhi]. cbn [map Spec.total].
    pose proof (Qmult_le_compat_r _ _ (Peak_elements p) (proj1 Hmp) Hep).
    pose proof (Qmult_le_compat_r _ _ (Peak_elements p) (proj2 Hmp) Hep).
    split; lra.
Qed.

(** X23: with an accurate builtin [sum], volumes and means that are
    non-negative and zero or not tiny, and a positive computed total
    volume, the coverage that [calcKmerCoverage] returns lies between any
    lower bound [lo >= 0] and any upper bound [hi] of the peaks' means up
    to rounding: between the truncations of the doubles nearest to
    [lo * (1 - u)^(n + 1) / (1 + u)^n] and [hi * (1 + u)^(n + 1) / (1 - u)^n]
    for [n] peaks and [u = 2^-53].  (One peak of mean 10 can give 9.) *)
Theorem calcKmerCoverage_bounds (s : Spectra) (ps : list Peak.t)
    (lo hi : Q) :
  Spec.accurate_sum ->
  peaks s = Some ps ->
  Forall (fun p => Spec.sizable (Peak_elements p)) ps ->
  Forall (fun p => Spec.sizable (Peak.mean p)) ps ->
  0 <= lo ->
  Forall (fun p => lo <= Peak.mean p <= hi) ps ->
  0 < Spec.computed_volume ps ->
  exists r,
    calcKmerCoverage s = (Ok r, s) /\
    (Py.int (B64.round (lo * Spec.slack_down (S (length ps))
                        / Spec.slack_up (length ps))) <= r)%Z /\
    (r <= Py.int (B64.round (hi * Spec.slack_up (S (length ps))
                             / Spec.slack_down (length ps))))%Z.
Proof.
  intros Hsum Hps He Hm Hlo Hrange Hpos.
  rewrite (calcKmerCoverage_run s ps Hps). eexists. split; [reflexivity|].
  assert (Htot : Py.Qltb 0 (Spec.computed_volume ps) = true)
    by (now apply Qltb_iff).
  rewrite Htot.
  destruct (computed_mean_accurate ps Hsum He Hm Hpos) as (HT & Clo & Chi).
  assert (He0 : Forall (fun p => 0 <= Peak_elements p) ps).
  { eapply Forall_impl; [|exact He]. intros p. apply sizable_nonneg. }
  destruct (weighted_bounds lo hi ps He0 Hrange) as [Wlo Whi].
  unfold Spec.weighted_mean in Clo, Chi.
  set (T := Spec.total (map Peak_elements ps)) in *.
  set (W := Spec.total (map (fun p => Peak.mean p * Peak_elements p) ps))
    in *.
  assert (Mlo : lo <= W / T) by (apply Qle_shift_div_l; [exact HT | lra]).
  assert (Mhi : W / T <= hi) by (apply Qle_shift_div_r; [exact HT | lra]).
  destruct (slack_down_range (length ps)) as [Dpos _].
  destruct (slack_down_range (S (length ps))) as [Dpos' _].
  pose proof (slack_up_ge (length ps)) as Uge.
  pose proof (slack_up_ge (S (length ps))) as Uge'.
  set (d := Spec.slack_down (length ps)) in *.
  set (d' := Spec.slack_down (S (length ps))) in *.
  set (u := Spec.slack_up (length ps)) in *.
  set (u' := Spec.slack_up (S (length ps))) in *.
  set (m := W / T) in *.
  split; apply int_monotone.
  - eapply Qle_trans; [|exact Clo]. apply round_monotone.
    apply Qle_shift_div_l; [lra|].
    assert (E : lo * d' / u * u == lo * d') by (field; lra).
    rewrite E. apply Qmult_le_compat_r; lra.
  - eapply Qle_trans; [exact Chi|]. apply round_monotone.
    apply Qle_shift_div_r; [lra|].
    assert (E : hi * u' / d * d == hi * u') by (field; lra).
    rewrite E. apply Qmult_le_compat_r; lra.
Qed.

End CoverageBounds.

Lemma calcKmerCoverage_bounds_witness :
  exists r,
    calcKmerCoverage (H := Demo.external)
      (Demo.with_peaks Cases.three_peaks)
    = (Ok r, Demo.with_peaks Cases.three_peaks) /\ (9 <= r <= 40)%Z.
Proof.
  destruct (calcKmerCoverage_bounds (H := Demo.external)
              (Demo.with_peaks Cases.three_peaks) Cases.three_peaks 10 40
              demo_accurate_sum eq_refl)
    as (r & Hrun & Hlo & Hhi).
  - repeat (apply Forall_cons; [right; discriminate|]); apply Forall_nil.
  - repeat (apply Forall_cons; [right; discriminate|]); apply Forall_nil.
  - discriminate.
  - repeat (apply Forall_cons; [split; discriminate|]); apply Forall_nil.
  - vm_compute. reflexivity.
  - exists r. split; [exact Hrun|].
    assert (E1 : Py.int (B64.round
                           (10 * Spec.slack_down
                                   (S (length Cases.three_peaks))
                            / Spec.slack_up (length Cases.three_peaks)))
                 = 9%Z) by (vm_compute; reflexivity).
    assert (E2 : Py.int (B64.round
                           (40 * Spec.slack_up
                                   (S (length Cases.three_peaks))
                            / Spec.slack_down (length Cases.three_peaks)))
                 = 40%Z) by (vm_compute; reflexivity).
    rewrite E1 in Hlo. rewrite E2 in Hhi. lia.
Defined.
